(** * propage: the Fast Marching eikonal solver and the ray tracer

    A shallow embedding of [src/solver.py] and [src/raytracer.py].
    Arrival times and slowness values are IEEE-754 binary64 numbers, as in
    the NumPy/Numba code, so they are modelled by Rocq's primitive floats;
    cell coordinates are machine integers, modelled in [Z]. *)

From Stdlib Require Import Reals Lra.
From Stdlib Require Import ZArith Lia Bool List Floats.
From Stdlib Require Uint63.
From stdpp Require Import base list.

Set Warnings "-inexact-float".

Local Open Scope Z_scope.

(** ** Two-dimensional arrays

    A NumPy array of shape [(shape0, shape1)] stored row-major.  Indexing
    follows NumPy: a negative index [i] in [-n, 0) denotes [i + n].  Both
    functions of the program are compiled by Numba, which checks no index
    against the shape: an access at [(y, x)] is an access at the flat
    offset [y * shape1 + x], whatever cell that is.  [item] and [setitem]
    work the same way.  [data] is the memory from the first cell on; it may
    be longer than [shape0 * shape1], and what follows the last cell is the
    memory after the array.  Where [data] ends, [item] yields the default
    and [setitem] leaves the array alone. *)

Module Nd.

Record ndarray (A : Type) : Type :=
  NdArray { shape0 : Z; shape1 : Z; data : list A }.
Arguments NdArray {A} _ _ _.
Arguments shape0 {A} _.
Arguments shape1 {A} _.
Arguments data {A} _.

Definition wrap_index (i n : Z) : Z := if i <? 0 then i + n else i.

Definition index_ok (i n : Z) : bool := (- n <=? i) && (i <? n).

Definition flat {A} (a : ndarray A) (y x : Z) : nat :=
  Z.to_nat (wrap_index y (shape0 a) * shape1 a + wrap_index x (shape1 a)).

Definition item {A} (d : A) (a : ndarray A) (y x : Z) : A :=
  default d (data a !! flat a y x).

Definition setitem {A} (a : ndarray A) (y x : Z) (v : A) : ndarray A :=
  NdArray (shape0 a) (shape1 a) (<[flat a y x := v]> (data a)).

Definition full {A} (ny nx : Z) (v : A) : ndarray A :=
  NdArray ny nx (replicate (Z.to_nat (ny * nx)) v).

(** The array owns [shape0 * shape1] cells. *)
Definition wf {A} (a : ndarray A) : Prop :=
  0 <= shape0 a /\ 0 <= shape1 a /\
  length (data a) = Z.to_nat (shape0 a * shape1 a).

(** Build an array from its rows (used for concrete inputs). *)
Definition of_rows {A} (rows : list (list A)) : ndarray A :=
  NdArray (Z.of_nat (length rows))
          (Z.of_nat (length (hd [] rows)))
          (concat rows).

End Nd.
Import Nd.

(** ** Floating-point helpers *)

Definition inf : float := infinity.

(** [item] on float and bool arrays; the defaults are never observed on
    in-range accesses. *)
Definition fitem : ndarray float -> Z -> Z -> float := item nan.
Definition bitem : ndarray bool -> Z -> Z -> bool := item false.

(** ** The solver, [src/solver.py] *)

Section Stencil.

Local Open Scope float_scope.

(** Lines 10-12 of [_solve_quadratic]: the smallest stored time among the
    in-range horizontal neighbours. *)
Definition t_horiz (T : ndarray float) (y x nx : Z) : float :=
  let t := inf in
  let t := if (x >? 0)%Z && (fitem T y (x - 1) <? t) then fitem T y (x - 1) else t in
  let t := if (x <? nx - 1)%Z && (fitem T y (x + 1) <? t) then fitem T y (x + 1) else t in
  t.

(** Lines 13-14: the same along the vertical axis. *)
Definition t_vert (T : ndarray float) (y x ny : Z) : float :=
  let t := inf in
  let t := if (y >? 0)%Z && (fitem T (y - 1) x <? t) then fitem T (y - 1) x else t in
  let t := if (y <? ny - 1)%Z && (fitem T (y + 1) x <? t) then fitem T (y + 1) x else t in
  t.

(** Line 15: [(t1, t2)], the smaller value first. *)
Definition order_pair (th tv : float) : float * float :=
  if th <? tv then (th, tv) else (tv, th).

(** Lines 18-19: the coefficient [b], [c] and the discriminant for
    [a = 2.0]; [x**2] is [x * x]. *)
Definition quad_b (t1 t2 : float) : float := (-2) * (t1 + t2).
Definition quad_c (t1 t2 sd : float) : float := t1 * t1 + t2 * t2 - sd * sd.
Definition quad_disc (t1 t2 sd : float) : float :=
  quad_b t1 t2 * quad_b t1 t2 - (4 * 2) * quad_c t1 t2 sd.

(** Line 21: [(-b + sqrt(disc)) / (2*a)]. *)
Definition quad_root (t1 t2 sd : float) : float :=
  (- quad_b t1 t2 + sqrt (quad_disc t1 t2 sd)) / (2 * 2).

(** Lines 16-23, on the ordered pair; [sd] is [slow*dx]. *)
Definition stencil_value (t1 t2 slow dx : float) : float :=
  if t1 =? inf then inf
  else
    if t2 <? inf then
      let disc := quad_disc t1 t2 (slow * dx) in
      if 0 <=? disc then
        let t_new := quad_root t1 t2 (slow * dx) in
        if t2 <=? t_new then t_new else t1 + slow * dx
      else t1 + slow * dx
    else t1 + slow * dx.

Definition _solve_quadratic (T slowness : ndarray float) (y x : Z) (dx : float)
    (ny nx : Z) : float :=
  let slow := fitem slowness y x in
  let '(t1, t2) := order_pair (t_horiz T y x nx) (t_vert T y x ny) in
  stencil_value t1 t2 slow dx.

End Stencil.

(** *** The marching loop

    The narrow band is kept in three parallel arrays of [ny*nx] slots, of
    which the first [hs] are in use; the model keeps the used prefix as a
    list of [(t, y, x)] entries (a slot beyond [hs] is always written
    before it is read).  [heap_y] and [heap_x] hold 32-bit integers. *)

Definition to_int32 (z : Z) : Z := (z + 2 ^ 31) mod 2 ^ 32 - 2 ^ 31.

Definition entry : Type := float * Z * Z.
Definition entry_t (e : entry) : float := e.1.1.
Definition entry_y (e : entry) : Z := e.1.2.
Definition entry_x (e : entry) : Z := e.2.

(** Lines 40-42: linear scan for the first index holding the least time. *)
Fixpoint scan_min (l : list entry) (i mi : nat) (mt : float) : nat * float :=
  match l with
  | [] => (mi, mt)
  | e :: l' =>
      if (entry_t e <? mt)%float then scan_min l' (S i) i (entry_t e)
      else scan_min l' (S i) mi mt
  end.

Definition argmin (heap : list entry) : nat :=
  match heap with
  | [] => 0%nat
  | e :: l => (scan_min l 1 0 (entry_t e)).1
  end.

(** Lines 44-46: drop slot [mi], moving the last used slot into it. *)
Definition remove_at (heap : list entry) (mi : nat) : list entry :=
  let hs := (length heap - 1)%nat in
  let front := take hs heap in
  match heap !! hs with
  | Some last => if (mi <? hs)%nat then <[mi := last]> front else front
  | None => front
  end.

(** The solver state inside the [while] loop.  [pops] and [froze] are
    instrumentation: the times popped so far and the cells frozen so far,
    oldest first. *)
Record fmm_state : Type := FmmState {
  st_T : ndarray float;
  st_frozen : ndarray bool;
  st_heap : list entry;
  st_pops : list float;
  st_froze : list (Z * Z)
}.

Definition directions : list (Z * Z) := [(-1, 0); (1, 0); (0, -1); (0, 1)].

Section Marching.

Variable slowness : ndarray float.
Variable dx : float.
Variables ny nx : Z.

(** Lines 50-57: the body of the [for d in range(4)] loop. *)
Definition update_neighbor (st : fmm_state) (ny2 nx2 : Z) : fmm_state :=
  if (0 <=? ny2) && (ny2 <? ny) && (0 <=? nx2) && (nx2 <? nx)
     && negb (bitem (st_frozen st) ny2 nx2)
  then
    let tn := _solve_quadratic (st_T st) slowness ny2 nx2 dx ny nx in
    if (tn <? fitem (st_T st) ny2 nx2)%float then
      let T' := setitem (st_T st) ny2 nx2 tn in
      if Z.of_nat (length (st_heap st)) <? ny * nx then
        FmmState T' (st_frozen st)
                 (st_heap st ++ [(tn, to_int32 ny2, to_int32 nx2)])
                 (st_pops st) (st_froze st)
      else
        FmmState T' (st_frozen st) (st_heap st) (st_pops st) (st_froze st)
    else st
  else st.

Definition update_neighbors (st : fmm_state) (y x : Z) : fmm_state :=
  fold_left (fun s d => update_neighbor s (y + d.1) (x + d.2)) directions st.

(** Lines 40-57: one iteration of the [while hs > 0] loop. *)
Definition fmm_iter (st : fmm_state) : fmm_state :=
  let mi := argmin (st_heap st) in
  match st_heap st !! mi with
  | None => st
  | Some e =>
      let y := entry_y e in
      let x := entry_x e in
      let heap' := remove_at (st_heap st) mi in
      let pops' := st_pops st ++ [entry_t e] in
      if bitem (st_frozen st) y x then
        FmmState (st_T st) (st_frozen st) heap' pops' (st_froze st)
      else
        update_neighbors
          (FmmState (st_T st) (setitem (st_frozen st) y x true) heap' pops'
                    (st_froze st ++ [(wrap_index y ny, wrap_index x nx)]))
          y x
  end.

(** The [while] loop, with fuel. *)
Fixpoint fmm_loop (fuel : nat) (st : fmm_state) : option fmm_state :=
  match st_heap st with
  | [] => Some st
  | _ :: _ =>
      match fuel with
      | O => None
      | S fuel' => fmm_loop fuel' (fmm_iter st)
      end
  end.

End Marching.

(** What a call of the model can produce: a value, or the model's fuel
    running out, or [IndexError] for the two writes that the model does not
    follow: the write of line 31 of the solver for a source outside
    [-n, n), and the write of line 27 of the tracer into arrays of length 0.
    The compiled code checks neither index; nothing below says what it
    does there. *)
Inductive outcome (A : Type) : Type :=
  | Done (a : A)
  | IndexError
  | OutOfFuel.
Arguments Done {A} _.
Arguments IndexError {A}.
Arguments OutOfFuel {A}.

(** Lines 28-36: the state on entry to the loop. *)
Definition fmm_init (slowness : ndarray float) (sy sx : Z) : fmm_state :=
  let ny := shape0 slowness in
  let nx := shape1 slowness in
  FmmState (setitem (full ny nx inf) sy sx 0%float)
           (full ny nx false)
           [(0%float, to_int32 sy, to_int32 sx)]
           [] [].

(** Lines 27-58 with the final state kept.  The run is followed for a
    source in [-n, n) on both axes, where the write [T[sy, sx] = 0.0] of
    line 31 is the write NumPy indexing gives. *)
Definition _fmm_run (fuel : nat) (slowness : ndarray float) (sy sx : Z)
    (dx : float) : outcome fmm_state :=
  let ny := shape0 slowness in
  let nx := shape1 slowness in
  if index_ok sy ny && index_ok sx nx then
    match fmm_loop slowness dx ny nx fuel (fmm_init slowness sy sx) with
    | Some st => Done st
    | None => OutOfFuel
    end
  else IndexError.

Definition _fmm_core (fuel : nat) (slowness : ndarray float) (sy sx : Z)
    (dx : float) : outcome (ndarray float) :=
  match _fmm_run fuel slowness sy sx dx with
  | Done st => Done (st_T st)
  | IndexError => IndexError
  | OutOfFuel => OutOfFuel
  end.

(** Line 61-63: [source] is given after its [int(...)] conversion, the
    field after [astype(float64)]. *)
Definition solve_eikonal (fuel : nat) (n_field : ndarray float) (source : Z * Z)
    (dx : float) : outcome (ndarray float) :=
  _fmm_core fuel n_field source.1 source.2 dx.

(** ** The ray tracer, [src/raytracer.py] *)

(** [float(n)] for a machine integer. *)
Definition Z2float (z : Z) : float :=
  if z <? 0 then (- of_uint63 (Uint63.of_Z (- z)))%float
  else of_uint63 (Uint63.of_Z z).

(** [int(f)]: truncation toward zero of a finite float (the conversion is
    only ever applied to finite values, see [_gradient]). *)
Definition float2Z (f : float) : Z :=
  match Prim2SF f with
  | S754_finite s m e =>
      let v := if 0 <=? e then Z.pos m * 2 ^ e else Z.pos m / 2 ^ (- e) in
      if s then - v else v
  | _ => 0
  end.

(** Python's two-argument [min] and [max]: the second argument wins only
    when it compares strictly below (above) the first. *)
Definition pymin (a b : float) : float := if (b <? a)%float then b else a.
Definition pymax (a b : float) : float := if (a <? b)%float then b else a.

Section Tracer.

Local Open Scope float_scope.

(** Lines 8-19: bilinear gradient estimate at a continuous position.  The
    four reads of lines 15-16 are unchecked, as the compiled code has them:
    on a field with a single row or column, where [iy0 + 1] or [ix0 + 1] is
    not an index of the field, the read is made at its flat offset and the
    function returns all the same. *)
Definition _gradient (T : ndarray float) (y x : float) : outcome (float * float) :=
  let ny := shape0 T in
  let nx := shape1 T in
  let y := pymax 0.5 (pymin (Z2float ny - 1.5) y) in
  let x := pymax 0.5 (pymin (Z2float nx - 1.5) x) in
  let iy := float2Z y in
  let ix := float2Z x in
  let fy := y - Z2float iy in
  let fx := x - Z2float ix in
  let iy0 := Z.max 0 (Z.min (ny - 2) iy) in
  let ix0 := Z.max 0 (Z.min (nx - 2) ix) in
  let t00 := fitem T iy0 ix0 in
  let t01 := fitem T iy0 (ix0 + 1) in
  let t10 := fitem T (iy0 + 1) ix0 in
  let t11 := fitem T (iy0 + 1) (ix0 + 1) in
  let gx := (1 - fy) * (t01 - t00) + fy * (t11 - t10) in
  let gy := (1 - fx) * (t10 - t00) + fx * (t11 - t01) in
  Done (gy, gx).
Arguments _gradient : simpl never.

(** Why the integration loop stopped (instrumentation). *)
Inductive stop_cause : Type :=
  | FlatGradient      (* line 32: gn < 1e-10 *)
  | LeftGrid          (* line 35: the new position is outside the grid *)
  | NearSource        (* line 38: within 2*step of the source *)
  | Exhausted.        (* the [for] range is used up *)

Definition outside (ny nx : Z) (y x : float) : bool :=
  (y <? 0) || (Z2float ny <=? y) || (x <? 0) || (Z2float nx <=? x).

Definition dist (y x sy sx : float) : float :=
  sqrt ((y - sy) * (y - sy) + (x - sx) * (x - sx)).

(** Lines 29-38: [k] remaining iterations of the [for] loop from position
    [(y, x)]; the result lists the points appended to [py], [px], in
    order. *)
Fixpoint trace_steps (k : nat) (T : ndarray float) (sy sx step y x : float)
    : outcome (list (float * float) * stop_cause) :=
  match k with
  | O => Done ([], Exhausted)
  | S k' =>
      match _gradient T y x with
      | Done (gy, gx) =>
          let gn := sqrt (gy * gy + gx * gx) in
          if gn <? 1e-10 then Done ([], FlatGradient)
          else
            let y' := y - step * gy / gn in
            let x' := x - step * gx / gn in
            if outside (shape0 T) (shape1 T) y' x' then Done ([], LeftGrid)
            else if dist y' x' sy sx <? step * 2 then Done ([(y', x')], NearSource)
            else
              match trace_steps k' T sy sx step y' x' with
              | Done (rest, c) => Done ((y', x') :: rest, c)
              | IndexError => IndexError
              | OutOfFuel => OutOfFuel
              end
      | IndexError => IndexError
      | OutOfFuel => OutOfFuel
      end
  end.

(** Lines 22-39.  [py[0], px[0] = y, x] is a write inside [py] and [px]
    when [maxs >= 1] ([trace_ray] passes 30000). *)
Definition _trace_run (T : ndarray float) (ty tx sy sx step : float) (maxs : Z)
    : outcome (list (float * float) * stop_cause) :=
  if (1 <=? maxs)%Z then
    match trace_steps (Z.to_nat (maxs - 1)) T sy sx step ty tx with
    | Done (rest, c) => Done ((ty, tx) :: rest, c)
    | IndexError => IndexError
    | OutOfFuel => OutOfFuel
    end
  else IndexError.

Definition _trace_core (T : ndarray float) (ty tx sy sx step : float) (maxs : Z)
    : outcome (list (float * float)) :=
  match _trace_run T ty tx sy sx step maxs with
  | Done (path, _) => Done path
  | IndexError => IndexError
  | OutOfFuel => OutOfFuel
  end.

(** Lines 42-45; the path is the list of [(py[i], px[i])] rows. *)
Definition trace_ray (T : ndarray float) (target source : float * float)
    (step : float) : outcome (list (float * float)) :=
  _trace_core T target.1 target.2 source.1 source.2 step 30000.

End Tracer.

(** * Properties of the ray tracer *)

Section TracerFacts.

Local Open Scope float_scope.

Lemma clamp_index_ok (n i : Z) :
  (2 <= n)%Z ->
  index_ok (Z.max 0 (Z.min (n - 2) i)) n = true /\
  index_ok (Z.max 0 (Z.min (n - 2) i) + 1) n = true.
Proof.
  intros Hn. unfold index_ok.
  rewrite !andb_true_iff, !Z.leb_le, !Z.ltb_lt. lia.
Qed.

(** [_gradient] returns on every field and at every position. *)
Lemma gradient_returns (T : ndarray float) (y x : float) :
  exists gy gx, _gradient T y x = Done (gy, gx).
Proof. unfold _gradient. cbv zeta. eauto. Qed.

Lemma gradient_done (T : ndarray float) (y x : float) :
  (2 <= shape0 T)%Z -> (2 <= shape1 T)%Z ->
  exists gy gx, _gradient T y x = Done (gy, gx).
Proof. intros _ _. apply gradient_returns. Qed.

(** The position reached from [(y, x)] by one step against the gradient
    [(gy, gx)] (lines 33-34). *)
Definition step_from (step y x gy gx : float) : float * float :=
  let gn := sqrt (gy * gy + gx * gx) in
  (y - step * gy / gn, x - step * gx / gn).

(** What each stop cause says about the last point of the path. *)
Definition stop_justified (T : ndarray float) (sy sx step : float)
    (budget : nat) (start : float * float) (rest : list (float * float))
    (c : stop_cause) : Prop :=
  let p := List.last rest start in
  match c with
  | FlatGradient =>
      exists gy gx, _gradient T p.1 p.2 = Done (gy, gx) /\
        (sqrt (gy * gy + gx * gx) <? 1e-10) = true
  | LeftGrid =>
      exists gy gx, _gradient T p.1 p.2 = Done (gy, gx) /\
        (sqrt (gy * gy + gx * gx) <? 1e-10) = false /\
        let q := step_from step p.1 p.2 gy gx in
        outside (shape0 T) (shape1 T) q.1 q.2 = true
  | NearSource =>
      rest <> [] /\ (dist p.1 p.2 sy sx <? step * 2) = true
  | Exhausted => length rest = budget
  end.

Lemma last_cons_default {A} (rest : list A) :
  forall (q d : A), List.last (q :: rest) d = List.last rest q.
Proof.
  induction rest as [|r rest IH]; intros q d; [reflexivity|].
  change (List.last (r :: rest) d = List.last (r :: rest) q).
  rewrite (IH r d), (IH r q). reflexivity.
Qed.

(** Whatever the field, a run of the loop that returns has appended at
    most [k] points, each of which failed the exit test of line 35, and
    stopped for the recorded cause. *)
Lemma trace_steps_sound (T : ndarray float) (sy sx step : float) :
  forall (k : nat) (y x : float) rest c,
    trace_steps k T sy sx step y x = Done (rest, c) ->
    (length rest <= k)%nat /\
    Forall (fun p => outside (shape0 T) (shape1 T) p.1 p.2 = false) rest /\
    stop_justified T sy sx step k (y, x) rest c.
Proof.
  induction k as [|k IH]; intros y x rest c Hrun; cbn [trace_steps] in Hrun.
  - inversion Hrun; subst. simpl. auto.
  - destruct (_gradient T y x) as [[gy gx]| |] eqn:Hg; try discriminate.
    destruct (sqrt (gy * gy + gx * gx) <? 1e-10) eqn:Hflat.
    { inversion Hrun; subst.
      split; [simpl; lia|]. split; [constructor|].
      simpl. exists gy, gx. auto. }
    set (y' := y - step * gy / sqrt (gy * gy + gx * gx)) in *.
    set (x' := x - step * gx / sqrt (gy * gy + gx * gx)) in *.
    destruct (outside (shape0 T) (shape1 T) y' x') eqn:Hout.
    { inversion Hrun; subst.
      split; [simpl; lia|]. split; [constructor|].
      simpl. exists gy, gx. auto. }
    destruct (dist y' x' sy sx <? step * 2) eqn:Hnear.
    { inversion Hrun; subst.
      split; [simpl; lia|].
      split; [constructor; [exact Hout|constructor]|].
      simpl. split; [discriminate|exact Hnear]. }
    destruct (trace_steps k T sy sx step y' x') as [[rest' c']| |] eqn:Hrec;
      try discriminate.
    inversion Hrun; subst. clear Hrun.
    destruct (IH y' x' rest' c Hrec) as (Hlen & Hin & Hc).
    split; [simpl; lia|].
    split; [constructor; [exact Hout|exact Hin]|].
    unfold stop_justified in *. rewrite last_cons_default.
    destruct c; auto.
    + destruct Hc as [Hne Hd]. split; [discriminate|exact Hd].
    + simpl. lia.
Qed.

(** The loop returns for every field, start position, step and budget:
    the division of lines 33-34 is by [gn >= 1e-10] or by a NaN, and a
    float division raises nothing. *)
Lemma trace_steps_returns (T : ndarray float) (sy sx step : float) :
  forall (k : nat) (y x : float),
  exists rest c, trace_steps k T sy sx step y x = Done (rest, c).
Proof.
  induction k as [|k IH]; intros y x; cbn [trace_steps].
  - eauto.
  - destruct (gradient_returns T y x) as (gy & gx & ->).
    destruct (_ <? 1e-10); [eauto|].
    destruct (outside _ _ _ _); [eauto|].
    destruct (_ <? step * 2); [eauto|].
    match goal with
    | |- context [trace_steps k T sy sx step ?a ?b] =>
        destruct (IH a b) as (rest & c & ->)
    end.
    eauto.
Qed.

Lemma trace_steps_total (T : ndarray float) (sy sx step : float) :
  (2 <= shape0 T)%Z -> (2 <= shape1 T)%Z ->
  forall (k : nat) (y x : float),
  exists rest c, trace_steps k T sy sx step y x = Done (rest, c).
Proof. intros _ _. apply trace_steps_returns. Qed.

(** The first point of a returned path is the start position. *)
Lemma trace_core_head (T : ndarray float) (ty tx sy sx step : float) (maxs : Z)
    (path : list (float * float)) :
  _trace_core T ty tx sy sx step maxs = Done path ->
  exists rest, path = (ty, tx) :: rest.
Proof.
  unfold _trace_core, _trace_run. intros Hrun.
  destruct (1 <=? maxs)%Z; [|discriminate].
  destruct (trace_steps _ T sy sx step ty tx) as [[rest c]| |];
    try discriminate.
  inversion Hrun; subst. eauto.
Qed.

Lemma trace_core_total (T : ndarray float) (ty tx sy sx step : float) (maxs : Z) :
  (2 <= shape0 T)%Z -> (2 <= shape1 T)%Z -> (1 <= maxs)%Z ->
  exists rest, _trace_core T ty tx sy sx step maxs = Done ((ty, tx) :: rest).
Proof.
  intros Hy Hx Hmax. unfold _trace_core, _trace_run.
  apply Z.leb_le in Hmax. rewrite Hmax.
  destruct (trace_steps_total T sy sx step Hy Hx (Z.to_nat (maxs - 1)) ty tx)
    as (rest & c & ->).
  eauto.
Qed.

End TracerFacts.

(** ** The claims about the ray tracer *)

Section TracerClaims.

Local Open Scope float_scope.

(** A 3x3 arrival-time field used for the concrete instances. *)
Definition T33 : ndarray float :=
  of_rows [[0; 1; 2]; [1; 1.5; 2.5]; [2; 2.5; 3.25]].

(** A field that grows along the rows only. *)
Definition T32 : ndarray float := of_rows [[0; 0]; [1; 1]; [2; 2]].

(** A constant 2x2 field. *)
Definition U22 : ndarray float := of_rows [[1; 1]; [1; 1]].

(** C8, as stated, fails: the first point of the path is the target as
    given, so a target outside the grid is returned in the path. *)
Lemma trace_inside_grid_counterexample :
  ~ (forall (T : ndarray float) (ty tx sy sx step : float) (maxs : Z) path,
        _trace_core T ty tx sy sx step maxs = Done path ->
        (Z.of_nat (length path) <= maxs)%Z /\
        Forall (fun p => outside (shape0 T) (shape1 T) p.1 p.2 = false) path).
Proof.
  intros H.
  destruct (H U22 (-5) 7 0 0 0.5 30000%Z [(-5, 7)]) as [_ Hin].
  - vm_compute. reflexivity.
  - inversion Hin as [|p l Hp Hl]; subst. vm_compute in Hp. discriminate.
Qed.

(** C8 (amended): a returned path has at most [maxs] points ([trace_ray]
    passes 30000); its first point is the target, and every later point
    failed the exit test [y < 0 or y >= ny or x < 0 or x >= nx], that is,
    lies inside the grid unless one of its coordinates is NaN. *)
Theorem trace_path_bounded (T : ndarray float) (ty tx sy sx step : float)
    (maxs : Z) (path : list (float * float)) :
  _trace_core T ty tx sy sx step maxs = Done path ->
  (Z.of_nat (length path) <= maxs)%Z /\
  exists rest, path = (ty, tx) :: rest /\
    Forall (fun p => outside (shape0 T) (shape1 T) p.1 p.2 = false) rest.
Proof.
  unfold _trace_core, _trace_run. intros Hrun.
  destruct (1 <=? maxs)%Z eqn:Hmax; [|discriminate].
  apply Z.leb_le in Hmax.
  destruct (trace_steps _ T sy sx step ty tx) as [[rest c]| |] eqn:Hsteps;
    try discriminate.
  inversion Hrun; subst. clear Hrun.
  destruct (trace_steps_sound _ _ _ _ _ _ _ _ _ Hsteps) as (Hlen & Hin & _).
  split; [simpl; lia|]. eauto.
Qed.

Lemma trace_path_bounded_witness :
  let path := [(2, 0.5); (1.5, 0.5)] in
  (Z.of_nat (length path) <= 2)%Z /\
  exists rest, path = (2, 0.5) :: rest /\
    Forall (fun p => outside (shape0 T32) (shape1 T32) p.1 p.2 = false) rest.
Proof.
  apply (trace_path_bounded T32 2 0.5 0 0 0.5 2%Z). vm_compute. reflexivity.
Defined.



(** C10: every path returned by [trace_ray] is non-empty and starts with
    the target exactly as given (no clamping, no bounds test), and a path
    is returned for every field with at least two rows and two columns. *)
Theorem trace_ray_starts_at_target (T : ndarray float) (ty tx : float)
    (source : float * float) (step : float) :
  (forall path, trace_ray T (ty, tx) source step = Done path ->
                exists rest, path = (ty, tx) :: rest) /\
  ((2 <= shape0 T)%Z -> (2 <= shape1 T)%Z ->
   exists rest, trace_ray T (ty, tx) source step = Done ((ty, tx) :: rest)).
Proof.
  split.
  - intros path. apply trace_core_head.
  - intros Hy Hx. apply trace_core_total; [exact Hy|exact Hx|].
    now apply Z.leb_le.
Qed.

Lemma trace_ray_starts_at_target_witness :
  exists rest, trace_ray U22 (-5, 7) (0, 0) 0.5 = Done ((-5, 7) :: rest).
Proof.
  refine (proj2 (trace_ray_starts_at_target U22 (-5) 7 (0, 0) 0.5) _ _);
    apply Z.leb_le; reflexivity.
Defined.

End TracerClaims.

(** * Properties of the solver *)

(** ** Arrays *)

Section ArrayFacts.

Context {A : Type}.
Implicit Types (a : ndarray A) (d v : A).

Lemma item_setitem_other d a y x v y' x' :
  flat a y' x' <> flat a y x ->
  item d (setitem a y x v) y' x' = item d a y' x'.
Proof.
  intros Hne. unfold item.
  change (data (setitem a y x v)) with (<[flat a y x := v]> (data a)).
  change (flat (setitem a y x v) y' x') with (flat a y' x').
  rewrite list_lookup_insert_ne; [reflexivity|congruence].
Qed.

Lemma item_setitem_same d a y x v y' x' :
  flat a y' x' = flat a y x ->
  (flat a y x < length (data a))%nat ->
  item d (setitem a y x v) y' x' = v.
Proof.
  intros He Hlt. unfold item.
  change (data (setitem a y x v)) with (<[flat a y x := v]> (data a)).
  change (flat (setitem a y x v) y' x') with (flat a y' x').
  rewrite He, list_lookup_insert_eq by exact Hlt. reflexivity.
Qed.

Lemma item_flat_eq d a y x y' x' :
  flat a y' x' = flat a y x -> item d a y' x' = item d a y x.
Proof. unfold item. intros ->. reflexivity. Qed.

Lemma setitem_out_of_range a y x v :
  (length (data a) <= flat a y x)%nat -> setitem a y x v = a.
Proof.
  intros Hge. unfold setitem. rewrite list_insert_ge by exact Hge.
  destruct a; reflexivity.
Qed.

Lemma flat_same_shape {B} a (b : ndarray B) y x :
  shape0 a = shape0 b -> shape1 a = shape1 b -> flat a y x = flat b y x.
Proof. unfold flat. intros -> ->. reflexivity. Qed.

Lemma wrap_index_range (i n : Z) :
  index_ok i n = true -> 0 <= wrap_index i n < n.
Proof.
  unfold index_ok, wrap_index. rewrite andb_true_iff, Z.leb_le, Z.ltb_lt.
  intros [Hlo Hhi]. destruct (i <? 0) eqn:Hneg.
  - apply Z.ltb_lt in Hneg. lia.
  - apply Z.ltb_ge in Hneg. lia.
Qed.

Lemma wrap_index_nonneg (i n : Z) : 0 <= i -> wrap_index i n = i.
Proof.
  intros Hi. unfold wrap_index.
  destruct (i <? 0) eqn:Hneg; [apply Z.ltb_lt in Hneg; lia|reflexivity].
Qed.

Lemma flat_in_range a y x :
  length (data a) = Z.to_nat (shape0 a * shape1 a) ->
  index_ok y (shape0 a) = true -> index_ok x (shape1 a) = true ->
  (flat a y x < length (data a))%nat.
Proof.
  intros Hlen Hy Hx. apply wrap_index_range in Hy, Hx.
  rewrite Hlen. unfold flat.
  apply Z2Nat.inj_lt; nia.
Qed.

(** A wrapped index denotes the same cell as the index it came from. *)
Lemma flat_wrap a y x :
  index_ok y (shape0 a) = true -> index_ok x (shape1 a) = true ->
  flat a (wrap_index y (shape0 a)) (wrap_index x (shape1 a)) = flat a y x.
Proof.
  intros Hy Hx. apply wrap_index_range in Hy, Hx. unfold flat.
  rewrite (wrap_index_nonneg (wrap_index y _)), (wrap_index_nonneg (wrap_index x _)) by lia.
  reflexivity.
Qed.

End ArrayFacts.

Lemma to_int32_id (z : Z) : - 2 ^ 31 <= z < 2 ^ 31 -> to_int32 z = z.
Proof. intros Hz. unfold to_int32. rewrite Z.mod_small by lia. lia. Qed.

Lemma index_ok_in_grid (i n : Z) : 0 <= i < n -> index_ok i n = true.
Proof.
  intros Hi. unfold index_ok. rewrite andb_true_iff, Z.leb_le, Z.ltb_lt. lia.
Qed.

(** ** One neighbour update *)

Section SolverFacts.

Variable slowness : ndarray float.
Variable dx : float.
Variables ny nx : Z.

Definition in_grid (y x : Z) : Prop := 0 <= y < ny /\ 0 <= x < nx.

(** The stencil value for cell [(a, b)] in state [st] (line 52). *)
Definition candidate (st : fmm_state) (a b : Z) : float :=
  _solve_quadratic (st_T st) slowness a b dx ny nx.

(** Lines 55-57: the band after a candidate was stored. *)
Definition push (heap : list entry) (tn : float) (a b : Z) : list entry :=
  if Z.of_nat (length heap) <? ny * nx
  then heap ++ [(tn, to_int32 a, to_int32 b)]
  else heap.

Lemma update_neighbor_cases (st : fmm_state) (a b : Z) :
  update_neighbor slowness dx ny nx st a b = st \/
  (in_grid a b /\ bitem (st_frozen st) a b = false /\
   (candidate st a b <? fitem (st_T st) a b)%float = true /\
   update_neighbor slowness dx ny nx st a b =
     FmmState (setitem (st_T st) a b (candidate st a b)) (st_frozen st)
              (push (st_heap st) (candidate st a b) a b)
              (st_pops st) (st_froze st)).
Proof.
  unfold update_neighbor, candidate, push. cbv zeta.
  destruct ((0 <=? a) && (a <? ny) && (0 <=? b) && (b <? nx)
            && negb (bitem (st_frozen st) a b)) eqn:Hc; [|left; reflexivity].
  rewrite !andb_true_iff, !Z.leb_le, !Z.ltb_lt, negb_true_iff in Hc.
  destruct Hc as [[[[Ha1 Ha2] Hb1] Hb2] Hfr].
  destruct (_solve_quadratic (st_T st) slowness a b dx ny nx
            <? fitem (st_T st) a b)%float eqn:Hlt; [|left; reflexivity].
  right. split; [split; lia|]. split; [exact Hfr|]. split; [reflexivity|].
  destruct (Z.of_nat (length (st_heap st)) <? ny * nx); reflexivity.
Qed.

Lemma update_neighbor_frozen st a b :
  st_frozen (update_neighbor slowness dx ny nx st a b) = st_frozen st.
Proof.
  destruct (update_neighbor_cases st a b) as [->|(_ & _ & _ & ->)]; reflexivity.
Qed.

Lemma update_neighbor_pops st a b :
  st_pops (update_neighbor slowness dx ny nx st a b) = st_pops st.
Proof.
  destruct (update_neighbor_cases st a b) as [->|(_ & _ & _ & ->)]; reflexivity.
Qed.

Lemma update_neighbor_froze st a b :
  st_froze (update_neighbor slowness dx ny nx st a b) = st_froze st.
Proof.
  destruct (update_neighbor_cases st a b) as [->|(_ & _ & _ & ->)]; reflexivity.
Qed.

(** An assignment never raises a stored time. *)
Lemma update_neighbor_T_decreases st a b y x :
  fitem (st_T (update_neighbor slowness dx ny nx st a b)) y x = fitem (st_T st) y x \/
  (fitem (st_T (update_neighbor slowness dx ny nx st a b)) y x
     <? fitem (st_T st) y x)%float = true.
Proof.
  destruct (update_neighbor_cases st a b) as [->|(Hg & Hf & Hlt & ->)];
    [left; reflexivity|].
  cbn [st_T].
  destruct (decide (flat (st_T st) y x = flat (st_T st) a b)) as [He|Hne].
  - destruct (decide (flat (st_T st) a b < length (data (st_T st)))%nat) as [Hin|Hout].
    + right. unfold fitem in *.
      rewrite (item_setitem_same _ _ _ _ _ _ _ He Hin).
      rewrite (item_flat_eq _ _ _ _ _ _ He). exact Hlt.
    + left. rewrite setitem_out_of_range by lia. reflexivity.
  - left. unfold fitem. apply item_setitem_other. exact Hne.
Qed.

(** The time of a frozen cell is not touched. *)
Lemma update_neighbor_T_frozen st a b y x :
  shape0 (st_T st) = shape0 (st_frozen st) ->
  shape1 (st_T st) = shape1 (st_frozen st) ->
  bitem (st_frozen st) y x = true ->
  fitem (st_T (update_neighbor slowness dx ny nx st a b)) y x = fitem (st_T st) y x.
Proof.
  intros H0 H1 Hfr.
  destruct (update_neighbor_cases st a b) as [->|(Hg & Hf & Hlt & ->)];
    [reflexivity|].
  cbn [st_T]. unfold fitem. apply item_setitem_other. intros He.
  rewrite !(flat_same_shape (st_T st) (st_frozen st) _ _ H0 H1) in He.
  unfold bitem in *. rewrite (item_flat_eq _ _ _ _ _ _ He) in Hfr. congruence.
Qed.

Lemma push_cases heap tn a b :
  push heap tn a b = heap \/
  (Z.of_nat (length heap) < ny * nx /\
   push heap tn a b = heap ++ [(tn, to_int32 a, to_int32 b)]).
Proof.
  unfold push. destruct (Z.of_nat (length heap) <? ny * nx) eqn:Hc.
  - right. apply Z.ltb_lt in Hc. auto.
  - left. reflexivity.
Qed.

Lemma update_neighbor_heap_length st a b :
  (length (st_heap st) <= length (st_heap (update_neighbor slowness dx ny nx st a b))
   <= length (st_heap st) + 1)%nat.
Proof.
  destruct (update_neighbor_cases st a b) as [->|(_ & _ & _ & ->)]; [lia|].
  cbn [st_heap].
  destruct (push_cases (st_heap st) (candidate st a b) a b) as [->|[_ ->]];
    [lia|]. rewrite length_app. simpl. lia.
Qed.

(** ** The loop invariant *)

Hypothesis Hny : 0 < ny < 2 ^ 31.
Hypothesis Hnx : 0 < nx < 2 ^ 31.

Definition entry_ok (e : entry) : Prop :=
  index_ok (entry_y e) ny = true /\ index_ok (entry_x e) nx = true.

Record fmm_inv (st : fmm_state) : Prop := FmmInv {
  inv_T0 : shape0 (st_T st) = ny;
  inv_T1 : shape1 (st_T st) = nx;
  inv_Tlen : length (data (st_T st)) = Z.to_nat (ny * nx);
  inv_F0 : shape0 (st_frozen st) = ny;
  inv_F1 : shape1 (st_frozen st) = nx;
  inv_Flen : length (data (st_frozen st)) = Z.to_nat (ny * nx);
  inv_heap : Forall entry_ok (st_heap st);
  inv_froze : Forall (fun p => bitem (st_frozen st) p.1 p.2 = true) (st_froze st);
  inv_nodup : NoDup (st_froze st)
}.

Lemma in_grid_entry_ok tn a b :
  in_grid a b -> entry_ok (tn, to_int32 a, to_int32 b).
Proof.
  intros [Ha Hb]. unfold entry_ok, entry_y, entry_x. cbn [fst snd].
  rewrite !to_int32_id by lia. split; apply index_ok_in_grid; lia.
Qed.

Lemma update_neighbor_inv st a b :
  fmm_inv st -> fmm_inv (update_neighbor slowness dx ny nx st a b).
Proof.
  intros Hinv.
  destruct (update_neighbor_cases st a b) as [->|(Hg & Hf & Hlt & ->)];
    [exact Hinv|].
  destruct Hinv as [T0 T1 Tl F0 F1 Fl Hh Hfz Hnd].
  constructor; cbn [st_T st_frozen st_heap st_froze]; auto.
  - cbn [setitem data]. rewrite length_insert. exact Tl.
  - destruct (push_cases (st_heap st) (candidate st a b) a b) as [->|[_ ->]];
      [exact Hh|].
    apply Forall_app. split; [exact Hh|].
    constructor; [|constructor]. apply in_grid_entry_ok. exact Hg.
Qed.

Lemma update_neighbors_fold (P : fmm_state -> Prop) :
  (forall s a b, P s -> P (update_neighbor slowness dx ny nx s a b)) ->
  forall st y x, P st -> P (update_neighbors slowness dx ny nx st y x).
Proof.
  intros Hstep st y x. unfold update_neighbors.
  generalize directions. intros ds. revert st.
  induction ds as [|d ds IH]; intros st Hst; simpl; [exact Hst|].
  apply IH. apply Hstep. exact Hst.
Qed.

Lemma update_neighbors_inv st y x :
  fmm_inv st -> fmm_inv (update_neighbors slowness dx ny nx st y x).
Proof. apply update_neighbors_fold. intros s a b. apply update_neighbor_inv. Qed.

Lemma update_neighbors_frozen st y x :
  st_frozen (update_neighbors slowness dx ny nx st y x) = st_frozen st.
Proof.
  apply (update_neighbors_fold (fun s => st_frozen s = st_frozen st));
    [|reflexivity].
  intros s a b Hs. rewrite update_neighbor_frozen. exact Hs.
Qed.

Lemma update_neighbors_pops st y x :
  st_pops (update_neighbors slowness dx ny nx st y x) = st_pops st.
Proof.
  apply (update_neighbors_fold (fun s => st_pops s = st_pops st));
    [|reflexivity].
  intros s a b Hs. rewrite update_neighbor_pops. exact Hs.
Qed.

Lemma update_neighbors_froze st y x :
  st_froze (update_neighbors slowness dx ny nx st y x) = st_froze st.
Proof.
  apply (update_neighbors_fold (fun s => st_froze s = st_froze st));
    [|reflexivity].
  intros s a b Hs. rewrite update_neighbor_froze. exact Hs.
Qed.

Lemma update_neighbors_heap_length st y x :
  (length (st_heap (update_neighbors slowness dx ny nx st y x))
   <= length (st_heap st) + 4)%nat.
Proof.
  unfold update_neighbors, directions. simpl.
  repeat match goal with
  | |- context [update_neighbor slowness dx ny nx ?s ?a ?b] =>
      lazymatch goal with
      | _ : (_ <= length (st_heap (update_neighbor slowness dx ny nx s a b)) <= _)%nat |- _ => fail
      | _ => pose proof (update_neighbor_heap_length s a b)
      end
  end.
  lia.
Qed.

(** A frozen cell keeps its time through the whole neighbour loop. *)
Lemma update_neighbors_T_frozen st y x a b :
  fmm_inv st ->
  bitem (st_frozen st) a b = true ->
  fitem (st_T (update_neighbors slowness dx ny nx st y x)) a b = fitem (st_T st) a b.
Proof.
  intros Hinv Hfr.
  apply (update_neighbors_fold
           (fun s => fmm_inv s /\ st_frozen s = st_frozen st /\
                     fitem (st_T s) a b = fitem (st_T st) a b)); [|auto].
  intros s c d (Hs & Hf & Ht). split; [apply update_neighbor_inv; exact Hs|].
  split; [rewrite update_neighbor_frozen; exact Hf|].
  rewrite <- Ht. apply update_neighbor_T_frozen.
  - rewrite (inv_T0 _ Hs), (inv_F0 _ Hs). reflexivity.
  - rewrite (inv_T1 _ Hs), (inv_F1 _ Hs). reflexivity.
  - rewrite Hf. exact Hfr.
Qed.

(** ** Popping the least entry *)

Lemma scan_min_bound (l : list entry) :
  forall (i mi : nat) (mt : float),
    (mi < i)%nat -> ((scan_min l i mi mt).1 < i + length l)%nat.
Proof.
  induction l as [|e l IH]; intros i mi mt Hmi; simpl; [lia|].
  destruct (entry_t e <? mt)%float.
  - specialize (IH (S i) i (entry_t e)). lia.
  - specialize (IH (S i) mi mt). lia.
Qed.

Lemma argmin_lt (heap : list entry) :
  heap <> [] -> (argmin heap < length heap)%nat.
Proof.
  destruct heap as [|e l]; [congruence|]. intros _. simpl.
  pose proof (scan_min_bound l 1 0 (entry_t e)). lia.
Qed.

Lemma argmin_lookup (heap : list entry) :
  heap <> [] -> exists e, heap !! argmin heap = Some e.
Proof.
  intros Hne. apply lookup_lt_is_Some_2. apply argmin_lt. exact Hne.
Qed.

Lemma remove_at_length (heap : list entry) (mi : nat) :
  length (remove_at heap mi) = (length heap - 1)%nat.
Proof.
  unfold remove_at.
  destruct (heap !! (length heap - 1)%nat) as [last|];
    [destruct (mi <? length heap - 1)%nat|];
    rewrite ?length_insert, length_take; lia.
Qed.

Lemma remove_at_Forall (P : entry -> Prop) (heap : list entry) (mi : nat) :
  Forall P heap -> Forall P (remove_at heap mi).
Proof.
  intros Hall. unfold remove_at.
  destruct (heap !! (length heap - 1)%nat) as [last|] eqn:Hlast.
  - destruct (mi <? length heap - 1)%nat.
    + apply Forall_insert; [apply Forall_take; exact Hall|].
      exact (Forall_lookup_1 _ _ _ _ Hall Hlast).
    + apply Forall_take. exact Hall.
  - apply Forall_take. exact Hall.
Qed.

(** ** One iteration *)

(** The state after lines 40-46 when the popped entry is [e]. *)
Definition popped (st : fmm_state) (e : entry) : fmm_state :=
  FmmState (st_T st) (st_frozen st)
           (remove_at (st_heap st) (argmin (st_heap st)))
           (st_pops st ++ [entry_t e]) (st_froze st).

(** The state after line 48: the popped cell is marked frozen. *)
Definition froze_cell (st : fmm_state) (e : entry) : fmm_state :=
  FmmState (st_T st) (setitem (st_frozen st) (entry_y e) (entry_x e) true)
           (remove_at (st_heap st) (argmin (st_heap st)))
           (st_pops st ++ [entry_t e])
           (st_froze st ++ [(wrap_index (entry_y e) ny, wrap_index (entry_x e) nx)]).

Lemma fmm_iter_cases (st : fmm_state) :
  (st_heap st = [] /\ fmm_iter slowness dx ny nx st = st) \/
  (exists e, st_heap st !! argmin (st_heap st) = Some e /\
     ((bitem (st_frozen st) (entry_y e) (entry_x e) = true /\
       fmm_iter slowness dx ny nx st = popped st e) \/
      (bitem (st_frozen st) (entry_y e) (entry_x e) = false /\
       fmm_iter slowness dx ny nx st =
         update_neighbors slowness dx ny nx (froze_cell st e)
                          (entry_y e) (entry_x e)))).
Proof.
  unfold fmm_iter. cbv zeta.
  destruct (st_heap st) as [|e0 l] eqn:Hheap.
  - left. split; reflexivity.
  - right. destruct (argmin_lookup (e0 :: l)) as [e He]; [discriminate|].
    exists e. split; [exact He|]. rewrite He.
    unfold popped, froze_cell. rewrite Hheap.
    destruct (bitem (st_frozen st) (entry_y e) (entry_x e)); [left|right]; auto.
Qed.

Lemma popped_inv st e :
  fmm_inv st -> fmm_inv (popped st e).
Proof.
  intros [T0 T1 Tl F0 F1 Fl Hh Hfz Hnd].
  constructor; cbn [popped st_T st_frozen st_heap st_froze]; auto.
  apply remove_at_Forall. exact Hh.
Qed.

Lemma froze_cell_marks st e :
  fmm_inv st -> entry_ok e ->
  bitem (st_frozen (froze_cell st e)) (entry_y e) (entry_x e) = true.
Proof.
  intros Hinv [Hy Hx]. cbn [froze_cell st_frozen]. unfold bitem.
  apply item_setitem_same; [reflexivity|].
  apply flat_in_range.
  - rewrite (inv_Flen _ Hinv), (inv_F0 _ Hinv), (inv_F1 _ Hinv). reflexivity.
  - rewrite (inv_F0 _ Hinv). exact Hy.
  - rewrite (inv_F1 _ Hinv). exact Hx.
Qed.

Lemma froze_cell_keeps st e y x :
  bitem (st_frozen st) y x = true ->
  bitem (st_frozen (froze_cell st e)) y x = true.
Proof.
  intros Hfr. cbn [froze_cell st_frozen]. unfold bitem in *.
  destruct (decide (flat (st_frozen st) y x
                    = flat (st_frozen st) (entry_y e) (entry_x e))) as [He|Hne].
  - destruct (decide (flat (st_frozen st) (entry_y e) (entry_x e)
                      < length (data (st_frozen st)))%nat) as [Hin|Hout].
    + apply item_setitem_same; assumption.
    + rewrite setitem_out_of_range by lia. exact Hfr.
  - rewrite item_setitem_other by exact Hne. exact Hfr.
Qed.

Lemma frozen_wrap st y x :
  fmm_inv st -> index_ok y ny = true -> index_ok x nx = true ->
  bitem (st_frozen st) (wrap_index y ny) (wrap_index x nx)
  = bitem (st_frozen st) y x.
Proof.
  intros Hinv Hy Hx. unfold bitem. apply item_flat_eq.
  pose proof (flat_wrap (st_frozen st) y x) as Hw.
  rewrite (inv_F0 _ Hinv), (inv_F1 _ Hinv) in Hw. apply Hw; assumption.
Qed.

Lemma froze_cell_inv st e :
  fmm_inv st -> entry_ok e ->
  bitem (st_frozen st) (entry_y e) (entry_x e) = false ->
  fmm_inv (froze_cell st e).
Proof.
  intros Hinv Hok Hfresh.
  pose proof (froze_cell_marks st e Hinv Hok) as Hmark.
  assert (Hinv' : fmm_inv (FmmState (st_T st) (st_frozen (froze_cell st e))
                                    (st_heap (froze_cell st e))
                                    (st_pops st) (st_froze st))).
  { destruct Hinv as [T0 T1 Tl F0 F1 Fl Hh Hfz Hnd].
    constructor; cbn [froze_cell st_T st_frozen st_heap st_froze]; auto.
    - cbn [setitem data]. rewrite length_insert. exact Fl.
    - apply remove_at_Forall. exact Hh.
    - eapply Forall_impl; [exact Hfz|].
      intros p Hp. apply (froze_cell_keeps st e). exact Hp. }
  destruct Hok as [Hy Hx].
  pose proof (frozen_wrap _ _ _ Hinv' Hy Hx) as Hw'.
  pose proof (frozen_wrap _ _ _ Hinv Hy Hx) as Hw.
  cbn [st_frozen] in Hw'.
  destruct Hinv' as [T0 T1 Tl F0 F1 Fl Hh Hfz Hnd].
  constructor; cbn [froze_cell st_T st_frozen st_heap st_froze] in *; auto.
  - apply Forall_app. split; [exact Hfz|]. constructor; [|constructor].
    cbn [fst snd]. rewrite Hw'. exact Hmark.
  - apply NoDup_app. split; [exact Hnd|]. split; [|apply NoDup_singleton].
    intros p Hp Hin. apply list_elem_of_singleton in Hin. subst p.
    pose proof (proj1 (Forall_forall _ _) (inv_froze _ Hinv) _ Hp) as Hold.
    cbn [fst snd] in Hold. congruence.
Qed.

Lemma fmm_iter_inv st :
  fmm_inv st -> fmm_inv (fmm_iter slowness dx ny nx st).
Proof.
  intros Hinv.
  destruct (fmm_iter_cases st) as [[_ ->]|(e & He & [[_ ->]|[Hfresh ->]])].
  - exact Hinv.
  - apply popped_inv. exact Hinv.
  - apply update_neighbors_inv. apply froze_cell_inv; [exact Hinv| |exact Hfresh].
    exact (Forall_lookup_1 _ _ _ _ (inv_heap _ Hinv) He).
Qed.

(** ** Termination of the loop *)

Fixpoint count_false (l : list bool) : nat :=
  match l with
  | [] => 0
  | b :: l' => ((if b then 0 else 1) + count_false l')%nat
  end.

Lemma count_false_insert (l : list bool) :
  forall i : nat, l !! i = Some false ->
    (count_false (<[i := true]> l) + 1 = count_false l)%nat.
Proof.
  induction l as [|b l IH]; intros [|i] Hi; simpl in *; try discriminate.
  - inversion Hi; subst. lia.
  - specialize (IH i Hi). lia.
Qed.

(** Four band slots per cell still to freeze, plus the band itself. *)
Definition measure (st : fmm_state) : nat :=
  (4 * count_false (data (st_frozen st)) + length (st_heap st))%nat.

Lemma bitem_false_lookup (a : ndarray bool) y x :
  (flat a y x < length (data a))%nat ->
  bitem a y x = false -> data a !! flat a y x = Some false.
Proof.
  intros Hin Hb. unfold bitem, item in Hb.
  destruct (lookup_lt_is_Some_2 _ _ Hin) as [b Hl].
  rewrite Hl in *. simpl in Hb. congruence.
Qed.

Lemma fmm_iter_measure st :
  fmm_inv st -> st_heap st <> [] ->
  (measure (fmm_iter slowness dx ny nx st) < measure st)%nat.
Proof.
  intros Hinv Hne.
  pose proof (argmin_lt _ Hne) as Hlt.
  destruct (fmm_iter_cases st) as [[Hnil _]|(e & He & [[_ ->]|[Hfresh ->]])].
  - congruence.
  - unfold measure. cbn [popped st_frozen st_heap].
    rewrite remove_at_length. lia.
  - unfold measure.
    pose proof (update_neighbors_heap_length (froze_cell st e) (entry_y e) (entry_x e)) as Hh.
    rewrite update_neighbors_frozen.
    cbn [froze_cell st_frozen st_heap] in *.
    rewrite remove_at_length in Hh.
    destruct (Forall_lookup_1 _ _ _ _ (inv_heap _ Hinv) He) as [Hy Hx].
    assert (Hin : (flat (st_frozen st) (entry_y e) (entry_x e)
                   < length (data (st_frozen st)))%nat).
    { apply flat_in_range.
      - rewrite (inv_Flen _ Hinv), (inv_F0 _ Hinv), (inv_F1 _ Hinv). reflexivity.
      - rewrite (inv_F0 _ Hinv). exact Hy.
      - rewrite (inv_F1 _ Hinv). exact Hx. }
    pose proof (count_false_insert _ _ (bitem_false_lookup _ _ _ Hin Hfresh)) as Hc.
    cbn [setitem data]. lia.
Qed.

(** More fuel does not change a result. *)
Lemma fmm_loop_more_fuel (fuel : nat) :
  forall st st', fmm_loop slowness dx ny nx fuel st = Some st' ->
    forall k : nat, fmm_loop slowness dx ny nx (fuel + k) st = Some st'.
Proof.
  induction fuel as [|fuel IH]; intros st st' Hrun k.
  - destruct k; simpl in *; destruct (st_heap st); congruence.
  - simpl in *. destruct (st_heap st); [exact Hrun|]. apply IH. exact Hrun.
Qed.

(** With fuel above the measure the loop ends, the band is empty, and
    every property kept by the iterations holds at the end. *)
Lemma fmm_loop_terminates (P : fmm_state -> Prop) :
  (forall s, fmm_inv s -> P s -> st_heap s <> [] ->
             P (fmm_iter slowness dx ny nx s)) ->
  forall (fuel : nat) (st : fmm_state),
    fmm_inv st -> P st -> (measure st < fuel)%nat ->
    exists st', fmm_loop slowness dx ny nx fuel st = Some st' /\
                st_heap st' = [] /\ fmm_inv st' /\ P st'.
Proof.
  intros Hstep. induction fuel as [|fuel IH]; intros st Hinv HP Hfuel; [lia|].
  simpl. destruct (st_heap st) as [|e l] eqn:Hheap.
  - exists st. auto.
  - assert (Hne : st_heap st <> []) by (rewrite Hheap; discriminate).
    pose proof (fmm_iter_measure st Hinv Hne) as Hdec.
    apply IH; [apply fmm_iter_inv; exact Hinv|apply Hstep; assumption|lia].
Qed.

(** A frozen cell keeps its time for the rest of the run. *)
Lemma fmm_iter_T_frozen st y x :
  fmm_inv st -> bitem (st_frozen st) y x = true ->
  bitem (st_frozen (fmm_iter slowness dx ny nx st)) y x = true /\
  fitem (st_T (fmm_iter slowness dx ny nx st)) y x = fitem (st_T st) y x.
Proof.
  intros Hinv Hfr.
  destruct (fmm_iter_cases st) as [[_ ->]|(e & He & [[_ ->]|[Hfresh ->]])].
  - auto.
  - auto.
  - pose proof (Forall_lookup_1 _ _ _ _ (inv_heap _ Hinv) He) as Hok.
    rewrite update_neighbors_frozen. split.
    + apply froze_cell_keeps. exact Hfr.
    + rewrite update_neighbors_T_frozen.
      * reflexivity.
      * apply froze_cell_inv; assumption.
      * apply froze_cell_keeps. exact Hfr.
Qed.

(** ** The whole run from a source inside [-ny, ny) x [-nx, nx) *)

Hypothesis Hshape0 : shape0 slowness = ny.
Hypothesis Hshape1 : shape1 slowness = nx.

Variables sy sx : Z.
Hypothesis Hsy : index_ok sy ny = true.
Hypothesis Hsx : index_ok sx nx = true.

Lemma index_ok_bounds (i n : Z) : index_ok i n = true -> - n <= i < n.
Proof.
  unfold index_ok. rewrite andb_true_iff, Z.leb_le, Z.ltb_lt. tauto.
Qed.

Lemma count_false_replicate (n : nat) : count_false (replicate n false) = n.
Proof. induction n as [|n IH]; simpl; [reflexivity|]. rewrite IH. reflexivity. Qed.

Lemma bitem_full_false (a b y x : Z) : bitem (full a b false) y x = false.
Proof.
  unfold bitem, item, full. cbn [data].
  destruct (replicate _ false !! _) as [v|] eqn:Hl; [|reflexivity].
  apply lookup_replicate in Hl. destruct Hl as [-> _]. reflexivity.
Qed.

(** The entry pushed by line 35. *)
Definition source_entry : entry := (0%float, sy, sx).

Lemma fmm_init_eq :
  fmm_init slowness sy sx =
  FmmState (setitem (full ny nx inf) sy sx 0%float) (full ny nx false)
           [source_entry] [] [].
Proof.
  unfold fmm_init, source_entry. rewrite Hshape0, Hshape1.
  apply index_ok_bounds in Hsy, Hsx.
  rewrite !to_int32_id by lia. reflexivity.
Qed.

Lemma fmm_init_inv : fmm_inv (fmm_init slowness sy sx).
Proof.
  rewrite fmm_init_eq.
  constructor; cbn [st_T st_frozen st_heap st_froze setitem full shape0 shape1 data].
  - reflexivity.
  - reflexivity.
  - rewrite length_insert, length_replicate. reflexivity.
  - reflexivity.
  - reflexivity.
  - rewrite length_replicate. reflexivity.
  - constructor; [|constructor]. split; assumption.
  - constructor.
  - constructor.
Qed.

Lemma fmm_init_measure :
  measure (fmm_init slowness sy sx) = (4 * Z.to_nat (ny * nx) + 1)%nat.
Proof.
  rewrite fmm_init_eq. unfold measure.
  cbn [st_frozen st_heap full data]. rewrite count_false_replicate.
  simpl. lia.
Qed.

Lemma fmm_init_T_source : fitem (st_T (fmm_init slowness sy sx)) sy sx = 0%float.
Proof.
  rewrite fmm_init_eq. cbn [st_T]. unfold fitem.
  apply item_setitem_same; [reflexivity|].
  apply flat_in_range; cbn [full shape0 shape1 data]; try assumption.
  rewrite length_replicate. reflexivity.
Qed.

(** The first iteration pops the source entry and freezes the source. *)
Lemma fmm_iter_init :
  fmm_iter slowness dx ny nx (fmm_init slowness sy sx) =
  update_neighbors slowness dx ny nx
    (froze_cell (fmm_init slowness sy sx) source_entry) sy sx.
Proof.
  destruct (fmm_iter_cases (fmm_init slowness sy sx))
    as [[Hnil _]|(e & He & Hcase)].
  - rewrite fmm_init_eq in Hnil. discriminate.
  - assert (e = source_entry) as ->.
    { rewrite fmm_init_eq in He. cbn [st_heap] in He. simpl in He.
      congruence. }
    destruct Hcase as [[Hfr _]|[_ ->]]; [|reflexivity].
    rewrite fmm_init_eq in Hfr. cbn [st_frozen] in Hfr.
    rewrite bitem_full_false in Hfr. discriminate.
Qed.

(** The fuel that always suffices: four iterations per cell, and two. *)
Definition fuel_bound : nat := (4 * Z.to_nat (ny * nx) + 2)%nat.

(** The source is frozen at time 0 after the first iteration. *)
Lemma fmm_first_iter_source :
  let st1 := fmm_iter slowness dx ny nx (fmm_init slowness sy sx) in
  fmm_inv st1 /\ bitem (st_frozen st1) sy sx = true /\
  fitem (st_T st1) sy sx = 0%float.
Proof.
  cbv zeta. split; [apply fmm_iter_inv, fmm_init_inv|].
  rewrite fmm_iter_init.
  assert (Hok : entry_ok source_entry) by (split; assumption).
  assert (Hfresh : bitem (st_frozen (fmm_init slowness sy sx))
                         (entry_y source_entry) (entry_x source_entry) = false).
  { rewrite fmm_init_eq. cbn [st_frozen]. apply bitem_full_false. }
  pose proof (froze_cell_marks _ _ fmm_init_inv Hok) as Hmark.
  pose proof (froze_cell_inv _ _ fmm_init_inv Hok Hfresh) as Hinv.
  change (entry_y source_entry) with sy in *.
  change (entry_x source_entry) with sx in *.
  split.
  - rewrite update_neighbors_frozen. exact Hmark.
  - rewrite update_neighbors_T_frozen by assumption.
    cbn [froze_cell st_T]. apply fmm_init_T_source.
Qed.

(** With [fuel_bound] fuel or more the run ends with an empty band, the
    source frozen at time 0, and every property [P] that holds after the
    first iteration and is kept by the later ones. *)
Lemma fmm_run_ends (P : fmm_state -> Prop) :
  P (fmm_iter slowness dx ny nx (fmm_init slowness sy sx)) ->
  (forall s, fmm_inv s -> P s -> st_heap s <> [] ->
             P (fmm_iter slowness dx ny nx s)) ->
  exists st,
    (forall fuel : nat, (fuel_bound <= fuel)%nat ->
       fmm_loop slowness dx ny nx fuel (fmm_init slowness sy sx) = Some st) /\
    st_heap st = [] /\ fmm_inv st /\
    bitem (st_frozen st) sy sx = true /\ fitem (st_T st) sy sx = 0%float /\
    P st.
Proof.
  intros HP1 HPstep.
  destruct fmm_first_iter_source as (Hinv1 & Hfr1 & HT1).
  set (st1 := fmm_iter slowness dx ny nx (fmm_init slowness sy sx)) in *.
  pose (R := fun s => bitem (st_frozen s) sy sx = true /\
                      fitem (st_T s) sy sx = 0%float /\ P s).
  assert (Hmeas : (measure st1 < 4 * Z.to_nat (ny * nx) + 1)%nat).
  { rewrite <- fmm_init_measure. apply fmm_iter_measure; [apply fmm_init_inv|].
    rewrite fmm_init_eq. discriminate. }
  destruct (fmm_loop_terminates R) with (fuel := (4 * Z.to_nat (ny * nx) + 1)%nat)
                                        (st := st1)
    as (st & Hrun & Hnil & Hinv & Hfr & HT & HP); auto.
  { intros s Hs (Hf & Ht & Hp) Hne.
    destruct (fmm_iter_T_frozen s sy sx Hs Hf) as [Hf' Ht'].
    split; [exact Hf'|]. split; [congruence|]. apply HPstep; assumption. }
  { unfold R. auto. }
  exists st. split; [|auto].
  intros fuel Hfuel. unfold fuel_bound in Hfuel.
  replace fuel with (S (4 * Z.to_nat (ny * nx) + 1 + (fuel - fuel_bound)))%nat
    by (unfold fuel_bound; lia).
  cbn [fmm_loop]. rewrite fmm_init_eq. cbn [st_heap]. rewrite <- fmm_init_eq.
  apply fmm_loop_more_fuel. exact Hrun.
Qed.

(** ** Cells the wavefront never reached *)

(** Some in-grid 4-neighbour of [(y, x)] is frozen. *)
Definition has_frozen_neighbor (st : fmm_state) (y x : Z) : Prop :=
  exists d, In d directions /\ in_grid (y + d.1) (x + d.2) /\
            bitem (st_frozen st) (y + d.1) (x + d.2) = true.

(** Every cell of the grid still holds +infinity, unless it is the source
    or a neighbour of a frozen cell. *)
Definition untouched_inf (st : fmm_state) : Prop :=
  forall y x, in_grid y x ->
    fitem (st_T st) y x = inf \/ (y, x) = (sy, sx) \/ has_frozen_neighbor st y x.

Definition heap_in_grid (st : fmm_state) : Prop :=
  Forall (fun e => in_grid (entry_y e) (entry_x e)) (st_heap st).

Lemma flat_grid_inj {A} (a : ndarray A) (y x y' x' : Z) :
  shape0 a = ny -> shape1 a = nx ->
  in_grid y x -> in_grid y' x' ->
  flat a y x = flat a y' x' -> (y, x) = (y', x').
Proof.
  intros H0 H1 [Hy Hx] [Hy' Hx'] He. unfold flat in He. rewrite H0, H1 in He.
  rewrite !wrap_index_nonneg in He by lia.
  apply Z2Nat.inj in He; [|nia|nia].
  assert (y = y') by nia. subst y'. f_equal. lia.
Qed.

Lemma opposite_direction (d : Z * Z) :
  In d directions -> In (- d.1, - d.2) directions.
Proof.
  unfold directions. simpl.
  intros [<-|[<-|[<-|[<-|[]]]]]; simpl; auto.
Qed.

Lemma update_neighbors_fold_dir (P : fmm_state -> Prop) (y x : Z) :
  (forall s d, In d directions -> P s ->
               P (update_neighbor slowness dx ny nx s (y + d.1) (x + d.2))) ->
  forall st, P st -> P (update_neighbors slowness dx ny nx st y x).
Proof.
  intros Hstep. unfold update_neighbors.
  assert (Hgen : forall ds, (forall d, In d ds -> In d directions) ->
            forall st, P st ->
              P (fold_left (fun s d => update_neighbor slowness dx ny nx s
                                         (y + d.1) (x + d.2)) ds st)).
  { induction ds as [|d ds IH]; intros Hsub st Hst; simpl; [exact Hst|].
    apply IH; [intros d' Hd'; apply Hsub; right; exact Hd'|].
    apply Hstep; [apply Hsub; left; reflexivity|exact Hst]. }
  apply Hgen. auto.
Qed.

Lemma update_neighbor_heap_in_grid st a b :
  heap_in_grid st -> heap_in_grid (update_neighbor slowness dx ny nx st a b).
Proof.
  intros Hh.
  destruct (update_neighbor_cases st a b) as [->|(Hg & _ & _ & ->)];
    [exact Hh|].
  unfold heap_in_grid. cbn [st_heap].
  destruct (push_cases (st_heap st) (candidate st a b) a b) as [->|[_ ->]];
    [exact Hh|].
  apply Forall_app. split; [exact Hh|]. constructor; [|constructor].
  unfold entry_y, entry_x. cbn [fst snd]. destruct Hg as [Ha Hb].
  rewrite !to_int32_id by lia. split; assumption.
Qed.

Lemma update_neighbor_untouched st y0 x0 d :
  fmm_inv st -> In d directions -> in_grid y0 x0 ->
  bitem (st_frozen st) y0 x0 = true ->
  untouched_inf st ->
  untouched_inf (update_neighbor slowness dx ny nx st (y0 + d.1) (x0 + d.2)).
Proof.
  intros Hinv Hd Hg0 Hfr0 Hun.
  destruct (update_neighbor_cases st (y0 + d.1) (x0 + d.2))
    as [->|(Hg & _ & _ & ->)]; [exact Hun|].
  intros y x Hyx. unfold has_frozen_neighbor. cbn [st_T st_frozen].
  destruct (Hun y x Hyx) as [Hinf|[Hsrc|Hnb]]; [|auto|auto].
  destruct (decide ((y, x) = (y0 + d.1, x0 + d.2))) as [He|Hne].
  - right. right. inversion He; subst y x.
    exists (- d.1, - d.2). split; [apply opposite_direction; exact Hd|].
    cbn [fst snd].
    replace (y0 + d.1 + - d.1) with y0 by lia.
    replace (x0 + d.2 + - d.2) with x0 by lia.
    auto.
  - left. rewrite <- Hinf. unfold fitem. apply item_setitem_other.
    intros Hflat. apply Hne.
    apply (flat_grid_inj (st_T st));
      [exact (inv_T0 _ Hinv)|exact (inv_T1 _ Hinv)|exact Hyx|exact Hg|exact Hflat].
Qed.

Lemma froze_cell_untouched st e :
  untouched_inf st -> untouched_inf (froze_cell st e).
Proof.
  intros Hun y x Hyx.
  destruct (Hun y x Hyx) as [Hinf|[Hsrc|(d & Hd & Hg & Hfr)]]; auto.
  right. right. exists d. split; [exact Hd|]. split; [exact Hg|].
  apply froze_cell_keeps. exact Hfr.
Qed.

Lemma fmm_iter_untouched st :
  fmm_inv st -> heap_in_grid st /\ untouched_inf st ->
  heap_in_grid (fmm_iter slowness dx ny nx st) /\
  untouched_inf (fmm_iter slowness dx ny nx st).
Proof.
  intros Hinv [Hh Hun].
  destruct (fmm_iter_cases st) as [[_ ->]|(e & He & [[_ ->]|[Hfresh ->]])].
  - auto.
  - split; [|exact Hun]. unfold heap_in_grid. cbn [popped st_heap].
    apply remove_at_Forall. exact Hh.
  - pose proof (Forall_lookup_1 _ _ _ _ (inv_heap _ Hinv) He) as Hok.
    pose proof (Forall_lookup_1 _ _ _ _ Hh He) as Hg. cbn beta in Hg.
    pose proof (froze_cell_inv st e Hinv Hok Hfresh) as Hinv'.
    pose proof (froze_cell_marks st e Hinv Hok) as Hmark.
    assert (HP : fmm_inv (froze_cell st e) /\
                 st_frozen (froze_cell st e) = st_frozen (froze_cell st e) /\
                 heap_in_grid (froze_cell st e) /\
                 untouched_inf (froze_cell st e)).
    { split; [exact Hinv'|]. split; [reflexivity|]. split.
      - unfold heap_in_grid. cbn [froze_cell st_heap].
        apply remove_at_Forall. exact Hh.
      - apply froze_cell_untouched. exact Hun. }
    assert (Hall :
      (fun s => fmm_inv s /\ st_frozen s = st_frozen (froze_cell st e) /\
                heap_in_grid s /\ untouched_inf s)
        (update_neighbors slowness dx ny nx (froze_cell st e)
                          (entry_y e) (entry_x e))).
    { apply update_neighbors_fold_dir; [|exact HP].
      intros s d Hd (Hs & Hf & Hhs & Hus).
      split; [apply update_neighbor_inv; exact Hs|].
      split; [rewrite update_neighbor_frozen; exact Hf|].
      split; [apply update_neighbor_heap_in_grid; exact Hhs|].
      apply update_neighbor_untouched; auto.
      rewrite Hf. exact Hmark. }
    cbv beta in Hall. tauto.
Qed.

Lemma untouched_inf_init :
  in_grid sy sx -> untouched_inf (fmm_init slowness sy sx).
Proof.
  intros Hsrc y x Hyx.
  destruct (decide ((y, x) = (sy, sx))) as [He|Hne]; [auto|].
  left. rewrite fmm_init_eq. cbn [st_T]. unfold fitem.
  rewrite item_setitem_other.
  - unfold item, full. cbn [data].
    destruct (replicate _ inf !! _) as [v|] eqn:Hl.
    + apply lookup_replicate in Hl. destruct Hl as [-> _]. reflexivity.
    + apply lookup_ge_None in Hl. rewrite length_replicate in Hl.
      exfalso. unfold flat in Hl. cbn [shape0 shape1] in Hl.
      destruct Hyx as [Hy Hx]. rewrite !wrap_index_nonneg in Hl by lia.
      apply Z2Nat.inj_le in Hl; nia.
  - intros Hflat. apply Hne.
    apply (flat_grid_inj (full ny nx inf)); auto.
Qed.

(** The run from a source inside the grid. *)
Lemma fmm_run_valid :
  in_grid sy sx ->
  exists st,
    (forall fuel : nat, (fuel_bound <= fuel)%nat ->
       fmm_loop slowness dx ny nx fuel (fmm_init slowness sy sx) = Some st) /\
    st_heap st = [] /\ fmm_inv st /\
    bitem (st_frozen st) sy sx = true /\ fitem (st_T st) sy sx = 0%float /\
    untouched_inf st.
Proof.
  intros Hsrc.
  assert (H1 : (fun s => heap_in_grid s /\ untouched_inf s)
                 (fmm_iter slowness dx ny nx (fmm_init slowness sy sx))).
  { apply fmm_iter_untouched; [apply fmm_init_inv|].
    split; [|apply untouched_inf_init; exact Hsrc].
    unfold heap_in_grid. rewrite fmm_init_eq. cbn [st_heap].
    constructor; [exact Hsrc|constructor]. }
  assert (H2 : forall s, fmm_inv s ->
                 (fun s => heap_in_grid s /\ untouched_inf s) s ->
                 st_heap s <> [] ->
                 (fun s => heap_in_grid s /\ untouched_inf s)
                   (fmm_iter slowness dx ny nx s)).
  { intros s Hs HP _. apply fmm_iter_untouched; assumption. }
  destruct (fmm_run_ends _ H1 H2) as (st & Hrun & Hnil & Hinv & Hfr & HT & _ & Hun).
  exists st. repeat (split; [assumption|]). exact Hun.
Qed.

End SolverFacts.

(** ** The loop, one statement at a time

    A configuration is the solver state together with the position inside
    the loop body: [None] at the head of the [while] loop, or
    [Some (y, x, ds)] inside the [for d in range(4)] loop of the cell
    [(y, x)] just frozen, with the directions [ds] still to visit. *)

Record config : Type := Config {
  c_state : fmm_state;
  c_pending : option (Z * Z * list (Z * Z))
}.

Section SmallStep.

Variable slowness : ndarray float.
Variable dx : float.
Variables ny nx : Z.

Definition micro_step (c : config) : option config :=
  let st := c_state c in
  match c_pending c with
  | Some (y, x, d :: ds) =>
      Some (Config (update_neighbor slowness dx ny nx st (y + d.1) (x + d.2))
                   (Some (y, x, ds)))
  | Some (y, x, []) => Some (Config st None)
  | None =>
      match st_heap st !! argmin (st_heap st) with
      | None => None
      | Some e =>
          if bitem (st_frozen st) (entry_y e) (entry_x e)
          then Some (Config (popped st e) None)
          else Some (Config (froze_cell ny nx st e)
                            (Some (entry_y e, entry_x e, directions)))
      end
  end.

Fixpoint micro_run (k : nat) (c : config) : option config :=
  match k with
  | O => Some c
  | S k' =>
      match micro_step c with
      | Some c' => micro_run k' c'
      | None => None
      end
  end.

Inductive reachable (c0 : config) : config -> Prop :=
  | reach_refl : reachable c0 c0
  | reach_step c c' :
      reachable c0 c -> micro_step c = Some c' -> reachable c0 c'.

Lemma reachable_trans c0 c1 c2 :
  reachable c0 c1 -> reachable c1 c2 -> reachable c0 c2.
Proof.
  intros H01 H12. induction H12 as [|c c' _ IH Hstep]; [exact H01|].
  exact (reach_step _ _ _ IH Hstep).
Qed.

Lemma micro_run_reachable (k : nat) :
  forall c c', micro_run k c = Some c' -> reachable c c'.
Proof.
  induction k as [|k IH]; intros c c' Hrun; simpl in Hrun.
  - inversion Hrun; subst. constructor.
  - destruct (micro_step c) as [c1|] eqn:Hstep; [|discriminate].
    apply reachable_trans with c1; [|apply IH; exact Hrun].
    apply (reach_step _ c); [constructor|exact Hstep].
Qed.

(** The [for] loop over the remaining directions, statement by statement,
    is the fold of [update_neighbors]. *)
Lemma reachable_updates (ds : list (Z * Z)) :
  forall st y x,
    reachable (Config st (Some (y, x, ds)))
      (Config (fold_left (fun s d => update_neighbor slowness dx ny nx s
                                       (y + d.1) (x + d.2)) ds st) None).
Proof.
  induction ds as [|d ds IH]; intros st y x; simpl.
  - apply (reach_step _ (Config st (Some (y, x, [])))); [constructor|reflexivity].
  - eapply reachable_trans; [|apply IH].
    apply (reach_step _ (Config st (Some (y, x, d :: ds)))); [constructor|reflexivity].
Qed.

(** One iteration of the [while] loop is a sequence of statements. *)
Lemma fmm_iter_reachable (st : fmm_state) :
  reachable (Config st None) (Config (fmm_iter slowness dx ny nx st) None).
Proof.
  destruct (fmm_iter_cases slowness dx ny nx st)
    as [[_ ->]|(e & He & [[Hfr ->]|[Hfresh ->]])].
  - constructor.
  - apply (reach_step _ (Config st None)); [constructor|].
    unfold micro_step. cbn [c_state c_pending]. rewrite He, Hfr. reflexivity.
  - eapply reachable_trans; [|apply reachable_updates].
    apply (reach_step _ (Config st None)); [constructor|].
    unfold micro_step. cbn [c_state c_pending]. rewrite He, Hfresh. reflexivity.
Qed.

Lemma fmm_loop_reachable (fuel : nat) :
  forall st st', fmm_loop slowness dx ny nx fuel st = Some st' ->
    reachable (Config st None) (Config st' None).
Proof.
  induction fuel as [|fuel IH]; intros st st' Hrun; simpl in Hrun.
  - destruct (st_heap st); [|discriminate]. inversion Hrun; subst. constructor.
  - destruct (st_heap st); [inversion Hrun; subst; constructor|].
    eapply reachable_trans; [apply fmm_iter_reachable|]. apply IH. exact Hrun.
Qed.

Hypothesis Hny : 0 < ny < 2 ^ 31.
Hypothesis Hnx : 0 < nx < 2 ^ 31.

(** What one statement does to the stored times and the frozen marks. *)
Definition step_ok (st st' : fmm_state) : Prop :=
  (forall y x,
     fitem (st_T st') y x = fitem (st_T st) y x \/
     (fitem (st_T st') y x <? fitem (st_T st) y x)%float = true) /\
  (forall y x,
     bitem (st_frozen st) y x = true ->
     bitem (st_frozen st') y x = true /\
     fitem (st_T st') y x = fitem (st_T st) y x) /\
  (st_froze st' = st_froze st \/
   exists p, st_froze st' = st_froze st ++ [p] /\
             bitem (st_frozen st) p.1 p.2 = false /\
             bitem (st_frozen st') p.1 p.2 = true).

Lemma micro_step_ok (c c' : config) :
  fmm_inv ny nx (c_state c) -> micro_step c = Some c' ->
  fmm_inv ny nx (c_state c') /\ step_ok (c_state c) (c_state c').
Proof.
  intros Hinv Hstep. unfold micro_step in Hstep. cbv zeta in Hstep.
  destruct c as [st pending]. cbn [c_state c_pending] in *.
  destruct pending as [[[y x] [|d ds]]|].
  - inversion Hstep; subst. cbn [c_state]. split; [exact Hinv|].
    unfold step_ok. auto.
  - inversion Hstep; subst. cbn [c_state].
    split; [apply update_neighbor_inv; assumption|].
    split; [intros a b; apply update_neighbor_T_decreases|].
    split.
    + intros a b Hfr. rewrite update_neighbor_frozen. split; [exact Hfr|].
      apply update_neighbor_T_frozen; [| |exact Hfr].
      * rewrite (inv_T0 _ _ _ Hinv), (inv_F0 _ _ _ Hinv). reflexivity.
      * rewrite (inv_T1 _ _ _ Hinv), (inv_F1 _ _ _ Hinv). reflexivity.
    + left. apply update_neighbor_froze.
  - destruct (st_heap st !! argmin (st_heap st)) as [e|] eqn:He; [|discriminate].
    pose proof (Forall_lookup_1 _ _ _ _ (inv_heap _ _ _ Hinv) He) as Hok.
    destruct (bitem (st_frozen st) (entry_y e) (entry_x e)) eqn:Hfr;
      inversion Hstep; subst; cbn [c_state].
    + split; [apply popped_inv; exact Hinv|]. unfold step_ok.
      cbn [popped st_T st_frozen st_froze]. auto.
    + split; [apply froze_cell_inv; assumption|]. unfold step_ok.
      split; [cbn [froze_cell st_T]; auto|].
      split.
      * intros a b Hab. split; [apply froze_cell_keeps; exact Hab|reflexivity].
      * right. eexists. split; [reflexivity|]. cbn [fst snd].
        destruct Hok as [Hy Hx].
        rewrite (frozen_wrap ny nx st _ _ Hinv Hy Hx).
        split; [exact Hfr|].
        rewrite (frozen_wrap ny nx (froze_cell ny nx st e) _ _
                   (froze_cell_inv ny nx st e Hinv (conj Hy Hx) Hfr) Hy Hx).
        apply froze_cell_marks; [exact Hinv|split; assumption].
Qed.

Lemma reachable_inv (c0 c : config) :
  fmm_inv ny nx (c_state c0) -> reachable c0 c -> fmm_inv ny nx (c_state c).
Proof.
  intros H0 Hreach. induction Hreach as [|c c' _ IH Hstep]; [exact H0|].
  exact (proj1 (micro_step_ok c c' IH Hstep)).
Qed.

(** Once frozen, always frozen, and at the same time. *)
Lemma reachable_frozen (c c' : config) (y x : Z) :
  fmm_inv ny nx (c_state c) -> reachable c c' ->
  bitem (st_frozen (c_state c)) y x = true ->
  bitem (st_frozen (c_state c')) y x = true /\
  fitem (st_T (c_state c')) y x = fitem (st_T (c_state c)) y x.
Proof.
  intros Hinv Hreach Hfr.
  induction Hreach as [|c1 c2 Hreach1 IH Hstep]; [auto|].
  destruct IH as [Hfr1 HT1].
  destruct (micro_step_ok c1 c2 (reachable_inv _ _ Hinv Hreach1) Hstep)
    as [_ (_ & Hkeep & _)].
  destruct (Hkeep y x Hfr1) as [Hfr2 HT2]. split; [exact Hfr2|congruence].
Qed.

End SmallStep.

(** * The claims about the solver *)

Section SolverClaims.

Local Open Scope float_scope.

(** A slowness field the solver can hold: at least one row and one column,
    and coordinates that fit the 32-bit band arrays. *)
Definition grid_ok (a : ndarray float) : Prop :=
  (0 < shape0 a < 2 ^ 31)%Z /\ (0 < shape1 a < 2 ^ 31)%Z.

Lemma run_from_init (fuel : nat) (n_field : ndarray float) (sy sx : Z)
    (dx : float) (st : fmm_state) :
  index_ok sy (shape0 n_field) = true -> index_ok sx (shape1 n_field) = true ->
  fmm_loop n_field dx (shape0 n_field) (shape1 n_field) fuel
           (fmm_init n_field sy sx) = Some st ->
  _fmm_run fuel n_field sy sx dx = Done st /\
  solve_eikonal fuel n_field (sy, sx) dx = Done (st_T st).
Proof.
  intros Hsy Hsx Hrun. unfold solve_eikonal, _fmm_core, _fmm_run.
  cbn [fst snd]. rewrite Hsy, Hsx, Hrun. split; reflexivity.
Qed.

(** C7, as stated, fails: the code has no source check at all; a negative
    source coordinate wraps around and a field is returned. *)
Lemma invalid_source_counterexample :
  ~ (forall (n_field : ndarray float) (sy sx : Z) (dx : float) (fuel : nat),
        ~ ((0 <= sy < shape0 n_field)%Z /\ (0 <= sx < shape1 n_field)%Z) ->
        forall T, solve_eikonal fuel n_field (sy, sx) dx <> Done T).
Proof.
  intros H.
  apply (H U22 (-1)%Z (-1)%Z 1 100%nat) with (T := NdArray 2 2 [inf; inf; inf; 0]).
  - intros [[Hlo _] _]. apply Hlo. reflexivity.
  - vm_compute. reflexivity.
Qed.

(** C7 (amended): [solve_eikonal] validates nothing and has no
    InvalidSource error.  A source with [-rows <= sy < rows] and
    [-cols <= sx < cols] is accepted, a negative coordinate counting from
    the end of its axis as in NumPy, and the field returned holds 0 at
    that cell, that is, at row [sy + rows] when [sy < 0] and at column
    [sx + cols] when [sx < 0]. *)
Theorem solve_eikonal_source_unchecked (n_field : ndarray float)
    (sy sx : Z) (dx : float) :
  grid_ok n_field ->
  index_ok sy (shape0 n_field) && index_ok sx (shape1 n_field) = true ->
  exists T : ndarray float,
    (forall fuel : nat,
       (fuel_bound (shape0 n_field) (shape1 n_field) <= fuel)%nat ->
       solve_eikonal fuel n_field (sy, sx) dx = Done T) /\
    fitem T sy sx = 0 /\
    fitem T (wrap_index sy (shape0 n_field)) (wrap_index sx (shape1 n_field)) = 0.
Proof.
  intros [Hny Hnx] Hok. apply andb_true_iff in Hok. destruct Hok as [Hsy Hsx].
  destruct (fmm_run_ends n_field dx _ _ Hny Hnx eq_refl eq_refl sy sx Hsy Hsx
              (fun _ => True) I (fun _ _ _ _ => I))
    as (st & Hrun & _ & Hinv & _ & HT & _).
  exists (st_T st). split; [|split; [exact HT|]].
  - intros fuel Hfuel. apply run_from_init; auto.
  - rewrite <- HT. apply item_flat_eq.
    rewrite <- (inv_T0 _ _ _ Hinv), <- (inv_T1 _ _ _ Hinv).
    apply flat_wrap.
    + rewrite (inv_T0 _ _ _ Hinv). exact Hsy.
    + rewrite (inv_T1 _ _ _ Hinv). exact Hsx.
Qed.

Lemma solve_eikonal_source_unchecked_witness :
  exists T : ndarray float,
    (forall fuel : nat,
       (fuel_bound (shape0 U22) (shape1 U22) <= fuel)%nat ->
       solve_eikonal fuel U22 ((-1)%Z, (-1)%Z) 1 = Done T) /\
    fitem T (-1) (-1) = 0 /\
    fitem T (wrap_index (-1) (shape0 U22)) (wrap_index (-1) (shape1 U22)) = 0.
Proof.
  apply (solve_eikonal_source_unchecked U22 (-1) (-1) 1).
  - split; split; reflexivity.
  - reflexivity.
Defined.

(** C4: throughout a run, statement by statement: line 31 lowers the
    source from +infinity to 0; every later statement leaves each stored
    time equal or strictly lower; the cells frozen so far are pairwise
    distinct, a statement freezes at most one cell and only one that was
    not frozen; and a frozen cell stays frozen with the same stored time in
    every later configuration of the run. *)
Theorem times_decrease_and_freeze_once (slowness : ndarray float)
    (sy sx : Z) (dx : float) :
  grid_ok slowness ->
  index_ok sy (shape0 slowness) = true ->
  index_ok sx (shape1 slowness) = true ->
  (fitem (st_T (fmm_init slowness sy sx)) sy sx <? inf) = true /\
  forall c : config,
    reachable slowness dx (shape0 slowness) (shape1 slowness)
              (Config (fmm_init slowness sy sx) None) c ->
    NoDup (st_froze (c_state c)) /\
    (forall c', micro_step slowness dx (shape0 slowness) (shape1 slowness) c = Some c' ->
                step_ok (c_state c) (c_state c')) /\
    (forall c' y x,
       reachable slowness dx (shape0 slowness) (shape1 slowness) c c' ->
       bitem (st_frozen (c_state c)) y x = true ->
       bitem (st_frozen (c_state c')) y x = true /\
       fitem (st_T (c_state c')) y x = fitem (st_T (c_state c)) y x).
Proof.
  intros [Hny Hnx] Hsy Hsx.
  pose proof (fmm_init_inv slowness _ _ Hny Hnx eq_refl eq_refl sy sx Hsy Hsx)
    as Hinit.
  split.
  - rewrite (fmm_init_T_source slowness _ _ Hny Hnx eq_refl eq_refl sy sx Hsy Hsx).
    reflexivity.
  - intros c Hreach.
    pose proof (reachable_inv slowness dx _ _ Hny Hnx
                (Config (fmm_init slowness sy sx) None) c Hinit Hreach) as Hinv.
    split; [exact (inv_nodup _ _ _ Hinv)|]. split.
    + intros c' Hstep.
      exact (proj2 (micro_step_ok slowness dx _ _ Hny Hnx c c' Hinv Hstep)).
    + intros c' y x Hreach' Hfr.
      exact (reachable_frozen slowness dx _ _ Hny Hnx c c' y x Hinv Hreach' Hfr).
Qed.

Lemma times_decrease_and_freeze_once_witness :
  (fitem (st_T (fmm_init U22 0 0)) 0 0 <? inf) = true /\
  forall c : config,
    reachable U22 1 (shape0 U22) (shape1 U22) (Config (fmm_init U22 0 0) None) c ->
    NoDup (st_froze (c_state c)) /\
    (forall c', micro_step U22 1 (shape0 U22) (shape1 U22) c = Some c' ->
                step_ok (c_state c) (c_state c')) /\
    (forall c' y x,
       reachable U22 1 (shape0 U22) (shape1 U22) c c' ->
       bitem (st_frozen (c_state c)) y x = true ->
       bitem (st_frozen (c_state c')) y x = true /\
       fitem (st_T (c_state c')) y x = fitem (st_T (c_state c)) y x).
Proof.
  apply (times_decrease_and_freeze_once U22 0 0 1);
    [split; split; reflexivity|reflexivity|reflexivity].
Defined.








End SolverClaims.

(** ** Order facts on binary64 numbers *)

Section FloatOrder.

Local Open Scope float_scope.

Lemma SFcompare_refl_not_lt (f : spec_float) : SFcompare f f <> Some Lt.
Proof.
  destruct f as [s|s| |s m e]; simpl; try destruct s; try discriminate.
  all: rewrite Z.compare_refl;
    change (Pos.compare_cont Eq m m) with (Pos.compare m m);
    rewrite Pos.compare_refl; discriminate.
Qed.

Lemma SFcompare_asym (f g : spec_float) :
  SFcompare f g = Some Lt -> SFcompare g f = Some Gt.
Proof.
  destruct f as [s1|s1| |s1 m1 e1], g as [s2|s2| |s2 m2 e2]; simpl;
    try destruct s1; try destruct s2; try congruence.
  all: rewrite (Z.compare_antisym e1 e2);
    change (Pos.compare_cont Eq m2 m1) with (Pos.compare m2 m1);
    change (Pos.compare_cont Eq m1 m2) with (Pos.compare m1 m2);
    rewrite (Pos.compare_antisym m1 m2);
    destruct (Z.compare e1 e2), (Pos.compare m1 m2); simpl; congruence.
Qed.

Lemma ltb_irrefl (x : float) : (x <? x) = false.
Proof.
  rewrite ltb_spec. unfold SFltb.
  pose proof (SFcompare_refl_not_lt (Prim2SF x)) as H.
  destruct (SFcompare (Prim2SF x) (Prim2SF x)) as [[]|]; congruence.
Qed.

Lemma ltb_asym (x y : float) : (x <? y) = true -> (y <? x) = false.
Proof.
  rewrite !ltb_spec. unfold SFltb. intros H.
  destruct (SFcompare (Prim2SF x) (Prim2SF y)) as [[]|] eqn:Hc; try discriminate.
  rewrite (SFcompare_asym _ _ Hc). reflexivity.
Qed.

(** A value that is not below +infinity (that is, +infinity or NaN) is
    below nothing. *)
Lemma ltb_not_below_inf (x y : float) : (x <? inf) = false -> (x <? y) = false.
Proof.
  rewrite !ltb_spec. unfold SFltb.
  change (Prim2SF inf) with (S754_infinity false).
  destruct (Prim2SF x) as [s1|s1| |s1 m1 e1]; simpl.
  - destruct s1; discriminate.
  - destruct s1; [discriminate|]. intros _.
    destruct (Prim2SF y) as [s2|s2| |s2 m2 e2]; try destruct s2; reflexivity.
  - reflexivity.
  - discriminate.
Qed.

End FloatOrder.

(** ** The stencil (claims C1, C2) and the pop order (claim C3) *)

Section StencilClaims.

Local Open Scope float_scope.

(** Modelled on the spec's words for C2: the minimum over the FROZEN
    horizontal (vertical) neighbours, +infinity when there is none. *)
Definition t_horiz_frozen_spec (T : ndarray float) (frozen : ndarray bool)
    (y x nx : Z) : float :=
  let t := inf in
  let t := if (x >? 0)%Z && bitem frozen y (x - 1) && (fitem T y (x - 1) <? t)
           then fitem T y (x - 1) else t in
  let t := if (x <? nx - 1)%Z && bitem frozen y (x + 1) && (fitem T y (x + 1) <? t)
           then fitem T y (x + 1) else t in
  t.

Definition t_vert_frozen_spec (T : ndarray float) (frozen : ndarray bool)
    (y x ny : Z) : float :=
  let t := inf in
  let t := if (y >? 0)%Z && bitem frozen (y - 1) x && (fitem T (y - 1) x <? t)
           then fitem T (y - 1) x else t in
  let t := if (y <? ny - 1)%Z && bitem frozen (y + 1) x && (fitem T (y + 1) x <? t)
           then fitem T (y + 1) x else t in
  t.

(** The configuration of the run on the constant 2x2 field from (0, 0) in
    which cell (1, 0) has just been frozen and cell (1, 1) is updated
    next, while cell (0, 1) is still in the band. *)
Definition update_of_corner : config :=
  Eval vm_compute in
    default (Config (fmm_init U22 0 0) None)
            (micro_run U22 1 (shape0 U22) (shape1 U22) 10
                       (Config (fmm_init U22 0 0) None)).

(** C2, as stated, fails: the stencil reads the stored time of every
    in-range neighbour and never looks at the frozen marks.  When cell
    (1, 1) of the 2x2 field is updated, its vertical neighbour (0, 1) is
    not frozen, yet its tentative time 1 is taken as [t_vert]. *)
Lemma stencil_frozen_only_counterexample :
  ~ (forall (slowness : ndarray float) (sy sx : Z) (dx : float) (k : nat)
            (st : fmm_state) (y x : Z) (d : Z * Z) (ds : list (Z * Z)),
        let ny := shape0 slowness in
        let nx := shape1 slowness in
        micro_run slowness dx ny nx k (Config (fmm_init slowness sy sx) None)
          = Some (Config st (Some (y, x, d :: ds))) ->
        in_grid ny nx (y + d.1) (x + d.2) ->
        t_horiz (st_T st) (y + d.1) (x + d.2) nx
          = t_horiz_frozen_spec (st_T st) (st_frozen st) (y + d.1) (x + d.2) nx /\
        t_vert (st_T st) (y + d.1) (x + d.2) ny
          = t_vert_frozen_spec (st_T st) (st_frozen st) (y + d.1) (x + d.2) ny).
Proof.
  intros H.
  destruct (H U22 0%Z 0%Z 1 10%nat (c_state update_of_corner) 1%Z 0%Z (0, 1)%Z [])
    as [_ Hv].
  - vm_compute. reflexivity.
  - split; split; vm_compute; congruence.
  - apply (f_equal (fun t => t <? inf)) in Hv. vm_compute in Hv. discriminate.
Qed.

(** C2 (amended): [t_horiz] is the smallest stored time among the in-range
    horizontal neighbours, frozen or not, and +infinity when no such
    neighbour holds a time below +infinity: it is +infinity or the stored
    time of an in-range horizontal neighbour, and no in-range horizontal
    neighbour holds a smaller time.  [t_vert] is the same along the
    vertical axis.  The frozen marks are not an input of the stencil. *)
Theorem stencil_minima (T : ndarray float) (y x ny nx : Z) :
  (t_horiz T y x nx = inf \/
   ((x > 0)%Z /\ t_horiz T y x nx = fitem T y (x - 1)) \/
   ((x < nx - 1)%Z /\ t_horiz T y x nx = fitem T y (x + 1))) /\
  ((x > 0)%Z -> (fitem T y (x - 1) <? t_horiz T y x nx) = false) /\
  ((x < nx - 1)%Z -> (fitem T y (x + 1) <? t_horiz T y x nx) = false) /\
  (t_vert T y x ny = inf \/
   ((y > 0)%Z /\ t_vert T y x ny = fitem T (y - 1) x) \/
   ((y < ny - 1)%Z /\ t_vert T y x ny = fitem T (y + 1) x)) /\
  ((y > 0)%Z -> (fitem T (y - 1) x <? t_vert T y x ny) = false) /\
  ((y < ny - 1)%Z -> (fitem T (y + 1) x <? t_vert T y x ny) = false).
Proof.
  assert (Hmin : forall (c1 c2 : bool) (v1 v2 : float),
    let t1 := if c1 && (v1 <? inf) then v1 else inf in
    let t2 := if c2 && (v2 <? t1) then v2 else t1 in
    (t2 = inf \/ (c1 = true /\ t2 = v1) \/ (c2 = true /\ t2 = v2)) /\
    (c1 = true -> (v1 <? t2) = false) /\
    (c2 = true -> (v2 <? t2) = false)).
  { intros c1 c2 v1 v2. cbv zeta.
    destruct c1, c2; cbn [andb];
      destruct (v1 <? inf) eqn:H1;
      try (destruct (v2 <? v1) eqn:H2);
      try (destruct (v2 <? inf) eqn:H3);
      repeat split; auto; try discriminate; intros _;
      auto using ltb_irrefl, ltb_asym, ltb_not_below_inf. }
  unfold t_horiz, t_vert. cbv zeta.
  destruct (Hmin (x >? 0)%Z (x <? nx - 1)%Z (fitem T y (x - 1)) (fitem T y (x + 1)))
    as (Hh1 & Hh2 & Hh3).
  destruct (Hmin (y >? 0)%Z (y <? ny - 1)%Z (fitem T (y - 1) x) (fitem T (y + 1) x))
    as (Hv1 & Hv2 & Hv3).
  cbv zeta in *.
  rewrite !Z.gtb_gt, !Z.ltb_lt in *.
  repeat split; auto.
Qed.

Lemma stencil_minima_witness :
  (fitem U22 0 (1 - 1) <? t_horiz U22 0 1 2) = false.
Proof.
  refine (proj1 (proj2 (stencil_minima U22 0 1 2 2)) _). reflexivity.
Defined.

(** A valid input on which the pop order breaks: positive finite slowness
    values, source (0, 0), spacing 1. *)
Definition cancelling_field : ndarray float :=
  of_rows [[300000000; 300000000.2; 0.2]; [300000001; 0.1; 0.2]].

(** C3 fails on the code: on [cancelling_field] the fifth popped time is
    below the fourth.  When (0, 1) is frozen, cell (1, 1) has
    [t1 = 300000000.2], [t2 = 300000001] and [slow*dx = 0.1]; the exact
    discriminant is negative, but [b*b - 4*a*c] (line 19) cancels
    catastrophically at this magnitude, comes out non-negative, and the
    root 300000004.6 is accepted.  When (1, 2) is frozen at
    300000000.59999996, the single-axis candidate 300000000.3 for (1, 1)
    improves on it and is pushed, below the time just popped. *)
Theorem pop_order_decreases_on_cancelling_field :
  exists st : fmm_state,
    _fmm_run (fuel_bound 2 3) cancelling_field 0 0 1 = Done st /\
    exists t t' : float,
      st_pops st !! 3%nat = Some t /\ st_pops st !! 4%nat = Some t' /\
      (t' <? t) = true.
Proof.
  eexists. split; [vm_compute; reflexivity|].
  eexists. eexists. split; [reflexivity|]. split; [reflexivity|].
  vm_compute. reflexivity.
Qed.

End StencilClaims.

(** ** The quadratic of the stencil, in exact arithmetic *)

Section ExactQuadratic.

Local Open Scope R_scope.

(** Modelled on the spec's words for C1: the quadratic
    [2 t^2 - 2 (t1 + t2) t + (t1^2 + t2^2 - sd^2)], its discriminant, and
    the closed form that line 21 evaluates. *)
Definition quad_poly (t1 t2 sd t : R) : R :=
  2 * t * t - 2 * (t1 + t2) * t + (t1 * t1 + t2 * t2 - sd * sd).

Definition quad_disc_exact (t1 t2 sd : R) : R :=
  (- 2 * (t1 + t2)) * (- 2 * (t1 + t2)) - 4 * 2 * (t1 * t1 + t2 * t2 - sd * sd).

Definition quad_root_exact (t1 t2 sd : R) : R :=
  (- (- 2 * (t1 + t2)) + R_sqrt.sqrt (quad_disc_exact t1 t2 sd)) / (2 * 2).

Lemma quad_root_exact_is_larger_root (t1 t2 sd : R) :
  0 <= quad_disc_exact t1 t2 sd ->
  quad_poly t1 t2 sd (quad_root_exact t1 t2 sd) = 0 /\
  forall t, quad_poly t1 t2 sd t = 0 -> t <= quad_root_exact t1 t2 sd.
Proof.
  intros Hd. unfold quad_root_exact.
  pose proof (sqrt_sqrt _ Hd) as Hs.
  pose proof (sqrt_pos (quad_disc_exact t1 t2 sd)) as Hp.
  set (s := R_sqrt.sqrt (quad_disc_exact t1 t2 sd)) in *.
  unfold quad_disc_exact in Hs. unfold quad_poly. split.
  - field_simplify. nra.
  - intros t Ht.
    assert (Hsq : (4 * t - 2 * (t1 + t2)) * (4 * t - 2 * (t1 + t2)) = s * s) by nra.
    assert (Hle : 4 * t - 2 * (t1 + t2) <= s) by nra.
    lra.
Qed.

End ExactQuadratic.

Section QuadraticClaim.

(** The real number that a finite binary64 number stands for:
    [(-1)^s * m * 2^e] (and 0 for a zero; not used for an infinity or a
    NaN). *)
Definition float_real (f : float) : R :=
  match Prim2SF f with
  | S754_finite s m e =>
      ((if s then -1 else 1) * IZR (Z.pos m) * powerRZ 2 e)%R
  | _ => 0%R
  end.

(** The quadratic of the spec has no real root when its discriminant is
    negative. *)
Lemma quad_poly_no_root (t1 t2 sd : R) :
  (quad_disc_exact t1 t2 sd < 0)%R ->
  forall t : R, quad_poly t1 t2 sd t <> 0%R.
Proof.
  intros Hd t Ht.
  assert (Heq : ((4 * t - 2 * (t1 + t2)) * (4 * t - 2 * (t1 + t2))
                 = quad_disc_exact t1 t2 sd + 8 * quad_poly t1 t2 sd t)%R)
    by (unfold quad_disc_exact, quad_poly; ring).
  pose proof (Rle_0_sqr (4 * t - 2 * (t1 + t2))) as Hsq. unfold Rsqr in Hsq.
  rewrite Heq, Ht in Hsq. lra.
Qed.

Local Open Scope float_scope.

(** The configuration of the run on [cancelling_field] from (0, 0) with
    spacing 1 in which cell (0, 1) has just been frozen and its neighbour
    (1, 1) is updated next. *)
Definition update_of_cancelling : config :=
  Eval vm_compute in
    default (Config (fmm_init cancelling_field 0 0) None)
            (micro_run cancelling_field 1 2 3 8
                       (Config (fmm_init cancelling_field 0 0) None)).

(** C1 fails on the code: when cell (1, 1) of [cancelling_field] is
    updated after (0, 1) was frozen, [t1 = 300000000.2], [t2 = 300000001]
    and [slow*dx = 0.1] are finite and the quadratic of the spec has a
    negative discriminant (-2.48) and no real root, so the candidate of
    the claim is [t1 + slow*dx = 300000000.3].  The code evaluates
    [b*b - 4*a*c] (line 19) in binary64, where it cancels to 256, takes
    the branch of the root and returns 300000004.6. *)
Theorem stencil_accepts_root_of_rootless_quadratic :
  let T := st_T (c_state update_of_cancelling) in
  let t1 := (order_pair (t_horiz T 1 1 3) (t_vert T 1 1 2)).1 in
  let t2 := (order_pair (t_horiz T 1 1 3) (t_vert T 1 1 2)).2 in
  let sd := fitem cancelling_field 1 1 * 1 in
  let cand := _solve_quadratic T cancelling_field 1 1 1 2 3 in
  reachable cancelling_field 1 2 3
    (Config (fmm_init cancelling_field 0 0) None) update_of_cancelling /\
  c_pending update_of_cancelling
    = Some (0%Z, 1%Z, [(1%Z, 0%Z); (0%Z, (-1)%Z); (0%Z, 1%Z)]) /\
  (t1, t2, sd) = (300000000.2, 300000001, 0.1) /\
  (quad_disc_exact (float_real t1) (float_real t2) (float_real sd) < 0)%R /\
  (forall t : R,
     quad_poly (float_real t1) (float_real t2) (float_real sd) t <> 0%R) /\
  quad_disc t1 t2 sd = 256 /\
  cand = 300000004.6 /\
  t1 + sd = 300000000.3 /\
  (t1 + sd <? cand) = true.
Proof.
  cbv zeta.
  assert (Hd : (quad_disc_exact
                  (float_real (order_pair
                     (t_horiz (st_T (c_state update_of_cancelling)) 1 1 3)
                     (t_vert (st_T (c_state update_of_cancelling)) 1 1 2)).1)
                  (float_real (order_pair
                     (t_horiz (st_T (c_state update_of_cancelling)) 1 1 3)
                     (t_vert (st_T (c_state update_of_cancelling)) 1 1 2)).2)
                  (float_real (fitem cancelling_field 1 1 * 1)) < 0)%R).
  { replace (order_pair (t_horiz (st_T (c_state update_of_cancelling)) 1 1 3)
               (t_vert (st_T (c_state update_of_cancelling)) 1 1 2))
      with (300000000.2, 300000001) by (vm_compute; reflexivity).
    replace (fitem cancelling_field 1 1 * 1) with 0.1
      by (vm_compute; reflexivity).
    cbn [fst snd]. unfold float_real.
    replace (Prim2SF 300000000.2)
      with (S754_finite false 5033164803355443 (-24)) by (vm_compute; reflexivity).
    replace (Prim2SF 300000001)
      with (S754_finite false 5033164816777216 (-24)) by (vm_compute; reflexivity).
    replace (Prim2SF 0.1)
      with (S754_finite false 7205759403792794 (-56)) by (vm_compute; reflexivity).
    unfold quad_disc_exact.
    replace (powerRZ 2 (-56)) with (powerRZ 2 (-24) * powerRZ 2 (-32))%R
      by (rewrite <- powerRZ_add by lra; reflexivity).
    replace (powerRZ 2 (-24)) with (/ 16777216)%R
      by (unfold powerRZ; simpl; lra).
    replace (powerRZ 2 (-32)) with (/ 4294967296)%R
      by (unfold powerRZ; simpl; lra).
    lra. }
  split; [apply (micro_run_reachable _ _ _ _ 8); vm_compute; reflexivity|].
  split; [reflexivity|].
  split; [vm_compute; reflexivity|].
  split; [exact Hd|].
  split; [exact (quad_poly_no_root _ _ _ Hd)|].
  repeat split; vm_compute; reflexivity.
Qed.

End QuadraticClaim.

(** * Further properties of the solver *)

(** ** More order facts on binary64 numbers *)

Section FloatOrderMore.

Local Open Scope float_scope.

Lemma Pos_compare_trans (m1 m2 m3 : positive) (c : comparison) :
  Pos.compare m1 m2 = c -> Pos.compare m2 m3 = c -> Pos.compare m1 m3 = c.
Proof.
  destruct c; intros H1 H2.
  - apply Pos.compare_eq in H1, H2. subst. apply Pos.compare_refl.
  - rewrite Pos.compare_lt_iff in *. lia.
  - rewrite Pos.compare_gt_iff in *. lia.
Qed.

Lemma Z_compare_trans (e1 e2 e3 : Z) (c : comparison) :
  Z.compare e1 e2 = c -> Z.compare e2 e3 = c -> Z.compare e1 e3 = c.
Proof.
  destruct c; intros H1 H2.
  - apply Z.compare_eq in H1, H2. subst. apply Z.compare_refl.
  - rewrite Z.compare_lt_iff in *. lia.
  - rewrite Z.compare_gt_iff in *. lia.
Qed.

(** The comparison is transitive on each of its three results. *)
Lemma SFcompare_trans (f g h : spec_float) (c : comparison) :
  SFcompare f g = Some c -> SFcompare g h = Some c -> SFcompare f h = Some c.
Proof.
  destruct f as [s1|s1| |s1 m1 e1], g as [s2|s2| |s2 m2 e2],
           h as [s3|s3| |s3 m3 e3]; simpl;
    try destruct s1; try destruct s2; try destruct s3; try congruence.
  all: change (Pos.compare_cont Eq m1 m2) with (Pos.compare m1 m2);
    change (Pos.compare_cont Eq m2 m3) with (Pos.compare m2 m3);
    change (Pos.compare_cont Eq m1 m3) with (Pos.compare m1 m3).
  all: destruct (Z.compare e1 e2) eqn:H12, (Z.compare e2 e3) eqn:H23;
    try (rewrite (Z_compare_trans _ _ _ _ H12 H23));
    try (apply Z.compare_eq in H12; subst e2; rewrite H23);
    try (apply Z.compare_eq in H23; subst e3; rewrite H12);
    try congruence.
  all: destruct (Pos.compare m1 m2) eqn:P12, (Pos.compare m2 m3) eqn:P23;
    try (rewrite (Pos_compare_trans _ _ _ _ P12 P23)); simpl; try congruence.
Qed.

(** Equal numbers compare alike with a third one. *)
Lemma SFcompare_eq_l (f g h : spec_float) :
  SFcompare f g = Some Eq -> SFcompare f h = SFcompare g h.
Proof.
  destruct f as [s1|s1| |s1 m1 e1], g as [s2|s2| |s2 m2 e2]; simpl;
    try destruct s1; try destruct s2; try congruence.
  all: change (Pos.compare_cont Eq m1 m2) with (Pos.compare m1 m2).
  all: destruct (Z.compare e1 e2) eqn:H12; try discriminate;
    destruct (Pos.compare m1 m2) eqn:P12; try discriminate; intros _;
    apply Z.compare_eq in H12; apply Pos.compare_eq in P12; subst;
    reflexivity.
Qed.

Lemma ltb_trans (x y z : float) :
  (x <? y) = true -> (y <? z) = true -> (x <? z) = true.
Proof.
  rewrite !ltb_spec. unfold SFltb. intros H1 H2.
  destruct (SFcompare (Prim2SF x) (Prim2SF y)) as [[]|] eqn:C1; try discriminate.
  destruct (SFcompare (Prim2SF y) (Prim2SF z)) as [[]|] eqn:C2; try discriminate.
  rewrite (SFcompare_trans _ _ _ _ C1 C2). reflexivity.
Qed.

Lemma leb_ltb_trans (x y z : float) :
  (x <=? y) = true -> (y <? z) = true -> (x <? z) = true.
Proof.
  rewrite leb_spec, !ltb_spec. unfold SFleb, SFltb. intros H1 H2.
  destruct (SFcompare (Prim2SF x) (Prim2SF y)) as [[]|] eqn:C1; try discriminate.
  - rewrite (SFcompare_eq_l _ _ (Prim2SF z) C1). exact H2.
  - destruct (SFcompare (Prim2SF y) (Prim2SF z)) as [[]|] eqn:C2; try discriminate.
    rewrite (SFcompare_trans _ _ _ _ C1 C2). reflexivity.
Qed.

(** A number strictly below another one is below +infinity and is not
    NaN. *)
Lemma ltb_below_inf (x y : float) : (x <? y) = true -> (x <? inf) = true.
Proof.
  rewrite !ltb_spec. unfold SFltb.
  change (Prim2SF inf) with (S754_infinity false).
  destruct (Prim2SF x) as [s1|s1| |s1 m1 e1], (Prim2SF y) as [s2|s2| |s2 m2 e2];
    simpl; try destruct s1; try destruct s2; congruence.
Qed.

Lemma below_inf_not_nan (x : float) : (x <? inf) = true -> is_nan x = false.
Proof.
  unfold is_nan. rewrite ltb_spec, FloatAxioms.eqb_spec. unfold SFltb, SFeqb.
  change (Prim2SF inf) with (S754_infinity false).
  pose proof (SFcompare_refl_not_lt (Prim2SF x)) as Hrefl.
  destruct (Prim2SF x) as [s1|s1| |s1 m1 e1]; simpl in *;
    try destruct s1; try congruence; try reflexivity.
  all: intros _; rewrite Z.compare_refl;
    change (Pos.compare_cont Eq m1 m1) with (Pos.compare m1 m1);
    rewrite Pos.compare_refl; reflexivity.
Qed.

End FloatOrderMore.

(** ** Reached and unreached cells *)

Section ReachedCells.

Local Open Scope float_scope.

Lemma reachable_head (slowness : ndarray float) (dx : float) (ny nx : Z)
    (c0 c : config) :
  reachable slowness dx ny nx c0 c ->
  c = c0 \/
  exists c1, micro_step slowness dx ny nx c0 = Some c1 /\
             reachable slowness dx ny nx c1 c.
Proof.
  induction 1 as [|c c' Hreach IH Hstep]; [left; reflexivity|].
  right. destruct IH as [->|(c1 & H1 & Hrest)].
  - exists c'. split; [exact Hstep|constructor].
  - exists c1. split; [exact H1|]. exact (reach_step _ _ _ _ _ _ _ Hrest Hstep).
Qed.

(** A run is a single sequence of statements: of two configurations of a
    run, one comes before the other. *)
Lemma reachable_linear (slowness : ndarray float) (dx : float) (ny nx : Z)
    (c0 a b : config) :
  reachable slowness dx ny nx c0 a -> reachable slowness dx ny nx c0 b ->
  reachable slowness dx ny nx a b \/ reachable slowness dx ny nx b a.
Proof.
  intros Ha Hb. induction Ha as [|a a' Ha IH Hstep]; [left; exact Hb|].
  destruct IH as [Hab|Hba].
  - destruct (reachable_head _ _ _ _ _ _ Hab) as [->|(a1 & H1 & Hrest)].
    + right. apply (reach_step _ _ _ _ _ a); [constructor|exact Hstep].
    + left. congruence.
  - right. exact (reach_step _ _ _ _ _ _ _ Hba Hstep).
Qed.

(** Nothing follows the head of the loop once the band is empty. *)
Lemma reachable_from_end (slowness : ndarray float) (dx : float) (ny nx : Z)
    (st : fmm_state) (c : config) :
  st_heap st = [] ->
  reachable slowness dx ny nx (Config st None) c -> c = Config st None.
Proof.
  intros Hnil Hreach.
  destruct (reachable_head _ _ _ _ _ _ Hreach) as [->|(c1 & H1 & _)];
    [reflexivity|].
  unfold micro_step in H1. cbn [c_state c_pending] in H1.
  rewrite Hnil in H1. discriminate.
Qed.

(** Along a run the time stored for a cell stays or gets lower. *)
Lemma reachable_T_decreases (slowness : ndarray float) (dx : float)
    (ny nx : Z) (c c' : config) (y x : Z) :
  (0 < ny < 2 ^ 31)%Z -> (0 < nx < 2 ^ 31)%Z ->
  fmm_inv ny nx (c_state c) -> reachable slowness dx ny nx c c' ->
  fitem (st_T (c_state c')) y x = fitem (st_T (c_state c)) y x \/
  (fitem (st_T (c_state c')) y x <? fitem (st_T (c_state c)) y x) = true.
Proof.
  intros Hny Hnx Hinv Hreach.
  induction Hreach as [|c1 c2 Hreach1 IH Hstep]; [left; reflexivity|].
  destruct (micro_step_ok slowness dx ny nx Hny Hnx c1 c2
              (reachable_inv slowness dx ny nx Hny Hnx _ _ Hinv Hreach1) Hstep)
    as [_ (Hdec & _)].
  destruct (Hdec y x) as [He|Hlt], IH as [He'|Hlt'].
  - left. congruence.
  - right. rewrite He. exact Hlt'.
  - right. rewrite <- He'. exact Hlt.
  - right. exact (ltb_trans _ _ _ Hlt Hlt').
Qed.

(** Some statement of the run from source [(sy, sx)] lowers the time
    stored for cell [(y, x)]: line 54 is executed for it at least once. *)
Definition time_stored (n_field : ndarray float) (dx : float) (sy sx y x : Z)
    : Prop :=
  exists c c' : config,
    reachable n_field dx (shape0 n_field) (shape1 n_field)
      (Config (fmm_init n_field sy sx) None) c /\
    micro_step n_field dx (shape0 n_field) (shape1 n_field) c = Some c' /\
    (fitem (st_T (c_state c')) y x <? fitem (st_T (c_state c)) y x) = true.

(** At every point of the run, a cell other than the source holds
    +infinity unless a time was stored for it. *)
Lemma reachable_inf_or_stored (n_field : ndarray float) (dx : float)
    (sy sx : Z) (c : config) :
  (0 < shape0 n_field < 2 ^ 31)%Z -> (0 < shape1 n_field < 2 ^ 31)%Z ->
  (0 <= sy < shape0 n_field)%Z -> (0 <= sx < shape1 n_field)%Z ->
  reachable n_field dx (shape0 n_field) (shape1 n_field)
    (Config (fmm_init n_field sy sx) None) c ->
  forall y x : Z,
    (0 <= y < shape0 n_field)%Z -> (0 <= x < shape1 n_field)%Z ->
    (y, x) <> (sy, sx) ->
    fitem (st_T (c_state c)) y x = inf \/ time_stored n_field dx sy sx y x.
Proof.
  intros Hny Hnx Hsy Hsx Hreach y x Hy Hx Hne.
  pose proof (index_ok_in_grid _ _ Hsy) as Hsy'.
  pose proof (index_ok_in_grid _ _ Hsx) as Hsx'.
  pose proof (fmm_init_inv n_field _ _ Hny Hnx eq_refl eq_refl sy sx Hsy' Hsx')
    as Hinv0.
  induction Hreach as [|c c' Hreach IH Hstep].
  - left. cbn [c_state].
    destruct (untouched_inf_init n_field _ _ Hny Hnx eq_refl eq_refl sy sx
                Hsy' Hsx' (conj Hsy Hsx) y x (conj Hy Hx))
      as [Hinf|[Hsrc|(d & _ & _ & Hfr)]]; [exact Hinf|contradiction|].
    rewrite (fmm_init_eq n_field _ _ Hny Hnx eq_refl eq_refl sy sx Hsy' Hsx')
      in Hfr.
    cbn [st_frozen] in Hfr. rewrite bitem_full_false in Hfr. discriminate.
  - destruct IH as [Hinf|Hst]; [|right; exact Hst].
    destruct (micro_step_ok n_field dx _ _ Hny Hnx c c'
                (reachable_inv n_field dx _ _ Hny Hnx
                   (Config (fmm_init n_field sy sx) None) _ Hinv0 Hreach) Hstep)
      as [_ (Hdec & _)].
    destruct (Hdec y x) as [He|Hlt].
    + left. congruence.
    + right. exists c, c'. auto.
Qed.

(** C6: from a source inside the grid the solver returns (with
    [fuel_bound] fuel or more, always the same field), and the returned
    field holds exactly 0 at the source.  A cell is reached when some
    statement of the run stores a time for it ([time_stored]).  Every
    other cell of the grid that was never reached holds exactly +infinity
    in the returned field, and every reached cell holds a time below
    +infinity: the cells left at +infinity are exactly the unreached ones.
    In particular a cell none of whose four neighbours was ever frozen
    holds +infinity. *)
Theorem solve_eikonal_source_and_unreached (n_field : ndarray float)
    (sy sx : Z) (dx : float) :
  grid_ok n_field ->
  (0 <= sy < shape0 n_field)%Z -> (0 <= sx < shape1 n_field)%Z ->
  exists st : fmm_state,
    (forall fuel : nat,
       (fuel_bound (shape0 n_field) (shape1 n_field) <= fuel)%nat ->
       _fmm_run fuel n_field sy sx dx = Done st /\
       solve_eikonal fuel n_field (sy, sx) dx = Done (st_T st)) /\
    fitem (st_T st) sy sx = 0 /\
    (forall y x : Z,
       (0 <= y < shape0 n_field)%Z -> (0 <= x < shape1 n_field)%Z ->
       (y, x) <> (sy, sx) ->
       (fitem (st_T st) y x = inf \/ time_stored n_field dx sy sx y x) /\
       (~ has_frozen_neighbor (shape0 n_field) (shape1 n_field) st y x ->
        fitem (st_T st) y x = inf)) /\
    (forall y x : Z,
       time_stored n_field dx sy sx y x ->
       (fitem (st_T st) y x <? inf) = true).
Proof.
  intros [Hny Hnx] Hsy Hsx.
  pose proof (index_ok_in_grid _ _ Hsy) as Hsy'.
  pose proof (index_ok_in_grid _ _ Hsx) as Hsx'.
  pose proof (fmm_init_inv n_field _ _ Hny Hnx eq_refl eq_refl sy sx Hsy' Hsx')
    as Hinv0.
  destruct (fmm_run_valid n_field dx _ _ Hny Hnx eq_refl eq_refl sy sx Hsy' Hsx'
              (conj Hsy Hsx))
    as (st & Hrun & Hnil & _ & _ & HT & Hun).
  pose proof (fmm_loop_reachable n_field dx _ _ _ _ _ (Hrun _ (le_n _)))
    as Hend.
  exists st. split; [|split; [exact HT|split]].
  - intros fuel Hfuel. apply run_from_init; auto.
  - intros y x Hy Hx Hne. split.
    + exact (reachable_inf_or_stored n_field dx sy sx _ Hny Hnx Hsy Hsx Hend
               y x Hy Hx Hne).
    + intros Hnb.
      destruct (Hun y x (conj Hy Hx)) as [Hinf|[Hsrc|Hfz]]; [exact Hinf| |];
        contradiction.
  - intros y x (c & c' & Hc & Hstep & Hlt).
    assert (Hc' : reachable n_field dx (shape0 n_field) (shape1 n_field)
                    (Config (fmm_init n_field sy sx) None) c')
      by exact (reach_step _ _ _ _ _ _ _ Hc Hstep).
    assert (Hlast : reachable n_field dx (shape0 n_field) (shape1 n_field)
                      c' (Config st None)).
    { destruct (reachable_linear _ _ _ _ _ _ _ Hc' Hend) as [H|H]; [exact H|].
      rewrite (reachable_from_end _ _ _ _ _ _ Hnil H). constructor. }
    pose proof (reachable_inv n_field dx _ _ Hny Hnx
                  (Config (fmm_init n_field sy sx) None) _ Hinv0 Hc') as Hinv'.
    destruct (reachable_T_decreases n_field dx _ _ _ _ y x Hny Hnx Hinv' Hlast)
      as [He|Hlt'].
    + cbn [c_state] in He. rewrite He. exact (ltb_below_inf _ _ Hlt).
    + exact (ltb_below_inf _ _ Hlt').
Qed.

(** A row of three cells whose middle cell is an obstacle: with spacing 10
    its slowness times the spacing overflows to +infinity. *)
Definition barrier_field : ndarray float := of_rows [[1; 1e308; 1]].

(** On [barrier_field] the run freezes the source alone; the obstacle,
    although next to it, and the cell behind the obstacle are never
    reached and hold +infinity. *)

Lemma solve_eikonal_source_and_unreached_witness :
  exists st : fmm_state,
    ((forall fuel : nat,
        (fuel_bound (shape0 barrier_field) (shape1 barrier_field) <= fuel)%nat ->
        _fmm_run fuel barrier_field 0 0 10 = Done st /\
        solve_eikonal fuel barrier_field (0%Z, 0%Z) 10 = Done (st_T st)) /\
     fitem (st_T st) 0 0 = 0 /\
     (forall y x : Z,
        (0 <= y < shape0 barrier_field)%Z -> (0 <= x < shape1 barrier_field)%Z ->
        (y, x) <> (0%Z, 0%Z) ->
        (fitem (st_T st) y x = inf \/ time_stored barrier_field 10 0 0 y x) /\
        (~ has_frozen_neighbor (shape0 barrier_field) (shape1 barrier_field)
             st y x ->
         fitem (st_T st) y x = inf)) /\
     (forall y x : Z,
        time_stored barrier_field 10 0 0 y x ->
        (fitem (st_T st) y x <? inf) = true)) /\
    st_T st = NdArray 1 3 [0; inf; inf] /\
    st_frozen st = NdArray 1 3 [true; false; false].
Proof.
  destruct (solve_eikonal_source_and_unreached barrier_field 0 0 10)
    as (st & Hst); [split; split; reflexivity|split; [discriminate|reflexivity]..|].
  exists st. split; [exact Hst|].
  destruct Hst as (Hrun & _).
  destruct (Hrun (fuel_bound (shape0 barrier_field) (shape1 barrier_field))
              (le_n _)) as [Hfmm _].
  assert (Hval : _fmm_run (fuel_bound (shape0 barrier_field) (shape1 barrier_field))
                   barrier_field 0 0 10
                 = Done (FmmState (NdArray 1 3 [0; inf; inf])
                                  (NdArray 1 3 [true; false; false])
                                  [] [0] [(0%Z, 0%Z)]))
    by (vm_compute; reflexivity).
  rewrite Hfmm in Hval. injection Hval as ->. split; reflexivity.
Defined.

End ReachedCells.

(** ** Selecting and removing the least band entry *)

Section BandFacts.

(** The scan of lines 41-42 keeps, for the prefix seen so far, an entry
    that none is strictly below and that every earlier entry is not even
    equal to. *)
Lemma scan_min_least (heap : list entry) :
  forall (l : list entry) (i mi : nat) (mt : float),
    drop i heap = l ->
    (exists e, heap !! mi = Some e /\ entry_t e = mt) ->
    (forall j e', (j < i)%nat -> heap !! j = Some e' -> (entry_t e' <? mt)%float = false) ->
    (forall j e', (j < mi)%nat -> heap !! j = Some e' -> (entry_t e' <=? mt)%float = false) ->
    exists e, heap !! (scan_min l i mi mt).1 = Some e /\
      (forall j e', heap !! j = Some e' -> (entry_t e' <? entry_t e)%float = false) /\
      (forall j e', (j < (scan_min l i mi mt).1)%nat -> heap !! j = Some e' ->
                    (entry_t e' <=? entry_t e)%float = false).
Proof.
  induction l as [|e0 l IH]; intros i mi mt Hdrop (e & He & Hmt) Hleast Hfirst.
  - simpl. exists e. split; [exact He|]. subst mt. split; [|exact Hfirst].
    intros j e' Hj. apply (Hleast j e'); [|exact Hj].
    apply lookup_lt_Some in Hj.
    apply (f_equal length) in Hdrop. rewrite length_drop in Hdrop.
    simpl in Hdrop. lia.
  - assert (Hi : heap !! i = Some e0).
    { rewrite <- (Nat.add_0_r i), <- lookup_drop, Hdrop. reflexivity. }
    assert (Hdrop' : drop (S i) heap = l).
    { rewrite (drop_S _ _ _ Hi) in Hdrop. congruence. }
    simpl. destruct (entry_t e0 <? mt)%float eqn:Hlt.
    + apply IH; [exact Hdrop'|exists e0; auto| |].
      * intros j e' Hj He'.
        destruct (decide (j = i)) as [->|Hne].
        -- rewrite Hi in He'. inversion He'; subst. apply ltb_irrefl.
        -- destruct (entry_t e' <? entry_t e0)%float eqn:Hc; [|reflexivity].
           rewrite <- (Hleast j e'); [|lia|exact He'].
           symmetry. apply (ltb_trans _ _ _ Hc Hlt).
      * intros j e' Hj He'.
        destruct (entry_t e' <=? entry_t e0)%float eqn:Hc; [|reflexivity].
        rewrite <- (Hleast j e'); [|lia|exact He'].
        symmetry. apply (leb_ltb_trans _ _ _ Hc Hlt).
    + apply IH; [exact Hdrop'|exists e; auto| |exact Hfirst].
      intros j e' Hj He'.
      destruct (decide (j = i)) as [->|Hne].
      * rewrite Hi in He'. inversion He'; subst. exact Hlt.
      * apply (Hleast j e'); [lia|exact He'].
Qed.

(** X1: the entry selected by the scan of lines 40-42 is a least entry of
    the band, and the first such: no entry of the band has a time strictly
    below the selected one, and no entry before it has a time below or
    equal to it. *)
Theorem argmin_selects_first_least (heap : list entry) (e : entry) :
  heap !! argmin heap = Some e ->
  (forall j e', heap !! j = Some e' -> (entry_t e' <? entry_t e)%float = false) /\
  (forall j e', (j < argmin heap)%nat -> heap !! j = Some e' ->
                (entry_t e' <=? entry_t e)%float = false).
Proof.
  destruct heap as [|e0 l]; [discriminate|]. intros He.
  destruct (scan_min_least (e0 :: l) l 1 0 (entry_t e0)) as (e1 & He1 & H1 & H2).
  - reflexivity.
  - exists e0. split; reflexivity.
  - intros [|j] e' Hj He'; [|lia]. inversion He'; subst. apply ltb_irrefl.
  - intros j e' Hj. lia.
  - unfold argmin in *. rewrite He1 in He. inversion He; subst. split; assumption.
Qed.

Lemma argmin_selects_first_least_witness :
  let heap := [(2%float, 0, 0); (1%float, 0, 1); (3%float, 1, 0); (1%float, 1, 1)] in
  (forall j e', heap !! j = Some e' -> (entry_t e' <? 1)%float = false) /\
  (forall j e', (j < argmin heap)%nat -> heap !! j = Some e' ->
                (entry_t e' <=? 1)%float = false).
Proof.
  apply (argmin_selects_first_least
           [(2%float, 0, 0); (1%float, 0, 1); (3%float, 1, 0); (1%float, 1, 1)] (1%float, 0, 1)).
  reflexivity.
Defined.

(** X2: removing slot [mi] (lines 44-46) takes exactly the entry of that
    slot out of the band: the band before is a permutation of that entry
    followed by the band after. *)
Theorem remove_at_permutation (heap : list entry) (mi : nat) (e : entry) :
  heap !! mi = Some e -> heap ≡ₚ e :: remove_at heap mi.
Proof.
  intros He. pose proof (lookup_lt_Some _ _ _ He) as Hlt.
  unfold remove_at. cbv zeta.
  destruct (lookup_lt_is_Some_2 heap (length heap - 1)) as [last Hlast]; [lia|].
  rewrite Hlast.
  assert (Hsplit : heap = take (length heap - 1) heap ++ [last]).
  { rewrite <- (take_drop (length heap - 1) heap) at 1. f_equal.
    rewrite (drop_S _ _ _ Hlast).
    rewrite drop_ge by lia. reflexivity. }
  destruct (mi <? length heap - 1)%nat eqn:Hmi.
  - apply Nat.ltb_lt in Hmi.
    assert (Hfront : take (length heap - 1) heap !! mi = Some e).
    { rewrite lookup_take_lt by lia. exact He. }
    rewrite insert_take_drop by (rewrite length_take; lia).
    rewrite Hsplit at 1.
    rewrite <- (take_drop_middle _ _ _ Hfront) at 1.
    rewrite <- app_assoc. simpl.
    etransitivity; [symmetry; apply Permutation_middle|].
    apply perm_skip. apply Permutation_app_head.
    symmetry. apply Permutation_cons_append.
  - apply Nat.ltb_ge in Hmi.
    assert (mi = (length heap - 1)%nat) as -> by lia.
    assert (e = last) as -> by congruence.
    rewrite Hsplit at 1. symmetry. apply Permutation_cons_append.
Qed.

Lemma remove_at_permutation_witness :
  [(2%float, 0, 0); (1%float, 0, 1); (3%float, 1, 0); (1%float, 1, 1)]
  ≡ₚ (1%float, 0, 1) :: remove_at [(2%float, 0, 0); (1%float, 0, 1); (3%float, 1, 0); (1%float, 1, 1)] 1.
Proof.
  apply (remove_at_permutation
           [(2%float, 0, 0); (1%float, 0, 1); (3%float, 1, 0); (1%float, 1, 1)] 1 (1%float, 0, 1)).
  reflexivity.
Defined.

End BandFacts.

(** ** What the band holds during a run *)

Section BandInvariant.

Variable slowness : ndarray float.
Variable dx : float.
Variables ny nx : Z.

Hypothesis Hny : 0 < ny < 2 ^ 31.
Hypothesis Hnx : 0 < nx < 2 ^ 31.

(** The time stored for the cell of entry [e] is the time of the entry, or
    a time strictly below it (then the entry is stale). *)
Definition entry_current (T : ndarray float) (e : entry) : Prop :=
  fitem T (entry_y e) (entry_x e) = entry_t e \/
  (fitem T (entry_y e) (entry_x e) <? entry_t e)%float = true.

Record band_inv (st : fmm_state) : Prop := BandInv {
  binv_cap : Z.of_nat (length (st_heap st)) <= ny * nx;
  binv_nan : Forall (fun t => is_nan t = false) (data (st_T st));
  binv_fin : Forall (fun e => (entry_t e <? inf)%float = true) (st_heap st);
  binv_cur : Forall (entry_current (st_T st)) (st_heap st);
  binv_frz : forall y x, bitem (st_frozen st) y x = true ->
                         (fitem (st_T st) y x <? inf)%float = true
}.

Lemma cell_in_range (st : fmm_state) (y x : Z) :
  fmm_inv ny nx st -> index_ok y ny = true -> index_ok x nx = true ->
  (flat (st_T st) y x < length (data (st_T st)))%nat.
Proof.
  intros Hinv Hy Hx. apply flat_in_range.
  - rewrite (inv_Tlen _ _ _ Hinv), (inv_T0 _ _ _ Hinv), (inv_T1 _ _ _ Hinv).
    reflexivity.
  - rewrite (inv_T0 _ _ _ Hinv). exact Hy.
  - rewrite (inv_T1 _ _ _ Hinv). exact Hx.
Qed.

Lemma flat_T_frozen (st : fmm_state) (y x : Z) :
  fmm_inv ny nx st -> flat (st_T st) y x = flat (st_frozen st) y x.
Proof.
  intros Hinv. apply flat_same_shape.
  - rewrite (inv_T0 _ _ _ Hinv), (inv_F0 _ _ _ Hinv). reflexivity.
  - rewrite (inv_T1 _ _ _ Hinv), (inv_F1 _ _ _ Hinv). reflexivity.
Qed.

(** Lowering the time of one cell keeps every entry current or stale. *)
Lemma entry_current_lowered (T : ndarray float) (a b : Z) (v : float) (e : entry) :
  (v <? fitem T a b)%float = true ->
  entry_current T e -> entry_current (setitem T a b v) e.
Proof.
  intros Hlt Hcur. unfold entry_current in *.
  destruct (decide (flat T (entry_y e) (entry_x e) = flat T a b)) as [He|Hne].
  - destruct (decide (flat T a b < length (data T))%nat) as [Hin|Hout].
    + right. unfold fitem in *.
      rewrite (item_setitem_same _ _ _ _ _ _ _ He Hin).
      rewrite (item_flat_eq _ _ _ _ _ _ He) in Hcur.
      destruct Hcur as [<-|Hcur]; [exact Hlt|].
      exact (ltb_trans _ _ _ Hlt Hcur).
    + rewrite setitem_out_of_range by lia. exact Hcur.
  - unfold fitem in *. rewrite item_setitem_other by exact Hne. exact Hcur.
Qed.

Lemma update_neighbor_band_inv (st : fmm_state) (a b : Z) :
  fmm_inv ny nx st -> band_inv st ->
  band_inv (update_neighbor slowness dx ny nx st a b).
Proof.
  intros Hinv [Hcap Hnan Hfin Hcur Hfrz].
  destruct (update_neighbor_cases slowness dx ny nx st a b)
    as [->|(Hg & Hf & Hlt & ->)]; [constructor; assumption|].
  pose proof (ltb_below_inf _ _ Hlt) as Hbelow.
  constructor; cbn [st_T st_frozen st_heap].
  - destruct (push_cases ny nx (st_heap st) (candidate slowness dx ny nx st a b) a b)
      as [->|[Hroom ->]]; [exact Hcap|].
    rewrite length_app. simpl. lia.
  - cbn [setitem data]. apply Forall_insert; [exact Hnan|].
    apply below_inf_not_nan. exact Hbelow.
  - destruct (push_cases ny nx (st_heap st) (candidate slowness dx ny nx st a b) a b)
      as [->|[_ ->]]; [exact Hfin|].
    apply Forall_app. split; [exact Hfin|]. constructor; [exact Hbelow|constructor].
  - assert (Hold : Forall (entry_current (setitem (st_T st) a b
                             (candidate slowness dx ny nx st a b))) (st_heap st)).
    { eapply Forall_impl; [exact Hcur|]. intros e He.
      apply entry_current_lowered; assumption. }
    destruct (push_cases ny nx (st_heap st) (candidate slowness dx ny nx st a b) a b)
      as [->|[_ ->]]; [exact Hold|].
    apply Forall_app. split; [exact Hold|]. constructor; [|constructor].
    left. unfold entry_y, entry_x, entry_t. cbn [fst snd].
    destruct Hg as [Ha Hb]. rewrite !to_int32_id by lia.
    unfold fitem. apply item_setitem_same; [reflexivity|].
    apply cell_in_range; [exact Hinv|apply index_ok_in_grid; lia..].
  - intros y x Hfr. unfold fitem. rewrite item_setitem_other; [exact (Hfrz y x Hfr)|].
    intros He. rewrite !(flat_T_frozen st _ _ Hinv) in He.
    unfold bitem in *. rewrite (item_flat_eq _ _ _ _ _ _ He) in Hfr. congruence.
Qed.

Lemma popped_band_inv (st : fmm_state) (e : entry) :
  band_inv st -> band_inv (popped st e).
Proof.
  intros [Hcap Hnan Hfin Hcur Hfrz].
  constructor; cbn [popped st_T st_frozen st_heap]; auto using remove_at_Forall.
  rewrite remove_at_length. lia.
Qed.

Lemma froze_cell_band_inv (st : fmm_state) (e : entry) :
  fmm_inv ny nx st -> band_inv st ->
  st_heap st !! argmin (st_heap st) = Some e ->
  band_inv (froze_cell ny nx st e).
Proof.
  intros Hinv [Hcap Hnan Hfin Hcur Hfrz] He.
  constructor; cbn [froze_cell st_T st_frozen st_heap]; auto using remove_at_Forall.
  - rewrite remove_at_length. lia.
  - intros y x Hfr.
    destruct (bitem (st_frozen st) y x) eqn:Hold; [exact (Hfrz y x Hold)|].
    assert (Hflat : flat (st_frozen st) y x
                    = flat (st_frozen st) (entry_y e) (entry_x e)).
    { destruct (decide (flat (st_frozen st) y x
                        = flat (st_frozen st) (entry_y e) (entry_x e)))
        as [Heq|Hne]; [exact Heq|].
      unfold bitem in *. rewrite item_setitem_other in Hfr by exact Hne.
      congruence. }
    rewrite <- !(flat_T_frozen st _ _ Hinv) in Hflat.
    unfold fitem. rewrite (item_flat_eq _ _ _ _ _ _ Hflat).
    pose proof (Forall_lookup_1 _ _ _ _ Hfin He) as Hbelow.
    destruct (Forall_lookup_1 _ _ _ _ Hcur He) as [Heq|Hlt].
    + unfold fitem in Heq. rewrite Heq. exact Hbelow.
    + exact (ltb_trans _ _ _ Hlt Hbelow).
Qed.

Lemma micro_step_band_inv (c c' : config) :
  fmm_inv ny nx (c_state c) -> band_inv (c_state c) ->
  micro_step slowness dx ny nx c = Some c' -> band_inv (c_state c').
Proof.
  intros Hinv Hband Hstep. unfold micro_step in Hstep. cbv zeta in Hstep.
  destruct c as [st pending]. cbn [c_state c_pending] in *.
  destruct pending as [[[y x] [|d ds]]|].
  - inversion Hstep; subst. exact Hband.
  - inversion Hstep; subst. cbn [c_state].
    apply update_neighbor_band_inv; assumption.
  - destruct (st_heap st !! argmin (st_heap st)) as [e|] eqn:He; [|discriminate].
    destruct (bitem (st_frozen st) (entry_y e) (entry_x e));
      inversion Hstep; subst; cbn [c_state].
    + apply popped_band_inv. exact Hband.
    + apply froze_cell_band_inv; assumption.
Qed.

Lemma reachable_band_inv (c0 c : config) :
  fmm_inv ny nx (c_state c0) -> band_inv (c_state c0) ->
  reachable slowness dx ny nx c0 c -> band_inv (c_state c).
Proof.
  intros Hinv0 Hband0 Hreach.
  induction Hreach as [|c c' Hreach IH Hstep]; [exact Hband0|].
  apply (micro_step_band_inv c c'); [|exact IH|exact Hstep].
  exact (reachable_inv slowness dx ny nx Hny Hnx c0 c Hinv0 Hreach).
Qed.

Hypothesis Hshape0 : shape0 slowness = ny.
Hypothesis Hshape1 : shape1 slowness = nx.

Variables sy sx : Z.
Hypothesis Hsy : index_ok sy ny = true.
Hypothesis Hsx : index_ok sx nx = true.

Lemma fmm_init_band_inv : band_inv (fmm_init slowness sy sx).
Proof.
  pose proof (fmm_init_T_source slowness ny nx Hny Hnx Hshape0 Hshape1 sy sx Hsy Hsx)
    as Hsrc.
  rewrite (fmm_init_eq slowness ny nx Hny Hnx Hshape0 Hshape1 sy sx Hsy Hsx) in *.
  constructor; cbn [st_T st_frozen st_heap] in *.
  - simpl. nia.
  - cbn [setitem full data]. apply Forall_insert; [|reflexivity].
    apply Forall_replicate. reflexivity.
  - constructor; [reflexivity|constructor].
  - constructor; [|constructor]. left. exact Hsrc.
  - intros y x Hfr. rewrite bitem_full_false in Hfr. discriminate.
Qed.

(** Both invariants hold in every configuration of a run. *)
Lemma run_invariants (c : config) :
  reachable slowness dx ny nx (Config (fmm_init slowness sy sx) None) c ->
  fmm_inv ny nx (c_state c) /\ band_inv (c_state c).
Proof.
  intros Hreach.
  pose proof (fmm_init_inv slowness ny nx Hny Hnx Hshape0 Hshape1 sy sx Hsy Hsx)
    as Hinit.
  split.
  - exact (reachable_inv slowness dx ny nx Hny Hnx
             (Config (fmm_init slowness sy sx) None) c Hinit Hreach).
  - exact (reachable_band_inv (Config (fmm_init slowness sy sx) None) c
             Hinit fmm_init_band_inv Hreach).
Qed.

End BandInvariant.

(** ** Counting the iterations *)

Section LoopCounts.

Variable slowness : ndarray float.
Variable dx : float.
Variables ny nx : Z.

Hypothesis Hny : 0 < ny < 2 ^ 31.
Hypothesis Hnx : 0 < nx < 2 ^ 31.

(** A property kept by the iterations holds when the loop ends. *)
Lemma fmm_loop_invariant (P : fmm_state -> Prop) :
  (forall s, fmm_inv ny nx s -> P s -> st_heap s <> [] ->
             P (fmm_iter slowness dx ny nx s)) ->
  forall (fuel : nat) (st st' : fmm_state),
    fmm_inv ny nx st -> P st ->
    fmm_loop slowness dx ny nx fuel st = Some st' ->
    fmm_inv ny nx st' /\ P st' /\ st_heap st' = [].
Proof.
  intros Hstep. induction fuel as [|fuel IH]; intros st st' Hinv HP Hrun;
    simpl in Hrun; destruct (st_heap st) as [|e l] eqn:Hheap;
    try discriminate.
  - inversion Hrun; subst. auto.
  - inversion Hrun; subst. auto.
  - apply (IH (fmm_iter slowness dx ny nx st)); [| |exact Hrun].
    + apply fmm_iter_inv; assumption.
    + apply Hstep; [exact Hinv|exact HP|]. rewrite Hheap. discriminate.
Qed.

(** What one iteration appends to the two logs. *)
Lemma fmm_iter_logs (st : fmm_state) :
  fmm_inv ny nx st -> st_heap st <> [] ->
  exists e, st_heap st !! argmin (st_heap st) = Some e /\
    st_pops (fmm_iter slowness dx ny nx st) = st_pops st ++ [entry_t e] /\
    ((st_frozen (fmm_iter slowness dx ny nx st) = st_frozen st /\
      st_froze (fmm_iter slowness dx ny nx st) = st_froze st) \/
     (bitem (st_frozen st) (entry_y e) (entry_x e) = false /\
      st_frozen (fmm_iter slowness dx ny nx st)
        = setitem (st_frozen st) (entry_y e) (entry_x e) true /\
      st_froze (fmm_iter slowness dx ny nx st)
        = st_froze st ++ [(wrap_index (entry_y e) ny, wrap_index (entry_x e) nx)])).
Proof.
  intros Hinv Hne.
  destruct (fmm_iter_cases slowness dx ny nx st)
    as [[Hnil _]|(e & He & [[_ ->]|[Hfresh ->]])]; [congruence| |].
  - exists e. split; [exact He|]. split; [reflexivity|]. left. split; reflexivity.
  - exists e. split; [exact He|].
    rewrite update_neighbors_pops, update_neighbors_frozen, update_neighbors_froze.
    split; [reflexivity|]. right. split; [exact Hfresh|]. split; reflexivity.
Qed.

(** The bookkeeping behind the bounds: the termination measure pays for
    every pop, and every freeze turns one unfrozen cell into a frozen
    one. *)
Definition counts_ok (st : fmm_state) : Prop :=
  (measure st + length (st_pops st) <= 4 * Z.to_nat (ny * nx) + 1)%nat /\
  (count_false (data (st_frozen st)) + length (st_froze st)
   = Z.to_nat (ny * nx))%nat /\
  (length (st_froze st) <= length (st_pops st))%nat.

Lemma fmm_iter_counts (st : fmm_state) :
  fmm_inv ny nx st -> counts_ok st -> st_heap st <> [] ->
  counts_ok (fmm_iter slowness dx ny nx st).
Proof.
  intros Hinv (Hm & Hc & Hl) Hne.
  pose proof (fmm_iter_measure slowness dx ny nx st Hinv Hne) as Hdec.
  destruct (fmm_iter_logs st Hinv Hne) as (e & He & Hpops & Hlog).
  unfold counts_ok. rewrite Hpops, length_app. simpl.
  split; [lia|].
  destruct Hlog as [[-> ->]|(Hfresh & -> & ->)]; [split; lia|].
  rewrite length_app. simpl. split; [|lia].
  destruct (Forall_lookup_1 _ _ _ _ (inv_heap _ _ _ Hinv) He) as [Hy Hx].
  assert (Hin : (flat (st_frozen st) (entry_y e) (entry_x e)
                 < length (data (st_frozen st)))%nat).
  { apply flat_in_range.
    - rewrite (inv_Flen _ _ _ Hinv), (inv_F0 _ _ _ Hinv), (inv_F1 _ _ _ Hinv).
      reflexivity.
    - rewrite (inv_F0 _ _ _ Hinv). exact Hy.
    - rewrite (inv_F1 _ _ _ Hinv). exact Hx. }
  pose proof (count_false_insert _ _ (bitem_false_lookup _ _ _ Hin Hfresh)) as Hcf.
  cbn [setitem data]. lia.
Qed.

Hypothesis Hshape0 : shape0 slowness = ny.
Hypothesis Hshape1 : shape1 slowness = nx.

Variables sy sx : Z.
Hypothesis Hsy : index_ok sy ny = true.
Hypothesis Hsx : index_ok sx nx = true.

Lemma fmm_init_counts : counts_ok (fmm_init slowness sy sx).
Proof.
  unfold counts_ok.
  rewrite (fmm_init_measure slowness ny nx Hny Hnx Hshape0 Hshape1 sy sx Hsy Hsx).
  rewrite (fmm_init_eq slowness ny nx Hny Hnx Hshape0 Hshape1 sy sx Hsy Hsx).
  cbn [st_pops st_froze st_frozen full data].
  rewrite count_false_replicate. simpl. lia.
Qed.

(** The logs start with the source. *)
Definition logs_start_at_source (st : fmm_state) : Prop :=
  exists pops froze,
    st_pops st = 0%float :: pops /\
    st_froze st = (wrap_index sy ny, wrap_index sx nx) :: froze.

Lemma fmm_iter_logs_start (st : fmm_state) :
  fmm_inv ny nx st ->
  st = fmm_init slowness sy sx \/ logs_start_at_source st ->
  st_heap st <> [] ->
  logs_start_at_source (fmm_iter slowness dx ny nx st).
Proof.
  intros Hinv [->|(pops & froze & Hp & Hf)] Hne.
  - rewrite (fmm_iter_init slowness dx ny nx Hny Hnx Hshape0 Hshape1 sy sx Hsy Hsx).
    unfold logs_start_at_source.
    rewrite update_neighbors_pops, update_neighbors_froze.
    rewrite (fmm_init_eq slowness ny nx Hny Hnx Hshape0 Hshape1 sy sx Hsy Hsx).
    cbn [froze_cell st_pops st_froze]. simpl. eauto.
  - destruct (fmm_iter_logs st Hinv Hne) as (e & _ & Hpops & Hlog).
    unfold logs_start_at_source. rewrite Hpops, Hp.
    destruct Hlog as [[_ ->]|(_ & _ & ->)]; rewrite Hf; simpl; eauto.
Qed.

(** The end of a run that returned. *)
Lemma run_done (fuel : nat) (st : fmm_state) :
  fmm_loop slowness dx ny nx fuel (fmm_init slowness sy sx) = Some st ->
  fmm_inv ny nx st /\ st_heap st = [] /\ counts_ok st /\ logs_start_at_source st.
Proof.
  intros Hrun.
  pose proof (fmm_init_inv slowness ny nx Hny Hnx Hshape0 Hshape1 sy sx Hsy Hsx)
    as Hinit.
  destruct (fmm_loop_invariant
              (fun s => counts_ok s /\
                        (s = fmm_init slowness sy sx \/ logs_start_at_source s)))
    with (fuel := fuel) (st := fmm_init slowness sy sx) (st' := st)
    as (Hinv & (Hcnt & Hlogs) & Hnil); auto using fmm_init_counts.
  - intros s Hs [Hc Hl] Hne. split; [apply fmm_iter_counts; assumption|].
    right. apply fmm_iter_logs_start; assumption.
  - repeat (split; [assumption|]).
    destruct Hlogs as [->|Hl]; [|exact Hl].
    rewrite (fmm_init_eq slowness ny nx Hny Hnx Hshape0 Hshape1 sy sx Hsy Hsx) in Hnil.
    discriminate.
Qed.

End LoopCounts.

(** ** Runs of the solver *)

Section RunProperties.

(** A run that returned started from an index inside the arrays and ended
    the loop. *)
Lemma fmm_run_done (fuel : nat) (slowness : ndarray float) (sy sx : Z)
    (dx : float) (st : fmm_state) :
  _fmm_run fuel slowness sy sx dx = Done st ->
  index_ok sy (shape0 slowness) = true /\ index_ok sx (shape1 slowness) = true /\
  fmm_loop slowness dx (shape0 slowness) (shape1 slowness) fuel
           (fmm_init slowness sy sx) = Some st.
Proof.
  unfold _fmm_run. cbv zeta.
  destruct (index_ok sy (shape0 slowness) && index_ok sx (shape1 slowness))
    eqn:Hok; [|discriminate].
  apply andb_true_iff in Hok. destruct Hok as [Hsy Hsx].
  destruct (fmm_loop _ _ _ _ _ _) as [st'|]; [|discriminate].
  intros H. inversion H; subst. auto.
Qed.

Lemma solve_eikonal_done (fuel : nat) (n_field : ndarray float)
    (source : Z * Z) (dx : float) (T : ndarray float) :
  solve_eikonal fuel n_field source dx = Done T ->
  exists st, _fmm_run fuel n_field source.1 source.2 dx = Done st /\ T = st_T st.
Proof.
  unfold solve_eikonal, _fmm_core.
  destruct (_fmm_run fuel n_field source.1 source.2 dx) as [st| |];
    try discriminate.
  intros H. inversion H; subst. eauto.
Qed.

(** X3: at every point of a run the band holds at most [ny*nx] entries,
    so that line 56 writes inside [heap_t], [heap_y] and [heap_x]; the
    coordinates of every band entry index inside the grid, so that lines
    47-48 read and write inside [frozen]; and [T] and [frozen] keep the
    shape of the slowness field. *)
Theorem band_stays_in_bounds (slowness : ndarray float) (sy sx : Z)
    (dx : float) (c : config) :
  grid_ok slowness ->
  index_ok sy (shape0 slowness) = true ->
  index_ok sx (shape1 slowness) = true ->
  reachable slowness dx (shape0 slowness) (shape1 slowness)
            (Config (fmm_init slowness sy sx) None) c ->
  Z.of_nat (length (st_heap (c_state c))) <= shape0 slowness * shape1 slowness /\
  Forall (fun e => index_ok (entry_y e) (shape0 slowness) = true /\
                   index_ok (entry_x e) (shape1 slowness) = true)
         (st_heap (c_state c)) /\
  (shape0 (st_T (c_state c)) = shape0 slowness /\
   shape1 (st_T (c_state c)) = shape1 slowness /\
   length (data (st_T (c_state c)))
     = Z.to_nat (shape0 slowness * shape1 slowness)) /\
  (shape0 (st_frozen (c_state c)) = shape0 slowness /\
   shape1 (st_frozen (c_state c)) = shape1 slowness /\
   length (data (st_frozen (c_state c)))
     = Z.to_nat (shape0 slowness * shape1 slowness)).
Proof.
  intros [Hny Hnx] Hsy Hsx Hreach.
  destruct (run_invariants slowness dx _ _ Hny Hnx eq_refl eq_refl sy sx Hsy Hsx
              c Hreach) as [Hinv Hband].
  split; [exact (binv_cap _ _ _ Hband)|].
  split; [exact (inv_heap _ _ _ Hinv)|].
  destruct Hinv as [T0 T1 Tl F0 F1 Fl _ _ _]. auto.
Qed.

(** The run on the constant 2x2 field from (0, 0): a configuration in the
    middle of it, and its final state. *)
Definition U22_midrun : config :=
  Eval vm_compute in
    default (Config (fmm_init U22 0 0) None)
            (micro_run U22 1 (shape0 U22) (shape1 U22) 7
                       (Config (fmm_init U22 0 0) None)).

Definition U22_final : fmm_state :=
  Eval vm_compute in
    match _fmm_run 100 U22 0 0 1 with
    | Done st => st
    | _ => fmm_init U22 0 0
    end.

Lemma U22_midrun_reachable :
  reachable U22 1 (shape0 U22) (shape1 U22) (Config (fmm_init U22 0 0) None)
            U22_midrun.
Proof.
  apply (micro_run_reachable U22 1 (shape0 U22) (shape1 U22) 7).
  vm_compute. reflexivity.
Qed.

Lemma band_stays_in_bounds_witness :
  Z.of_nat (length (st_heap (c_state U22_midrun))) <= shape0 U22 * shape1 U22.
Proof.
  refine (proj1 (band_stays_in_bounds U22 0 0 1 U22_midrun _ _ _ _)).
  - split; split; reflexivity.
  - reflexivity.
  - reflexivity.
  - exact U22_midrun_reachable.
Defined.

(** X4: the field returned by [solve_eikonal] has the shape of the input
    field and holds no NaN, whatever the slowness values are (NaN
    included): line 53 stores a candidate only when it compares strictly
    below the stored time, which a NaN never does. *)
Theorem solve_eikonal_returns_no_nan (fuel : nat) (n_field : ndarray float)
    (source : Z * Z) (dx : float) (T : ndarray float) :
  grid_ok n_field ->
  solve_eikonal fuel n_field source dx = Done T ->
  shape0 T = shape0 n_field /\ shape1 T = shape1 n_field /\
  length (data T) = Z.to_nat (shape0 n_field * shape1 n_field) /\
  Forall (fun t => is_nan t = false) (data T).
Proof.
  intros [Hny Hnx] Hdone.
  destruct (solve_eikonal_done _ _ _ _ _ Hdone) as (st & Hrun & ->).
  destruct (fmm_run_done _ _ _ _ _ _ Hrun) as (Hsy & Hsx & Hloop).
  apply fmm_loop_reachable in Hloop.
  destruct (run_invariants n_field dx _ _ Hny Hnx eq_refl eq_refl _ _ Hsy Hsx
              _ Hloop) as [Hinv Hband].
  cbn [c_state] in *.
  split; [exact (inv_T0 _ _ _ Hinv)|]. split; [exact (inv_T1 _ _ _ Hinv)|].
  split; [exact (inv_Tlen _ _ _ Hinv)|]. exact (binv_nan _ _ _ Hband).
Qed.

Lemma solve_eikonal_returns_no_nan_witness :
  shape0 (st_T U22_final) = shape0 U22 /\ shape1 (st_T U22_final) = shape1 U22 /\
  length (data (st_T U22_final)) = Z.to_nat (shape0 U22 * shape1 U22) /\
  Forall (fun t => is_nan t = false) (data (st_T U22_final)).
Proof.
  apply (solve_eikonal_returns_no_nan 100 U22 (0, 0) 1 (st_T U22_final)).
  - split; split; reflexivity.
  - vm_compute. reflexivity.
Defined.

(** X5: at every point of a run, the time stored for the cell of a band
    entry is the time of the entry or a time strictly below it; an entry
    never promises an earlier arrival than the one stored for its cell. *)
Theorem band_entries_not_below_cells (slowness : ndarray float) (sy sx : Z)
    (dx : float) (c : config) :
  grid_ok slowness ->
  index_ok sy (shape0 slowness) = true ->
  index_ok sx (shape1 slowness) = true ->
  reachable slowness dx (shape0 slowness) (shape1 slowness)
            (Config (fmm_init slowness sy sx) None) c ->
  Forall (fun e =>
            fitem (st_T (c_state c)) (entry_y e) (entry_x e) = entry_t e \/
            (fitem (st_T (c_state c)) (entry_y e) (entry_x e) <? entry_t e)%float
            = true)
         (st_heap (c_state c)).
Proof.
  intros [Hny Hnx] Hsy Hsx Hreach.
  destruct (run_invariants slowness dx _ _ Hny Hnx eq_refl eq_refl sy sx Hsy Hsx
              c Hreach) as [_ Hband].
  exact (binv_cur _ _ _ Hband).
Qed.

Lemma band_entries_not_below_cells_witness :
  Forall (fun e =>
            fitem (st_T (c_state U22_midrun)) (entry_y e) (entry_x e) = entry_t e \/
            (fitem (st_T (c_state U22_midrun)) (entry_y e) (entry_x e) <? entry_t e)%float
            = true)
         (st_heap (c_state U22_midrun)).
Proof.
  refine (band_entries_not_below_cells U22 0 0 1 U22_midrun _ _ _ _).
  - split; split; reflexivity.
  - reflexivity.
  - reflexivity.
  - exact U22_midrun_reachable.
Defined.

(** X6: at every point of a run, every frozen cell holds a time strictly
    below +infinity: a cell is frozen only after a time was stored for
    it. *)
Theorem frozen_cells_hold_times (slowness : ndarray float) (sy sx : Z)
    (dx : float) (c : config) (y x : Z) :
  grid_ok slowness ->
  index_ok sy (shape0 slowness) = true ->
  index_ok sx (shape1 slowness) = true ->
  reachable slowness dx (shape0 slowness) (shape1 slowness)
            (Config (fmm_init slowness sy sx) None) c ->
  bitem (st_frozen (c_state c)) y x = true ->
  (fitem (st_T (c_state c)) y x <? inf)%float = true.
Proof.
  intros [Hny Hnx] Hsy Hsx Hreach.
  destruct (run_invariants slowness dx _ _ Hny Hnx eq_refl eq_refl sy sx Hsy Hsx
              c Hreach) as [_ Hband].
  exact (binv_frz _ _ _ Hband y x).
Qed.

Lemma frozen_cells_hold_times_witness :
  (fitem (st_T (c_state U22_midrun)) 0 0 <? inf)%float = true.
Proof.
  refine (frozen_cells_hold_times U22 0 0 1 U22_midrun 0 0 _ _ _ _ _).
  - split; split; reflexivity.
  - reflexivity.
  - reflexivity.
  - exact U22_midrun_reachable.
  - vm_compute. reflexivity.
Defined.

(** X7: a run that returns has gone through the [while] loop at least
    once and at most [4*ny*nx + 1] times, and has frozen at least one and
    at most [ny*nx] cells (the logs hold one time per iteration and one
    cell per freeze). *)
Theorem loop_iterations_bounded (fuel : nat) (slowness : ndarray float)
    (sy sx : Z) (dx : float) (st : fmm_state) :
  grid_ok slowness ->
  _fmm_run fuel slowness sy sx dx = Done st ->
  (1 <= length (st_pops st)
     <= 4 * Z.to_nat (shape0 slowness * shape1 slowness) + 1)%nat /\
  (1 <= length (st_froze st)
     <= Z.to_nat (shape0 slowness * shape1 slowness))%nat /\
  (length (st_froze st) <= length (st_pops st))%nat.
Proof.
  intros [Hny Hnx] Hrun.
  destruct (fmm_run_done _ _ _ _ _ _ Hrun) as (Hsy & Hsx & Hloop).
  destruct (run_done slowness dx _ _ Hny Hnx eq_refl eq_refl sy sx Hsy Hsx
              fuel st Hloop)
    as (_ & _ & (Hm & Hc & Hl) & (pops & froze & Hp & Hf)).
  rewrite Hp, Hf in *. simpl in *. lia.
Qed.

Lemma loop_iterations_bounded_witness :
  (1 <= length (st_pops U22_final) <= 4 * Z.to_nat (shape0 U22 * shape1 U22) + 1)%nat /\
  (1 <= length (st_froze U22_final) <= Z.to_nat (shape0 U22 * shape1 U22))%nat /\
  (length (st_froze U22_final) <= length (st_pops U22_final))%nat.
Proof.
  apply (loop_iterations_bounded 100 U22 0 0 1 U22_final).
  - split; split; reflexivity.
  - vm_compute. reflexivity.
Defined.

(** X8: in a run that returns, the first time popped from the band is the
    0.0 of the source, and the first cell frozen is the source (a negative
    source coordinate counted from the end). *)
Theorem source_popped_and_frozen_first (fuel : nat) (slowness : ndarray float)
    (sy sx : Z) (dx : float) (st : fmm_state) :
  grid_ok slowness ->
  _fmm_run fuel slowness sy sx dx = Done st ->
  st_pops st !! 0%nat = Some 0%float /\
  st_froze st !! 0%nat
    = Some (wrap_index sy (shape0 slowness), wrap_index sx (shape1 slowness)).
Proof.
  intros [Hny Hnx] Hrun.
  destruct (fmm_run_done _ _ _ _ _ _ Hrun) as (Hsy & Hsx & Hloop).
  destruct (run_done slowness dx _ _ Hny Hnx eq_refl eq_refl sy sx Hsy Hsx
              fuel st Hloop)
    as (_ & _ & _ & (pops & froze & -> & ->)).
  split; reflexivity.
Qed.

Lemma source_popped_and_frozen_first_witness :
  st_pops U22_final !! 0%nat = Some 0%float /\
  st_froze U22_final !! 0%nat
    = Some (wrap_index 0 (shape0 U22), wrap_index 0 (shape1 U22)).
Proof.
  apply (source_popped_and_frozen_first 100 U22 0 0 1 U22_final).
  - split; split; reflexivity.
  - vm_compute. reflexivity.
Defined.

End RunProperties.

(** ** What the stencil reads *)

Section StencilReads.

Variables ny nx : Z.

Hypothesis Hny : 0 < ny < 2 ^ 31.
Hypothesis Hnx : 0 < nx < 2 ^ 31.

Lemma t_horiz_ext (T T' : ndarray float) (y x : Z) :
  (x > 0 -> fitem T' y (x - 1) = fitem T y (x - 1)) ->
  (x < nx - 1 -> fitem T' y (x + 1) = fitem T y (x + 1)) ->
  t_horiz T' y x nx = t_horiz T y x nx.
Proof.
  intros H1 H2. unfold t_horiz. cbv zeta.
  destruct (x >? 0) eqn:G1; destruct (x <? nx - 1) eqn:G2;
    rewrite ?Z.gtb_gt, ?Z.ltb_lt in *; cbn [andb];
    rewrite ?H1, ?H2 by assumption; reflexivity.
Qed.

Lemma t_vert_ext (T T' : ndarray float) (y x : Z) :
  (y > 0 -> fitem T' (y - 1) x = fitem T (y - 1) x) ->
  (y < ny - 1 -> fitem T' (y + 1) x = fitem T (y + 1) x) ->
  t_vert T' y x ny = t_vert T y x ny.
Proof.
  intros H1 H2. unfold t_vert. cbv zeta.
  destruct (y >? 0) eqn:G1; destruct (y <? ny - 1) eqn:G2;
    rewrite ?Z.gtb_gt, ?Z.ltb_lt in *; cbn [andb];
    rewrite ?H1, ?H2 by assumption; reflexivity.
Qed.

(** The candidate is a function of the slowness of the cell and of the
    times stored for its neighbours inside the grid. *)
Lemma solve_quadratic_ext (T T' slowness slowness' : ndarray float)
    (y x : Z) (dx : float) :
  in_grid ny nx y x ->
  fitem slowness' y x = fitem slowness y x ->
  (forall d, In d directions -> in_grid ny nx (y + d.1) (x + d.2) ->
             fitem T' (y + d.1) (x + d.2) = fitem T (y + d.1) (x + d.2)) ->
  _solve_quadratic T' slowness' y x dx ny nx
  = _solve_quadratic T slowness y x dx ny nx.
Proof.
  intros [Hy Hx] Hslow Hnb.
  assert (Hup : y > 0 -> fitem T' (y - 1) x = fitem T (y - 1) x).
  { intros G. specialize (Hnb (-1, 0)). cbn [fst snd] in Hnb.
    replace (y + -1) with (y - 1) in Hnb by lia.
    replace (x + 0) with x in Hnb by lia.
    apply Hnb; [simpl; auto|split; lia]. }
  assert (Hdown : y < ny - 1 -> fitem T' (y + 1) x = fitem T (y + 1) x).
  { intros G. specialize (Hnb (1, 0)). cbn [fst snd] in Hnb.
    replace (x + 0) with x in Hnb by lia.
    apply Hnb; [simpl; auto|split; lia]. }
  assert (Hleft : x > 0 -> fitem T' y (x - 1) = fitem T y (x - 1)).
  { intros G. specialize (Hnb (0, -1)). cbn [fst snd] in Hnb.
    replace (x + -1) with (x - 1) in Hnb by lia.
    replace (y + 0) with y in Hnb by lia.
    apply Hnb; [simpl; auto|split; lia]. }
  assert (Hright : x < nx - 1 -> fitem T' y (x + 1) = fitem T y (x + 1)).
  { intros G. specialize (Hnb (0, 1)). cbn [fst snd] in Hnb.
    replace (y + 0) with y in Hnb by lia.
    apply Hnb; [simpl; auto|split; lia]. }
  unfold _solve_quadratic. cbv zeta. rewrite Hslow.
  rewrite (t_horiz_ext T T' y x Hleft Hright), (t_vert_ext T T' y x Hup Hdown).
  reflexivity.
Qed.

(** A neighbour is another cell. *)
Lemma neighbour_flat_ne {A} (a : ndarray A) (y x : Z) (d : Z * Z) :
  shape0 a = ny -> shape1 a = nx ->
  In d directions -> in_grid ny nx y x -> in_grid ny nx (y + d.1) (x + d.2) ->
  flat a (y + d.1) (x + d.2) <> flat a y x.
Proof.
  intros H0 H1 Hd Hg Hg' Hflat.
  pose proof (flat_grid_inj ny nx Hnx a _ _ _ _ H0 H1 Hg' Hg Hflat) as Heq.
  unfold directions in Hd. simpl in Hd.
  destruct Hd as [<-|[<-|[<-|[<-|[]]]]]; simpl in Heq; inversion Heq; lia.
Qed.

(** The candidate for a cell does not depend on the time stored for the
    cell itself. *)
Lemma solve_quadratic_own_cell (T slowness : ndarray float) (y x : Z)
    (dx v : float) :
  shape0 T = ny -> shape1 T = nx -> in_grid ny nx y x ->
  _solve_quadratic (setitem T y x v) slowness y x dx ny nx
  = _solve_quadratic T slowness y x dx ny nx.
Proof.
  intros H0 H1 Hg. apply solve_quadratic_ext; [exact Hg|reflexivity|].
  intros d Hd Hg'. unfold fitem. apply item_setitem_other.
  apply neighbour_flat_ne; assumption.
Qed.

End StencilReads.

(** ** Updates, and the slowness of the source *)

Section UpdateProperties.

(** X9: the candidate computed for a cell of the grid depends only on the
    slowness of that cell and on the times stored for its four
    neighbours, those that lie inside the grid; in particular not on the
    time stored for the cell itself. *)
Theorem stencil_reads_neighbours_only (T T' slowness slowness' : ndarray float)
    (y x : Z) (dx : float) (ny nx : Z) :
  0 <= y < ny -> 0 <= x < nx ->
  fitem slowness' y x = fitem slowness y x ->
  (forall d, In d directions ->
             0 <= y + d.1 < ny -> 0 <= x + d.2 < nx ->
             fitem T' (y + d.1) (x + d.2) = fitem T (y + d.1) (x + d.2)) ->
  _solve_quadratic T' slowness' y x dx ny nx
  = _solve_quadratic T slowness y x dx ny nx.
Proof.
  intros Hy Hx Hslow Hnb. apply solve_quadratic_ext; [split; assumption|exact Hslow|].
  intros d Hd [Hy' Hx']. apply Hnb; assumption.
Qed.

Lemma stencil_reads_neighbours_only_witness :
  _solve_quadratic (setitem U22 1 1 7%float) U22 1 1 1 2 2
  = _solve_quadratic U22 U22 1 1 1 2 2.
Proof.
  apply (stencil_reads_neighbours_only U22 (setitem U22 1 1 7%float) U22 U22
                                       1 1 1 2 2); try lia; try reflexivity.
  intros d Hd Hy Hx. unfold directions in Hd. simpl in Hd.
  destruct Hd as [<-|[<-|[<-|[<-|[]]]]]; simpl in *; try lia; reflexivity.
Defined.

(** X10: updating the same neighbour twice in a row is the same as
    updating it once: the second candidate is the first one again, and
    does not compare strictly below the time just stored. *)
Theorem update_neighbor_idempotent (slowness : ndarray float) (dx : float)
    (ny nx : Z) (st : fmm_state) (a b : Z) :
  0 < ny < 2 ^ 31 -> 0 < nx < 2 ^ 31 ->
  fmm_inv ny nx st ->
  update_neighbor slowness dx ny nx (update_neighbor slowness dx ny nx st a b) a b
  = update_neighbor slowness dx ny nx st a b.
Proof.
  intros Hny Hnx Hinv.
  pose proof (update_neighbor_inv slowness dx ny nx Hny Hnx st a b Hinv) as Hinv1.
  destruct (update_neighbor_cases slowness dx ny nx st a b)
    as [Hsame|(Hg & Hf & Hlt & Hupd)].
  - rewrite !Hsame. reflexivity.
  - destruct (update_neighbor_cases slowness dx ny nx
                (update_neighbor slowness dx ny nx st a b) a b)
      as [Hsame|(_ & _ & Hlt' & _)]; [exact Hsame|].
    exfalso. rewrite Hupd in Hlt'. unfold candidate in Hlt'. cbn [st_T] in Hlt'.
    rewrite (solve_quadratic_own_cell ny nx Hnx) in Hlt';
      [|exact (inv_T0 _ _ _ Hinv)|exact (inv_T1 _ _ _ Hinv)|exact Hg].
    unfold fitem in Hlt'.
    rewrite item_setitem_same in Hlt'; [|reflexivity|].
    + rewrite ltb_irrefl in Hlt'. discriminate.
    + destruct Hg as [Ha Hb].
      apply (cell_in_range ny nx st a b Hinv); apply index_ok_in_grid; lia.
Qed.

Lemma update_neighbor_idempotent_witness :
  update_neighbor U22 1 2 2 (update_neighbor U22 1 2 2 (c_state U22_midrun) 1 1) 1 1
  = update_neighbor U22 1 2 2 (c_state U22_midrun) 1 1.
Proof.
  apply (update_neighbor_idempotent U22 1 2 2 (c_state U22_midrun) 1 1); try lia.
  refine (proj1 (run_invariants U22 1 2 2 _ _ eq_refl eq_refl 0 0 eq_refl eq_refl
                   U22_midrun U22_midrun_reachable)); lia.
Defined.

End UpdateProperties.

(** The slowness of the source cell is never used. *)

Section SourceSlowness.

Variable slowness : ndarray float.
Variable dx : float.
Variables ny nx : Z.

Hypothesis Hny : 0 < ny < 2 ^ 31.
Hypothesis Hnx : 0 < nx < 2 ^ 31.
Hypothesis Hshape0 : shape0 slowness = ny.
Hypothesis Hshape1 : shape1 slowness = nx.

Variables sy sx : Z.
Hypothesis Hsy : index_ok sy ny = true.
Hypothesis Hsx : index_ok sx nx = true.

Variable v : float.

Lemma update_neighbor_source_slowness (st : fmm_state) (a b : Z) :
  fmm_inv ny nx st -> bitem (st_frozen st) sy sx = true ->
  update_neighbor (setitem slowness sy sx v) dx ny nx st a b
  = update_neighbor slowness dx ny nx st a b.
Proof.
  intros Hinv Hsrc. unfold update_neighbor.
  destruct ((0 <=? a) && (a <? ny) && (0 <=? b) && (b <? nx)
            && negb (bitem (st_frozen st) a b)) eqn:Hc; [|reflexivity].
  rewrite !andb_true_iff, !Z.leb_le, !Z.ltb_lt, negb_true_iff in Hc.
  destruct Hc as [[[[Ha1 Ha2] Hb1] Hb2] Hfr].
  assert (Hcand : _solve_quadratic (st_T st) (setitem slowness sy sx v) a b dx ny nx
                  = _solve_quadratic (st_T st) slowness a b dx ny nx).
  { apply solve_quadratic_ext; [split; lia| |reflexivity].
    unfold fitem. apply item_setitem_other. intros He.
    rewrite !(flat_same_shape slowness (st_frozen st)) in He
      by (rewrite ?(inv_F0 _ _ _ Hinv), ?(inv_F1 _ _ _ Hinv); assumption).
    unfold bitem in *. rewrite (item_flat_eq _ _ _ _ _ _ He) in Hfr. congruence. }
  cbv zeta. rewrite Hcand. reflexivity.
Qed.

Lemma update_neighbors_source_slowness (st : fmm_state) (y x : Z) :
  fmm_inv ny nx st -> bitem (st_frozen st) sy sx = true ->
  update_neighbors (setitem slowness sy sx v) dx ny nx st y x
  = update_neighbors slowness dx ny nx st y x.
Proof.
  unfold update_neighbors. generalize directions. intros ds. revert st.
  induction ds as [|d ds IH]; intros st Hinv Hsrc; simpl; [reflexivity|].
  rewrite update_neighbor_source_slowness by assumption.
  apply IH.
  - apply update_neighbor_inv; assumption.
  - rewrite update_neighbor_frozen. exact Hsrc.
Qed.

Lemma fmm_iter_source_slowness (st : fmm_state) :
  fmm_inv ny nx st ->
  st = fmm_init slowness sy sx \/ bitem (st_frozen st) sy sx = true ->
  fmm_iter (setitem slowness sy sx v) dx ny nx st = fmm_iter slowness dx ny nx st.
Proof.
  intros Hinv Hsrc. unfold fmm_iter. cbv zeta.
  destruct (st_heap st !! argmin (st_heap st)) as [e|] eqn:He; [|reflexivity].
  destruct (bitem (st_frozen st) (entry_y e) (entry_x e)) eqn:Hfr; [reflexivity|].
  change (FmmState (st_T st) (setitem (st_frozen st) (entry_y e) (entry_x e) true)
                   (remove_at (st_heap st) (argmin (st_heap st)))
                   (st_pops st ++ [entry_t e])
                   (st_froze st ++ [(wrap_index (entry_y e) ny,
                                     wrap_index (entry_x e) nx)]))
    with (froze_cell ny nx st e).
  pose proof (Forall_lookup_1 _ _ _ _ (inv_heap _ _ _ Hinv) He) as Hok.
  apply update_neighbors_source_slowness.
  - apply froze_cell_inv; assumption.
  - destruct Hsrc as [->|Hsrc]; [|apply froze_cell_keeps; exact Hsrc].
    assert (e = source_entry sy sx) as ->.
    { rewrite (fmm_init_eq slowness ny nx Hny Hnx Hshape0 Hshape1 sy sx Hsy Hsx) in He.
      cbn [st_heap] in He. simpl in He. congruence. }
    apply (froze_cell_marks ny nx _ (source_entry sy sx) Hinv Hok).
Qed.

Lemma fmm_loop_source_slowness (fuel : nat) :
  forall st : fmm_state,
    fmm_inv ny nx st ->
    st = fmm_init slowness sy sx \/ bitem (st_frozen st) sy sx = true ->
    fmm_loop (setitem slowness sy sx v) dx ny nx fuel st
    = fmm_loop slowness dx ny nx fuel st.
Proof.
  induction fuel as [|fuel IH]; intros st Hinv Hsrc; simpl; [reflexivity|].
  destruct (st_heap st) as [|e l] eqn:Hheap; [reflexivity|].
  rewrite fmm_iter_source_slowness by assumption.
  apply IH; [apply fmm_iter_inv; assumption|]. right.
  destruct Hsrc as [->|Hsrc].
  - apply (fmm_first_iter_source slowness dx ny nx Hny Hnx Hshape0 Hshape1
             sy sx Hsy Hsx).
  - apply (fmm_iter_T_frozen slowness dx ny nx Hny Hnx st sy sx Hinv Hsrc).
Qed.

End SourceSlowness.

Section SourceProperties.

(** X11: the slowness of the source cell is never read: replacing it by
    any value (NaN and infinities included) leaves the result of
    [solve_eikonal] from that source as it is. *)
Theorem source_slowness_never_read (fuel : nat) (n_field : ndarray float)
    (sy sx : Z) (dx v : float) :
  grid_ok n_field ->
  solve_eikonal fuel (setitem n_field sy sx v) (sy, sx) dx
  = solve_eikonal fuel n_field (sy, sx) dx.
Proof.
  intros [Hny Hnx]. unfold solve_eikonal, _fmm_core, _fmm_run.
  cbn [fst snd].
  change (shape0 (setitem n_field sy sx v)) with (shape0 n_field).
  change (shape1 (setitem n_field sy sx v)) with (shape1 n_field).
  change (fmm_init (setitem n_field sy sx v) sy sx) with (fmm_init n_field sy sx).
  destruct (index_ok sy (shape0 n_field) && index_ok sx (shape1 n_field))
    eqn:Hok; [|reflexivity].
  apply andb_true_iff in Hok. destruct Hok as [Hsy Hsx].
  rewrite (fmm_loop_source_slowness n_field dx _ _ Hny Hnx eq_refl eq_refl
             sy sx Hsy Hsx v fuel (fmm_init n_field sy sx)); [reflexivity| |auto].
  apply fmm_init_inv; auto.
Qed.

Lemma source_slowness_never_read_witness :
  solve_eikonal 100 (setitem U22 0 0 nan) (0, 0) 1
  = solve_eikonal 100 U22 (0, 0) 1.
Proof.
  apply (source_slowness_never_read 100 U22 0 0 1 nan).
  split; split; reflexivity.
Defined.

End SourceProperties.

(** ** A source given by a negative index *)

Section NegativeSource.

Variable slowness : ndarray float.
Variable dx : float.
Variables ny nx : Z.

Hypothesis Hny : 0 < ny < 2 ^ 31.
Hypothesis Hnx : 0 < nx < 2 ^ 31.

Variables sy sx : Z.
Hypothesis Hsy : index_ok sy ny = true.
Hypothesis Hsx : index_ok sx nx = true.

Lemma fitem_full_inf_not_below (y x : Z) :
  (fitem (full ny nx inf) y x <? inf)%float = false.
Proof.
  unfold fitem, item, full. cbn [data].
  destruct (replicate _ inf !! _) as [t|] eqn:Hl; [|reflexivity].
  apply lookup_replicate in Hl. destruct Hl as [-> _]. reflexivity.
Qed.

(** On a field of +infinity every candidate is +infinity. *)
Lemma solve_quadratic_full_inf (y x : Z) :
  _solve_quadratic (full ny nx inf) slowness y x dx ny nx = inf.
Proof.
  unfold _solve_quadratic, t_horiz, t_vert. cbv zeta.
  repeat (rewrite fitem_full_inf_not_below; rewrite andb_false_r; cbv iota).
  reflexivity.
Qed.

(** The cell that the source index denotes. *)
Definition source_cell : Z * Z := (wrap_index sy ny, wrap_index sx nx).

Lemma source_cell_in_grid : in_grid ny nx source_cell.1 source_cell.2.
Proof.
  split; cbn [source_cell fst snd]; apply wrap_index_range; assumption.
Qed.

(** In the state that holds a time for the source only, and in which only
    the source is frozen, the update of a cell that is the source or is
    not next to it changes nothing. *)
Lemma update_away_from_source (st : fmm_state) (a b : Z) :
  st_T st = setitem (full ny nx inf) sy sx 0%float ->
  st_frozen st = setitem (full ny nx false) sy sx true ->
  (a, b) = source_cell \/
  (forall d, In d directions -> (a + d.1, b + d.2) <> source_cell) ->
  update_neighbor slowness dx ny nx st a b = st.
Proof.
  intros HT HF Hfar.
  destruct (update_neighbor_cases slowness dx ny nx st a b)
    as [Hsame|(Hg & Hf & Hlt & _)]; [exact Hsame|]. exfalso.
  destruct Hfar as [Hsrc|Hfar].
  - inversion Hsrc; subst a b. rewrite HF in Hf. unfold bitem in Hf.
    rewrite item_setitem_same in Hf; [discriminate| |].
    + apply (flat_wrap (full ny nx false) sy sx); assumption.
    + apply flat_in_range; cbn [full shape0 shape1 data]; try assumption.
      rewrite length_replicate. reflexivity.
  - unfold candidate in Hlt. rewrite HT in Hlt.
    rewrite (solve_quadratic_ext ny nx (full ny nx inf) _ slowness slowness) in Hlt;
      [|exact Hg|reflexivity|].
    + rewrite solve_quadratic_full_inf in Hlt.
      rewrite (ltb_not_below_inf inf) in Hlt; [discriminate|reflexivity].
    + intros d Hd Hg'. unfold fitem. apply item_setitem_other. intros He.
      apply (Hfar d Hd).
      rewrite <- (flat_wrap (full ny nx inf) sy sx) in He by assumption.
      apply (flat_grid_inj ny nx Hnx (full ny nx inf)); auto.
      apply source_cell_in_grid.
Qed.

Hypothesis Hshape0 : shape0 slowness = ny.
Hypothesis Hshape1 : shape1 slowness = nx.

Hypothesis Hneg :
  (sy < 0 /\ sx < 0) \/ (sy < 0 /\ ny <> 2) \/ (sx < 0 /\ nx <> 2).

(** The cells offered an update after the source was frozen are the
    source itself or cells away from it. *)
Lemma neighbours_of_negative_source (d : Z * Z) :
  In d directions -> in_grid ny nx (sy + d.1) (sx + d.2) ->
  (sy + d.1, sx + d.2) = source_cell \/
  (forall d', In d' directions ->
              (sy + d.1 + d'.1, sx + d.2 + d'.2) <> source_cell).
Proof.
  intros Hd [Hy Hx].
  apply (index_ok_bounds ny nx Hny Hnx) in Hsy, Hsx.
  unfold source_cell, wrap_index.
  destruct (sy <? 0) eqn:Ey; destruct (sx <? 0) eqn:Ex;
    rewrite ?Z.ltb_lt, ?Z.ltb_ge in *;
    unfold directions in Hd; simpl in Hd;
    destruct Hd as [<-|[<-|[<-|[<-|[]]]]]; cbn [fst snd] in *; try lia.
  - destruct (decide (ny = 1)) as [->|Hne]; [left; f_equal; lia|].
    right. intros d' Hd'. unfold directions in Hd'. simpl in Hd'.
    destruct Hd' as [<-|[<-|[<-|[<-|[]]]]]; cbn [fst snd]; intros Heq;
      inversion Heq; lia.
  - destruct (decide (nx = 1)) as [->|Hne]; [left; f_equal; lia|].
    right. intros d' Hd'. unfold directions in Hd'. simpl in Hd'.
    destruct Hd' as [<-|[<-|[<-|[<-|[]]]]]; cbn [fst snd]; intros Heq;
      inversion Heq; lia.
Qed.

Lemma negative_source_run (fuel : nat) :
  (1 <= fuel)%nat ->
  exists st,
    fmm_loop slowness dx ny nx fuel (fmm_init slowness sy sx) = Some st /\
    st_T st = setitem (full ny nx inf) sy sx 0%float.
Proof.
  intros Hfuel. destruct fuel as [|fuel]; [lia|].
  set (st1 := froze_cell ny nx (fmm_init slowness sy sx) (source_entry sy sx)).
  assert (HT : st_T st1 = setitem (full ny nx inf) sy sx 0%float).
  { unfold st1.
    rewrite (fmm_init_eq slowness ny nx Hny Hnx Hshape0 Hshape1 sy sx Hsy Hsx).
    reflexivity. }
  assert (HF : st_frozen st1 = setitem (full ny nx false) sy sx true).
  { unfold st1.
    rewrite (fmm_init_eq slowness ny nx Hny Hnx Hshape0 Hshape1 sy sx Hsy Hsx).
    reflexivity. }
  assert (Hheap : st_heap st1 = []).
  { unfold st1.
    rewrite (fmm_init_eq slowness ny nx Hny Hnx Hshape0 Hshape1 sy sx Hsy Hsx).
    reflexivity. }
  assert (Hstay : update_neighbors slowness dx ny nx st1 sy sx = st1).
  { apply (update_neighbors_fold_dir slowness dx ny nx (fun s => s = st1));
      [|reflexivity].
    intros s d Hd ->.
    destruct (decide (in_grid ny nx (sy + d.1) (sx + d.2))) as [Hg|Hout].
    - apply update_away_from_source; [exact HT|exact HF|].
      apply neighbours_of_negative_source; assumption.
    - destruct (update_neighbor_cases slowness dx ny nx st1 (sy + d.1) (sx + d.2))
        as [Hsame|(Hg & _)]; [exact Hsame|contradiction]. }
  exists st1. split; [|exact HT].
  cbn [fmm_loop].
  rewrite (fmm_init_eq slowness ny nx Hny Hnx Hshape0 Hshape1 sy sx Hsy Hsx) at 1.
  cbn [st_heap].
  rewrite (fmm_iter_init slowness dx ny nx Hny Hnx Hshape0 Hshape1 sy sx Hsy Hsx).
  fold st1. rewrite Hstay.
  destruct fuel; cbn [fmm_loop]; rewrite Hheap; reflexivity.
Qed.

End NegativeSource.

Section NegativeSourceProperty.

(** X12: a source with a negative coordinate is accepted, but the wave
    never leaves it.  Lines 50-51 test the neighbours of the index as
    given, not of the cell it denotes, so the only cell that can pass the
    test is on row 0 or column 0, away from the source on the last row or
    column (grids with exactly two rows or columns apart).  The result is
    0 at the cell the index denotes and +infinity everywhere else, after a
    single iteration. *)
Theorem negative_source_reaches_nothing (fuel : nat) (n_field : ndarray float)
    (sy sx : Z) (dx : float) :
  grid_ok n_field ->
  index_ok sy (shape0 n_field) = true ->
  index_ok sx (shape1 n_field) = true ->
  (sy < 0 /\ sx < 0) \/ (sy < 0 /\ shape0 n_field <> 2) \/
  (sx < 0 /\ shape1 n_field <> 2) ->
  (1 <= fuel)%nat ->
  solve_eikonal fuel n_field (sy, sx) dx
  = Done (setitem (full (shape0 n_field) (shape1 n_field) inf) sy sx 0%float).
Proof.
  intros [Hny Hnx] Hsy Hsx Hneg Hfuel.
  destruct (negative_source_run n_field dx _ _ Hny Hnx sy sx Hsy Hsx
              eq_refl eq_refl Hneg fuel Hfuel) as (st & Hrun & HT).
  rewrite <- HT. apply run_from_init; assumption.
Qed.

Lemma negative_source_reaches_nothing_witness :
  solve_eikonal 100 T33 ((-1)%Z, 1) 1
  = Done (setitem (full (shape0 T33) (shape1 T33) inf) (-1) 1 0%float).
Proof.
  apply (negative_source_reaches_nothing 100 T33 (-1) 1 1).
  - split; split; reflexivity.
  - reflexivity.
  - reflexivity.
  - right. left. split; [lia|]. vm_compute. discriminate.
  - lia.
Defined.

End NegativeSourceProperty.

(** ** How the frozen region grows *)

Section FrozenRegion.

Variable slowness : ndarray float.
Variable dx : float.
Variables ny nx : Z.

Hypothesis Hny : 0 < ny < 2 ^ 31.
Hypothesis Hnx : 0 < nx < 2 ^ 31.

(** [p] is one of the four neighbours of [q]. *)
Definition adjacent (q p : Z * Z) : Prop :=
  exists d, In d directions /\ p = (q.1 + d.1, q.2 + d.2).

(** Every cell of the log but the first is a neighbour of an earlier
    one. *)
Definition grows_by_adjacency (froze : list (Z * Z)) : Prop :=
  forall (i : nat) (p : Z * Z), (1 <= i)%nat -> froze !! i = Some p ->
    exists (j : nat) (q : Z * Z), (j < i)%nat /\ froze !! j = Some q /\ adjacent q p.

(** The cell of a band entry lies in the grid, next to a frozen cell. *)
Definition entry_adjacent (froze : list (Z * Z)) (e : entry) : Prop :=
  in_grid ny nx (entry_y e) (entry_x e) /\
  exists q, q ∈ froze /\ adjacent q (entry_y e, entry_x e).

(** Before the first freeze the band holds one entry, inside the grid;
    afterwards every band entry is next to a frozen cell. *)
Definition band_adjacent (st : fmm_state) : Prop :=
  (st_froze st = [] /\
   exists e, st_heap st = [e] /\ in_grid ny nx (entry_y e) (entry_x e)) \/
  Forall (entry_adjacent (st_froze st)) (st_heap st).

Lemma band_adjacent_in_grid (st : fmm_state) (e : entry) (i : nat) :
  band_adjacent st -> st_heap st !! i = Some e ->
  in_grid ny nx (entry_y e) (entry_x e).
Proof.
  intros [(_ & e0 & Hheap & Hg)|Hall] He.
  - rewrite Hheap in He. destruct i; [|discriminate].
    inversion He; subst. exact Hg.
  - exact (proj1 (Forall_lookup_1 _ _ _ _ Hall He)).
Qed.

Lemma band_adjacent_removed (st : fmm_state) (mi : nat) :
  band_adjacent st -> (mi < length (st_heap st))%nat ->
  Forall (entry_adjacent (st_froze st)) (remove_at (st_heap st) mi).
Proof.
  intros [(_ & e0 & Hheap & _)|Hall] Hmi.
  - rewrite Hheap in *. simpl in Hmi. assert (mi = 0%nat) as -> by lia.
    vm_compute. constructor.
  - apply remove_at_Forall. exact Hall.
Qed.

Lemma entry_adjacent_later (froze : list (Z * Z)) (p : Z * Z) (e : entry) :
  entry_adjacent froze e -> entry_adjacent (froze ++ [p]) e.
Proof.
  intros [Hg (q & Hq & Hadj)]. split; [exact Hg|].
  exists q. split; [|exact Hadj]. apply elem_of_app. left. exact Hq.
Qed.

Lemma update_neighbor_adjacent (st : fmm_state) (y x : Z) (d : Z * Z) :
  In d directions -> (y, x) ∈ st_froze st ->
  Forall (entry_adjacent (st_froze st)) (st_heap st) ->
  Forall (entry_adjacent (st_froze st))
         (st_heap (update_neighbor slowness dx ny nx st (y + d.1) (x + d.2))).
Proof.
  intros Hd Hin Hall.
  destruct (update_neighbor_cases slowness dx ny nx st (y + d.1) (x + d.2))
    as [->|(Hg & _ & _ & ->)]; [exact Hall|].
  cbn [st_heap].
  destruct (push_cases ny nx (st_heap st)
              (candidate slowness dx ny nx st (y + d.1) (x + d.2))
              (y + d.1) (x + d.2)) as [->|[_ ->]]; [exact Hall|].
  apply Forall_app. split; [exact Hall|]. constructor; [|constructor].
  unfold entry_adjacent, entry_y, entry_x. cbn [fst snd].
  destruct Hg as [Ha Hb]. rewrite !to_int32_id by lia.
  split; [split; assumption|].
  exists (y, x). split; [exact Hin|]. exists d. split; [exact Hd|reflexivity].
Qed.

Lemma fmm_iter_adjacent (st : fmm_state) :
  fmm_inv ny nx st ->
  grows_by_adjacency (st_froze st) /\ band_adjacent st ->
  grows_by_adjacency (st_froze (fmm_iter slowness dx ny nx st)) /\
  band_adjacent (fmm_iter slowness dx ny nx st).
Proof.
  intros Hinv [Hgrow Hband].
  destruct (fmm_iter_cases slowness dx ny nx st)
    as [[_ ->]|(e & He & [[_ ->]|[Hfresh ->]])]; [auto| |].
  - split; [exact Hgrow|]. right. cbn [popped st_heap st_froze].
    apply band_adjacent_removed; [exact Hband|].
    exact (lookup_lt_Some _ _ _ He).
  - pose proof (band_adjacent_in_grid st e _ Hband He) as [Hy Hx].
    pose proof (Forall_lookup_1 _ _ _ _ (inv_heap _ _ _ Hinv) He) as Hok.
    pose proof (froze_cell_inv ny nx st e Hinv Hok Hfresh) as Hinv'.
    assert (Hlog : st_froze (froze_cell ny nx st e)
                   = st_froze st ++ [(entry_y e, entry_x e)]).
    { cbn [froze_cell st_froze]. rewrite !wrap_index_nonneg by lia. reflexivity. }
    assert (Hlast : (entry_y e, entry_x e) ∈ st_froze (froze_cell ny nx st e)).
    { rewrite Hlog. apply elem_of_app. right. apply list_elem_of_singleton.
      reflexivity. }
    assert (Hheap' : Forall (entry_adjacent (st_froze (froze_cell ny nx st e)))
                            (st_heap (froze_cell ny nx st e))).
    { rewrite Hlog. cbn [froze_cell st_heap].
      eapply Forall_impl;
        [apply band_adjacent_removed;
           [exact Hband|exact (lookup_lt_Some _ _ _ He)]|].
      intros e' He'. apply entry_adjacent_later. exact He'. }
    assert (Hall :
      (fun s => st_froze s = st_froze (froze_cell ny nx st e) /\
                Forall (entry_adjacent (st_froze s)) (st_heap s))
        (update_neighbors slowness dx ny nx (froze_cell ny nx st e)
                          (entry_y e) (entry_x e))).
    { apply update_neighbors_fold_dir; [|split; [reflexivity|exact Hheap']].
      intros s d Hd [Hf Hh]. rewrite update_neighbor_froze.
      split; [exact Hf|].
      apply update_neighbor_adjacent; [exact Hd|rewrite Hf; exact Hlast|exact Hh]. }
    cbv beta in Hall. destruct Hall as [Hf Hh].
    split; [|right; exact Hh].
    rewrite Hf, Hlog. intros i p Hi Hp.
    destruct (decide (i < length (st_froze st))%nat) as [Hlt|Hge].
    + rewrite lookup_app_l in Hp by exact Hlt.
      destruct (Hgrow i p Hi Hp) as (j & q & Hj & Hq & Hadj).
      exists j, q. split; [exact Hj|]. split; [|exact Hadj].
      rewrite lookup_app_l by lia. exact Hq.
    + pose proof (lookup_lt_Some _ _ _ Hp) as Hlen.
      rewrite length_app in Hlen. simpl in Hlen.
      assert (i = length (st_froze st)) as -> by lia.
      rewrite lookup_app_r, Nat.sub_diag in Hp by lia.
      simpl in Hp. inversion Hp; subst p. clear Hp.
      destruct Hband as [(Hnil & _)|Hall].
      { rewrite Hnil in Hi. simpl in Hi. lia. }
      destruct (Forall_lookup_1 _ _ _ _ Hall He) as [_ (q & Hq & Hadj)].
      apply list_elem_of_lookup in Hq. destruct Hq as [j Hj].
      exists j, q. split; [exact (lookup_lt_Some _ _ _ Hj)|].
      split; [|exact Hadj]. rewrite lookup_app_l; [exact Hj|].
      exact (lookup_lt_Some _ _ _ Hj).
Qed.

End FrozenRegion.

Section FrozenRegionProperty.

(** X13: from a source inside the grid, the frozen region grows by
    4-adjacency: every cell frozen after the first is a 4-neighbour of a
    cell frozen before it (so the frozen cells form a 4-connected region
    around the source). *)
Theorem frozen_region_grows_by_adjacency (fuel : nat) (n_field : ndarray float)
    (sy sx : Z) (dx : float) (st : fmm_state) :
  grid_ok n_field ->
  0 <= sy < shape0 n_field -> 0 <= sx < shape1 n_field ->
  _fmm_run fuel n_field sy sx dx = Done st ->
  forall (i : nat) (p : Z * Z),
    (1 <= i)%nat -> st_froze st !! i = Some p ->
    exists (j : nat) (q d : Z * Z),
      (j < i)%nat /\ st_froze st !! j = Some q /\
      In d directions /\ p = (q.1 + d.1, q.2 + d.2).
Proof.
  intros [Hny Hnx] Hsy Hsx Hrun.
  destruct (fmm_run_done _ _ _ _ _ _ Hrun) as (Hsy' & Hsx' & Hloop).
  pose proof (fmm_init_inv n_field _ _ Hny Hnx eq_refl eq_refl sy sx Hsy' Hsx')
    as Hinit.
  destruct (fmm_loop_invariant n_field dx _ _ Hny Hnx
              (fun s => grows_by_adjacency (st_froze s) /\
                        band_adjacent (shape0 n_field) (shape1 n_field) s))
    with (fuel := fuel) (st := fmm_init n_field sy sx) (st' := st)
    as (_ & (Hgrow & _) & _); auto.
  - intros s Hs HP _. apply fmm_iter_adjacent; assumption.
  - rewrite (fmm_init_eq n_field _ _ Hny Hnx eq_refl eq_refl sy sx Hsy' Hsx').
    cbn [st_froze st_heap]. split.
    + intros i p _ Hp. destruct i; discriminate.
    + left. split; [reflexivity|]. exists (source_entry sy sx).
      split; [reflexivity|]. split; assumption.
  - intros i p Hi Hp.
    destruct (Hgrow i p Hi Hp) as (j & q & Hj & Hq & d & Hd & ->).
    exists j, q, d. auto.
Qed.

Lemma frozen_region_grows_by_adjacency_witness :
  exists (j : nat) (q d : Z * Z),
    (j < 3)%nat /\ st_froze U22_final !! j = Some q /\
    In d directions /\ (1, 1) = (q.1 + d.1, q.2 + d.2).
Proof.
  apply (frozen_region_grows_by_adjacency 100 U22 0 0 1 U22_final).
  - split; split; reflexivity.
  - split; [discriminate|reflexivity].
  - split; [discriminate|reflexivity].
  - vm_compute. reflexivity.
  - lia.
  - reflexivity.
Defined.

End FrozenRegionProperty.

(** * Further properties of the ray tracer *)

(** Lines 48-49 of [src/raytracer.py]: one path per target, in the order
    of the targets; a failing [trace_ray] ends the comprehension. *)
Fixpoint trace_rays (T : ndarray float) (targets : list (float * float))
    (source : float * float) (step : float)
    : outcome (list (list (float * float))) :=
  match targets with
  | [] => Done []
  | t :: ts =>
      match trace_ray T t source step with
      | Done p =>
          match trace_rays T ts source step with
          | Done ps => Done (p :: ps)
          | IndexError => IndexError
          | OutOfFuel => OutOfFuel
          end
      | IndexError => IndexError
      | OutOfFuel => OutOfFuel
      end
  end.

Section TracerPaths.

Local Open Scope float_scope.

(** [q] is the point reached from [p] by one step of length [step]
    against the gradient at [p], which is not flat. *)
Definition descent_step (T : ndarray float) (step : float)
    (p q : float * float) : Prop :=
  exists gy gx, _gradient T p.1 p.2 = Done (gy, gx) /\
    (sqrt (gy * gy + gx * gx) <? 1e-10) = false /\
    q = step_from step p.1 p.2 gy gx.

Lemma trace_steps_chain (T : ndarray float) (sy sx step : float) :
  forall (k : nat) (y x : float) rest c,
    trace_steps k T sy sx step y x = Done (rest, c) ->
    forall (i : nat) (p q : float * float),
      ((y, x) :: rest) !! i = Some p -> ((y, x) :: rest) !! S i = Some q ->
      descent_step T step p q.
Proof.
  induction k as [|k IH]; intros y x rest c Hrun i p q Hp Hq; cbn [trace_steps] in Hrun.
  - inversion Hrun; subst. destruct i; discriminate.
  - destruct (_gradient T y x) as [[gy gx]| |] eqn:Hg; try discriminate.
    destruct (sqrt (gy * gy + gx * gx) <? 1e-10) eqn:Hflat.
    { inversion Hrun; subst. destruct i; discriminate. }
    set (y' := y - step * gy / sqrt (gy * gy + gx * gx)) in *.
    set (x' := x - step * gx / sqrt (gy * gy + gx * gx)) in *.
    assert (Hfirst : descent_step T step (y, x) (y', x')).
    { exists gy, gx. split; [exact Hg|]. split; [exact Hflat|reflexivity]. }
    destruct (outside (shape0 T) (shape1 T) y' x').
    { inversion Hrun; subst. destruct i; discriminate. }
    destruct (dist y' x' sy sx <? step * 2).
    { inversion Hrun; subst. destruct i as [|[|i]]; try discriminate.
      simpl in Hp, Hq. inversion Hp; inversion Hq; subst. exact Hfirst. }
    destruct (trace_steps k T sy sx step y' x') as [[rest' c']| |] eqn:Hrec;
      try discriminate.
    inversion Hrun; subst. clear Hrun.
    destruct i as [|i].
    + simpl in Hp, Hq. inversion Hp; inversion Hq; subst. exact Hfirst.
    + exact (IH y' x' rest' c Hrec i p q Hp Hq).
Qed.

Lemma trace_steps_far (T : ndarray float) (sy sx step : float) :
  forall (k : nat) (y x : float) rest c,
    trace_steps k T sy sx step y x = Done (rest, c) ->
    forall (i : nat) (p : float * float),
      (S i < length rest)%nat -> rest !! i = Some p ->
      (dist p.1 p.2 sy sx <? step * 2) = false.
Proof.
  induction k as [|k IH]; intros y x rest c Hrun i p Hi Hp; cbn [trace_steps] in Hrun.
  - inversion Hrun; subst. simpl in Hi. lia.
  - destruct (_gradient T y x) as [[gy gx]| |] eqn:Hg; try discriminate.
    destruct (sqrt (gy * gy + gx * gx) <? 1e-10).
    { inversion Hrun; subst. simpl in Hi. lia. }
    set (y' := y - step * gy / sqrt (gy * gy + gx * gx)) in *.
    set (x' := x - step * gx / sqrt (gy * gy + gx * gx)) in *.
    destruct (outside (shape0 T) (shape1 T) y' x').
    { inversion Hrun; subst. simpl in Hi. lia. }
    destruct (dist y' x' sy sx <? step * 2) eqn:Hnear.
    { inversion Hrun; subst. simpl in Hi. lia. }
    destruct (trace_steps k T sy sx step y' x') as [[rest' c']| |] eqn:Hrec;
      try discriminate.
    inversion Hrun; subst. clear Hrun.
    destruct i as [|i].
    + simpl in Hp. inversion Hp; subst. exact Hnear.
    + simpl in Hi, Hp. apply (IH y' x' rest' c Hrec i p); [lia|exact Hp].
Qed.

(** A larger budget extends the path, and leaves it alone when the loop
    was left by a [break]. *)
Lemma trace_steps_more (T : ndarray float) (sy sx step : float) :
  (2 <= shape0 T)%Z -> (2 <= shape1 T)%Z ->
  forall (k j : nat) (y x : float) rest c,
    trace_steps k T sy sx step y x = Done (rest, c) ->
    exists ext c',
      trace_steps (k + j) T sy sx step y x = Done (rest ++ ext, c') /\
      (c <> Exhausted -> ext = [] /\ c' = c).
Proof.
  intros H0 H1.
  induction k as [|k IH]; intros j y x rest c Hrun; cbn [trace_steps] in Hrun.
  - inversion Hrun; subst.
    destruct (trace_steps_total T sy sx step H0 H1 j y x) as (ext & c' & Hj).
    exists ext, c'. split; [exact Hj|]. intros Hne. congruence.
  - change (S k + j)%nat with (S (k + j)). cbn [trace_steps].
    destruct (_gradient T y x) as [[gy gx]| |] eqn:Hg; try discriminate.
    destruct (sqrt (gy * gy + gx * gx) <? 1e-10).
    { inversion Hrun; subst. exists [], FlatGradient. auto. }
    set (y' := y - step * gy / sqrt (gy * gy + gx * gx)) in *.
    set (x' := x - step * gx / sqrt (gy * gy + gx * gx)) in *.
    destruct (outside (shape0 T) (shape1 T) y' x').
    { inversion Hrun; subst. exists [], LeftGrid. auto. }
    destruct (dist y' x' sy sx <? step * 2).
    { inversion Hrun; subst. exists [], NearSource. auto. }
    destruct (trace_steps k T sy sx step y' x') as [[rest' c0]| |] eqn:Hrec;
      try discriminate.
    inversion Hrun; subst. clear Hrun.
    destruct (IH j y' x' rest' c Hrec) as (ext & c' & -> & Hsame).
    exists ext, c'. split; [reflexivity|exact Hsame].
Qed.

(** On a field with at least two rows and two columns the four reads of
    [_gradient] are reads of cells of the field. *)
Lemma gradient_same_cells (T T' : ndarray float) (y x : float) :
  (2 <= shape0 T)%Z -> (2 <= shape1 T)%Z ->
  shape0 T' = shape0 T -> shape1 T' = shape1 T ->
  (forall i j : Z, (0 <= i < shape0 T)%Z -> (0 <= j < shape1 T)%Z ->
                   fitem T' i j = fitem T i j) ->
  _gradient T' y x = _gradient T y x.
Proof.
  intros Hy Hx H0 H1 Hsame. unfold _gradient. cbv zeta. rewrite H0, H1.
  rewrite !Hsame by lia. reflexivity.
Qed.

Lemma trace_steps_same_cells (T T' : ndarray float) (sy sx step : float) :
  (2 <= shape0 T)%Z -> (2 <= shape1 T)%Z ->
  shape0 T' = shape0 T -> shape1 T' = shape1 T ->
  (forall i j : Z, (0 <= i < shape0 T)%Z -> (0 <= j < shape1 T)%Z ->
                   fitem T' i j = fitem T i j) ->
  forall (k : nat) (y x : float),
    trace_steps k T' sy sx step y x = trace_steps k T sy sx step y x.
Proof.
  intros Hy Hx H0 H1 Hsame. induction k as [|k IH]; intros y x.
  - reflexivity.
  - cbn [trace_steps].
    rewrite (gradient_same_cells T T' y x Hy Hx H0 H1 Hsame), H0, H1.
    destruct (_gradient T y x) as [[gy gx]| |]; try reflexivity.
    destruct (_ <? 1e-10); [reflexivity|].
    destruct (outside _ _ _ _); [reflexivity|].
    destruct (_ <? step * 2); [reflexivity|].
    rewrite IH. reflexivity.
Qed.

End TracerPaths.

Section TracerProperties.

Local Open Scope float_scope.

Lemma trace_rays_done (T : ndarray float) (source : float * float) (step : float) :
  forall targets paths,
    trace_rays T targets source step = Done paths <->
    Forall2 (fun t p => trace_ray T t source step = Done p) targets paths.
Proof.
  induction targets as [|t ts IH]; intros paths; simpl.
  - split.
    + intros H. inversion H; subst. constructor.
    + intros H. inversion H; subst. reflexivity.
  - split.
    + intros H.
      destruct (trace_ray T t source step) as [p| |] eqn:Hp; try discriminate.
      destruct (trace_rays T ts source step) as [ps| |] eqn:Hps; try discriminate.
      inversion H; subst. constructor; [exact Hp|]. apply IH. reflexivity.
    + intros H. inversion H as [|t' p ts' ps Hp Hps]; subst.
      rewrite Hp. apply IH in Hps. rewrite Hps. reflexivity.
Qed.

(** X14: [trace_rays] returns, in the order of the targets, exactly the
    paths that [trace_ray] returns for each of them, and fails when one
    of them fails.  On a field with at least two rows and two columns it
    returns one path per target, each starting with its target. *)
Theorem trace_rays_pointwise (T : ndarray float) (targets : list (float * float))
    (source : float * float) (step : float) :
  (forall paths,
     trace_rays T targets source step = Done paths <->
     Forall2 (fun t p => trace_ray T t source step = Done p) targets paths) /\
  ((2 <= shape0 T)%Z -> (2 <= shape1 T)%Z ->
   exists paths,
     trace_rays T targets source step = Done paths /\
     Forall2 (fun t p => exists rest, p = t :: rest) targets paths).
Proof.
  split; [apply trace_rays_done|]. intros H0 H1.
  induction targets as [|[ty tx] ts (ps & Hps & Hheads)]; simpl.
  - exists []. split; [reflexivity|constructor].
  - assert (Hmax : (1 <= 30000)%Z) by (apply Z.leb_le; reflexivity).
    destruct (trace_core_total T ty tx source.1 source.2 step 30000%Z H0 H1 Hmax)
      as (rest & Hp).
    unfold trace_ray. cbn [fst snd]. rewrite Hp, Hps.
    exists (((ty, tx) :: rest) :: ps). split; [reflexivity|].
    constructor; [eauto|exact Hheads].
Qed.

Lemma trace_rays_pointwise_witness :
  exists paths,
    trace_rays T32 [(2, 0.5); (1, 0.5)] (0, 0) 0.5 = Done paths /\
    Forall2 (fun t p => exists rest, p = t :: rest) [(2, 0.5); (1, 0.5)] paths.
Proof.
  refine (proj2 (trace_rays_pointwise T32 [(2, 0.5); (1, 0.5)] (0, 0) 0.5) _ _);
    apply Z.leb_le; reflexivity.
Defined.

(** A field of 3 rows and 2 columns followed in memory by two more
    numbers. *)
Definition T32_then : ndarray float :=
  NdArray 3 2 (data T32 ++ [7; 7]).

(** X15: on a field with at least two rows and two columns the gradient
    and the tracer read cells of the field only (lines 15-16 read rows
    [iy0], [iy0+1] and columns [ix0], [ix0+1], all inside the grid): two
    fields of the same shape that hold the same values in every cell give
    the same gradient at every position and the same path for every
    target, source and step, whatever else their memory holds. *)
Theorem tracer_reads_inside_field (T T' : ndarray float) :
  (2 <= shape0 T)%Z -> (2 <= shape1 T)%Z ->
  shape0 T' = shape0 T -> shape1 T' = shape1 T ->
  (forall i j : Z, (0 <= i < shape0 T)%Z -> (0 <= j < shape1 T)%Z ->
                   fitem T' i j = fitem T i j) ->
  (forall y x, _gradient T' y x = _gradient T y x) /\
  (forall target source step,
     trace_ray T' target source step = trace_ray T target source step).
Proof.
  intros Hy Hx H0 H1 Hsame. split.
  - intros y x. apply gradient_same_cells; assumption.
  - intros target source step. unfold trace_ray, _trace_core, _trace_run.
    rewrite (trace_steps_same_cells T T' _ _ _ Hy Hx H0 H1 Hsame).
    reflexivity.
Qed.

Lemma tracer_reads_inside_field_witness :
  (forall y x, _gradient T32_then y x = _gradient T32 y x) /\
  (forall target source step,
     trace_ray T32_then target source step = trace_ray T32 target source step).
Proof.
  apply (tracer_reads_inside_field T32 T32_then);
    [apply Z.leb_le; reflexivity|apply Z.leb_le; reflexivity
    |reflexivity|reflexivity|].
  intros i j Hi Hj. change (shape0 T32) with 3%Z in Hi.
  change (shape1 T32) with 2%Z in Hj.
  assert (Hi' : i = 0%Z \/ i = 1%Z \/ i = 2%Z) by lia.
  assert (Hj' : j = 0%Z \/ j = 1%Z) by lia.
  destruct Hi' as [->|[->| ->]]; destruct Hj' as [->| ->]; reflexivity.
Defined.

(** X16: in a returned path every point after the first is reached from
    the point before it by one step of length [step] against the
    gradient evaluated there, and that gradient was not flat (norm not
    below 1e-10). *)
Theorem trace_path_is_descent_chain (T : ndarray float)
    (ty tx sy sx step : float) (maxs : Z) (path : list (float * float)) :
  _trace_core T ty tx sy sx step maxs = Done path ->
  forall (i : nat) (p q : float * float),
    path !! i = Some p -> path !! S i = Some q ->
    exists gy gx, _gradient T p.1 p.2 = Done (gy, gx) /\
      (sqrt (gy * gy + gx * gx) <? 1e-10) = false /\
      q = (p.1 - step * gy / sqrt (gy * gy + gx * gx),
           p.2 - step * gx / sqrt (gy * gy + gx * gx)).
Proof.
  unfold _trace_core, _trace_run. intros Hrun.
  destruct (1 <=? maxs)%Z; [|discriminate].
  destruct (trace_steps _ T sy sx step ty tx) as [[rest c]| |] eqn:Hsteps;
    try discriminate.
  inversion Hrun; subst. clear Hrun.
  intros i p q Hp Hq.
  exact (trace_steps_chain T sy sx step _ _ _ _ _ Hsteps i p q Hp Hq).
Qed.

(** The path on [T32] from (2, 0.5) towards the source (0, 0). *)
Definition T32_path : list (float * float) :=
  [(2, 0.5); (1.5, 0.5); (1, 0.5); (0.5, 0.5)].

Lemma trace_path_is_descent_chain_witness :
  exists gy gx, _gradient T32 2 0.5 = Done (gy, gx) /\
    (sqrt (gy * gy + gx * gx) <? 1e-10) = false /\
    (1.5, 0.5) = (2 - 0.5 * gy / sqrt (gy * gy + gx * gx),
                  0.5 - 0.5 * gx / sqrt (gy * gy + gx * gx)).
Proof.
  apply (trace_path_is_descent_chain T32 2 0.5 0 0 0.5 30000%Z T32_path
           ltac:(vm_compute; reflexivity) 0%nat (2, 0.5) (1.5, 0.5));
    reflexivity.
Defined.

(** X17: the loop stops at the first point it appends that lies within
    [2*step] of the source: in a returned path no point other than the
    first (the target, which is not tested) and the last is that close. *)
Theorem trace_stops_at_first_near_point (T : ndarray float)
    (ty tx sy sx step : float) (maxs : Z) (path : list (float * float)) :
  _trace_core T ty tx sy sx step maxs = Done path ->
  forall (i : nat) (p : float * float),
    (1 <= i)%nat -> (S i < length path)%nat -> path !! i = Some p ->
    (dist p.1 p.2 sy sx <? step * 2) = false.
Proof.
  unfold _trace_core, _trace_run. intros Hrun.
  destruct (1 <=? maxs)%Z; [|discriminate].
  destruct (trace_steps _ T sy sx step ty tx) as [[rest c]| |] eqn:Hsteps;
    try discriminate.
  inversion Hrun; subst. clear Hrun.
  intros [|i] p Hi Hlen Hp; [lia|]. simpl in Hlen, Hp.
  apply (trace_steps_far T sy sx step _ _ _ _ _ Hsteps i p); [lia|exact Hp].
Qed.

Lemma trace_stops_at_first_near_point_witness :
  (dist 1 0.5 0 0 <? 0.5 * 2) = false.
Proof.
  apply (trace_stops_at_first_near_point T32 2 0.5 0 0 0.5 30000%Z T32_path
           ltac:(vm_compute; reflexivity) 2%nat (1, 0.5));
    [lia|simpl; lia|reflexivity].
Defined.

(** X18: on a field with at least two rows and two columns, raising the
    budget [maxs] only extends the path: the path for the smaller budget
    is a prefix of the path for the larger one, and the two are equal
    when the smaller budget was not used up. *)
Theorem trace_budget_prefix (T : ndarray float) (ty tx sy sx step : float)
    (maxs maxs' : Z) :
  (2 <= shape0 T)%Z -> (2 <= shape1 T)%Z -> (1 <= maxs <= maxs')%Z ->
  exists path ext,
    _trace_core T ty tx sy sx step maxs = Done path /\
    _trace_core T ty tx sy sx step maxs' = Done (path ++ ext) /\
    ((Z.of_nat (length path) < maxs)%Z -> ext = []).
Proof.
  intros H0 H1 [Hmax Hle]. unfold _trace_core, _trace_run.
  replace (1 <=? maxs)%Z with true by (symmetry; apply Z.leb_le; lia).
  replace (1 <=? maxs')%Z with true by (symmetry; apply Z.leb_le; lia).
  destruct (trace_steps_total T sy sx step H0 H1 (Z.to_nat (maxs - 1)) ty tx)
    as (rest & c & Hsteps).
  destruct (trace_steps_more T sy sx step H0 H1 (Z.to_nat (maxs - 1))
              (Z.to_nat (maxs' - maxs)) ty tx rest c Hsteps)
    as (ext & c' & Hmore & Hsame).
  replace (Z.to_nat (maxs - 1) + Z.to_nat (maxs' - maxs))%nat
    with (Z.to_nat (maxs' - 1)) in Hmore by lia.
  rewrite Hsteps, Hmore.
  exists ((ty, tx) :: rest), ext. split; [reflexivity|]. split; [reflexivity|].
  intros Hshort. apply Hsame. intros ->.
  destruct (trace_steps_sound _ _ _ _ _ _ _ _ _ Hsteps) as (_ & _ & Hc).
  simpl in Hc, Hshort. lia.
Qed.

Lemma trace_budget_prefix_witness :
  exists path ext,
    _trace_core T32 2 0.5 0 0 0.5 2 = Done path /\
    _trace_core T32 2 0.5 0 0 0.5 30000 = Done (path ++ ext) /\
    ((Z.of_nat (length path) < 2)%Z -> ext = []).
Proof.
  apply (trace_budget_prefix T32 2 0.5 0 0 0.5 2 30000).
  - apply Z.leb_le. reflexivity.
  - apply Z.leb_le. reflexivity.
  - split; apply Z.leb_le; reflexivity.
Defined.

End TracerProperties.

Section GradientPosition.

Local Open Scope float_scope.

(** Lines 10-11: the position is moved into [[0.5, n - 1.5]]. *)
Definition clamp_position (n : Z) (v : float) : float :=
  pymax 0.5 (pymin (Z2float n - 1.5) v).

Lemma clamp_position_idempotent (n : Z) (v : float) :
  clamp_position n (clamp_position n v) = clamp_position n v.
Proof.
  unfold clamp_position, pymax, pymin.
  set (a := Z2float n - 1.5).
  destruct (v <? a) eqn:Hva.
  - destruct (0.5 <? v) eqn:Hv.
    + rewrite Hva, Hv. reflexivity.
    + destruct (0.5 <? a) eqn:Ha; rewrite ?ltb_irrefl, ?Ha; reflexivity.
  - destruct (0.5 <? a) eqn:Ha.
    + rewrite ltb_irrefl, Ha. reflexivity.
    + destruct (0.5 <? a) eqn:Ha'; rewrite ?ltb_irrefl, ?Ha'; try congruence;
        reflexivity.
Qed.

Lemma ltb_nan_l (a : float) : (nan <? a) = false.
Proof. rewrite ltb_spec. reflexivity. Qed.

Lemma clamp_position_nan (n : Z) :
  clamp_position n nan = clamp_position n (Z2float n - 1.5).
Proof.
  unfold clamp_position, pymin. rewrite ltb_nan_l, ltb_irrefl. reflexivity.
Qed.

Lemma gradient_clamped (T : ndarray float) (y x y' x' : float) :
  clamp_position (shape0 T) y' = clamp_position (shape0 T) y ->
  clamp_position (shape1 T) x' = clamp_position (shape1 T) x ->
  _gradient T y' x' = _gradient T y x.
Proof.
  intros Hy Hx. unfold _gradient. cbv zeta.
  change (pymax 0.5 (pymin (Z2float (shape0 T) - 1.5) y'))
    with (clamp_position (shape0 T) y').
  change (pymax 0.5 (pymin (Z2float (shape1 T) - 1.5) x'))
    with (clamp_position (shape1 T) x').
  rewrite Hy, Hx. reflexivity.
Qed.

(** X19: [_gradient] uses the position only after moving each coordinate
    into [[0.5, n - 1.5]]: the gradient at any position is the gradient at
    the moved position (so beyond the border it is the gradient at the
    border), and a NaN coordinate is treated as [n - 1.5], the far
    border. *)
Theorem gradient_at_clamped_position (T : ndarray float) (y x : float) :
  _gradient T y x
  = _gradient T (clamp_position (shape0 T) y) (clamp_position (shape1 T) x) /\
  _gradient T nan x = _gradient T (Z2float (shape0 T) - 1.5) x /\
  _gradient T y nan = _gradient T y (Z2float (shape1 T) - 1.5).
Proof.
  split; [|split]; symmetry; apply gradient_clamped;
    auto using clamp_position_idempotent; symmetry; apply clamp_position_nan.
Qed.

End GradientPosition.

(** * The warm-up calls *)

(** [np.ones((ny, nx))]. *)
Definition ones (ny nx : Z) : ndarray float := full ny nx 1%float.

(** [warmup] of [src/solver.py] (lines 66-68) and of [src/raytracer.py]
    (lines 52-54); both drop the value they computed. *)
Module solver.

Definition warmup (fuel : nat) : outcome unit :=
  match solve_eikonal fuel (ones 50 50) (25, 5) 1%float with
  | Done _ => Done tt
  | IndexError => IndexError
  | OutOfFuel => OutOfFuel
  end.

End solver.

Module raytracer.

Definition warmup : outcome unit :=
  match trace_ray (ones 50 50) (40, 40)%float (25, 5)%float 0.5%float with
  | Done _ => Done tt
  | IndexError => IndexError
  | OutOfFuel => OutOfFuel
  end.

End raytracer.

Section Warmups.

(** X20: both warm-up calls run to completion.  The one of the ray
    tracer follows no ray: on the constant field the gradient at the
    target is flat, the loop is left at its first iteration, and the path
    is the target alone. *)
Theorem warmups_complete :
  (forall fuel : nat, (fuel_bound 50 50 <= fuel)%nat ->
                      solver.warmup fuel = Done tt) /\
  raytracer.warmup = Done tt /\
  trace_ray (ones 50 50) (40, 40)%float (25, 5)%float 0.5%float
  = Done [(40, 40)%float].
Proof.
  split; [|split; vm_compute; reflexivity].
  assert (Hn : 0 < 50 < 2 ^ 31) by lia.
  destruct (fmm_run_ends (ones 50 50) 1%float 50 50 Hn Hn eq_refl eq_refl
              25 5 eq_refl eq_refl (fun _ => True) I (fun _ _ _ _ => I))
    as (st & Hrun & _).
  intros fuel Hfuel. unfold solver.warmup.
  rewrite (proj2 (run_from_init fuel (ones 50 50) 25 5 1%float st
                    eq_refl eq_refl (Hrun fuel Hfuel))).
  reflexivity.
Qed.

End Warmups.

(** * The consumer of the paths, [snell_convergence.py]

    [measure_angles] (lines 14-32) looks for the first segment of a path
    that crosses the vertical line [x = interface_x], takes up to
    [margin] points on each side of it and fits a line through each
    group.  The part before the fits (lines 15-26) is modelled: the
    result is [None] where the function returns [(None, None)] without
    fitting, and the two groups of points handed to [np.polyfit]
    otherwise. *)

(** Line 18: [(a > ix >= b) or (a < ix <= b)]. *)
Definition crosses (interface_x a b : float) : bool :=
  ((interface_x <? a) && (b <=? interface_x)
   || (a <? interface_x) && (interface_x <=? b))%float.

(** Lines 17-20: the first [i] with [i + 1 < len(ray)] whose segment
    crosses; [xs] is the column [ray[:, 1]] from index [i] on. *)
Fixpoint find_crossing (interface_x : float) (i : nat) (xs : list float)
    : option nat :=
  match xs with
  | a :: (b :: _) as rest =>
      if crosses interface_x a b then Some i
      else find_crossing interface_x (S i) rest
  | _ => None
  end.

(** A slice bound as Python reads it: counted from the end when
    negative, and cut to [[0, n]]. *)
Definition slice_bound (i n : Z) : Z :=
  if i <? 0 then Z.max 0 (i + n) else Z.min i n.

(** [l[lo:hi]]. *)
Definition py_slice {A} (lo hi : Z) (l : list A) : list A :=
  let n := Z.of_nat (length l) in
  let a := slice_bound lo n in
  let b := slice_bound hi n in
  take (Z.to_nat (b - a)) (drop (Z.to_nat a) l).

(** Lines 15-26. *)
Definition measure_angles_windows (ray : list (float * float)) (interface_x : float)
    (margin : Z) : option (list (float * float) * list (float * float)) :=
  match find_crossing interface_x 0 (map snd ray) with
  | None => None
  | Some c =>
      let crossing := Z.of_nat c in
      let n := Z.of_nat (length ray) in
      let pts_m2 := py_slice (Z.max 0 (crossing - margin)) crossing ray in
      let pts_m1 := py_slice (crossing + 1) (Z.min n (crossing + 1 + margin)) ray in
      if (length pts_m2 <? 15)%nat || (length pts_m1 <? 15)%nat then None
      else Some (pts_m2, pts_m1)
  end.

Section MeasureAngles.

Lemma find_crossing_spec (interface_x : float) :
  forall (xs : list float) (i : nat),
    match find_crossing interface_x i xs with
    | Some c =>
        (i <= c)%nat /\
        (exists a b, xs !! (c - i)%nat = Some a /\ xs !! S (c - i) = Some b /\
                     crosses interface_x a b = true) /\
        (forall j a b, (j < c - i)%nat -> xs !! j = Some a -> xs !! S j = Some b ->
                       crosses interface_x a b = false)
    | None =>
        forall j a b, xs !! j = Some a -> xs !! S j = Some b ->
                      crosses interface_x a b = false
    end.
Proof.
  induction xs as [|a xs IH]; intros i; [cbn; intros j a b Hj; discriminate|].
  destruct xs as [|b xs]; [cbn; intros [|j] a' b' Ha Hb; discriminate|].
  change (find_crossing interface_x i (a :: b :: xs))
    with (if crosses interface_x a b then Some i
          else find_crossing interface_x (S i) (b :: xs)).
  destruct (crosses interface_x a b) eqn:Hc.
  - split; [lia|]. rewrite Nat.sub_diag. split; [exists a, b; auto|].
    intros j a' b' Hj. lia.
  - specialize (IH (S i)).
    destruct (find_crossing interface_x (S i) (b :: xs)) as [c|]; cbv iota.
    + destruct IH as (Hle & (a' & b' & Ha' & Hb' & Hc') & Hfirst).
      split; [lia|].
      replace (c - i)%nat with (S (c - S i)) by lia.
      split; [exists a', b'; auto|].
      intros [|j] a'' b'' Hj Ha'' Hb''.
      * simpl in Ha'', Hb''. congruence.
      * apply (Hfirst j a'' b''); [lia|exact Ha''|exact Hb''].
    + intros [|j] a' b' Ha' Hb'.
      * simpl in Ha', Hb'. congruence.
      * apply (IH j a' b'); assumption.
Qed.

(** X21: the crossing that [measure_angles] uses is the first one: when
    the search returns index [c], the segment from point [c] to point
    [c + 1] crosses the line and no earlier segment does; when it returns
    nothing, no segment of the path crosses the line, and
    [measure_angles] returns [(None, None)]. *)
Theorem find_crossing_first (ray : list (float * float)) (interface_x : float)
    (margin : Z) :
  match find_crossing interface_x 0 (map snd ray) with
  | Some c =>
      (exists p q, ray !! c = Some p /\ ray !! S c = Some q /\
                   crosses interface_x p.2 q.2 = true) /\
      (forall j p q, (j < c)%nat -> ray !! j = Some p -> ray !! S j = Some q ->
                     crosses interface_x p.2 q.2 = false)
  | None =>
      (forall j p q, ray !! j = Some p -> ray !! S j = Some q ->
                     crosses interface_x p.2 q.2 = false) /\
      measure_angles_windows ray interface_x margin = None
  end.
Proof.
  pose proof (find_crossing_spec interface_x (map snd ray) 0) as Hspec.
  unfold measure_angles_windows.
  destruct (find_crossing interface_x 0 (map snd ray)) as [c|].
  - destruct Hspec as (_ & (a & b & Ha & Hb & Hc) & Hfirst).
    rewrite Nat.sub_0_r in *. rewrite list_lookup_fmap in Ha, Hb.
    destruct (ray !! c) as [p|] eqn:Hp; [|discriminate].
    destruct (ray !! S c) as [q|] eqn:Hq; [|discriminate].
    simpl in Ha, Hb. inversion Ha; inversion Hb; subst.
    split; [exists p, q; auto|].
    intros j p' q' Hj Hp' Hq'. apply (Hfirst j); [exact Hj| |];
      rewrite list_lookup_fmap; [rewrite Hp'|rewrite Hq']; reflexivity.
  - split; [|reflexivity].
    intros j p q Hp Hq. apply (Hspec j);
      rewrite list_lookup_fmap; [rewrite Hp|rewrite Hq]; reflexivity.
Qed.

Lemma py_slice_inside {A} (lo hi : Z) (l : list A) :
  0 <= lo <= hi -> hi <= Z.of_nat (length l) ->
  py_slice lo hi l = take (Z.to_nat (hi - lo)) (drop (Z.to_nat lo) l).
Proof.
  intros Hlo Hhi. unfold py_slice, slice_bound. cbv zeta.
  destruct (lo <? 0) eqn:E1; [apply Z.ltb_lt in E1; lia|].
  destruct (hi <? 0) eqn:E2; [apply Z.ltb_lt in E2; lia|].
  rewrite !Z.min_l by lia. reflexivity.
Qed.

Lemma py_slice_length {A} (lo hi : Z) (l : list A) :
  0 <= lo -> 0 <= hi ->
  Z.of_nat (length (py_slice lo hi l))
  = Z.max 0 (Z.min hi (Z.of_nat (length l)) - Z.min lo (Z.of_nat (length l))).
Proof.
  intros Hlo Hhi. unfold py_slice, slice_bound. cbv zeta.
  destruct (lo <? 0) eqn:E1; [apply Z.ltb_lt in E1; lia|].
  destruct (hi <? 0) eqn:E2; [apply Z.ltb_lt in E2; lia|].
  rewrite length_take, length_drop. lia.
Qed.

(** X22: when [measure_angles] goes on to fit the two lines, the two
    groups of points are the [margin] points (fewer at the ends of the
    path) just before and just after point [c] of the first crossing, in
    path order and without that point: the path is [pre ++ pts_m2 ++
    [ray[c]] ++ pts_m1 ++ post].  Each group has between 15 and [margin]
    points; so with [margin < 15], or with a path of fewer than 31
    points, [measure_angles] returns [(None, None)]. *)
Theorem measure_windows_around_crossing (ray : list (float * float))
    (interface_x : float) (margin : Z)
    (pts_m2 pts_m1 : list (float * float)) :
  measure_angles_windows ray interface_x margin = Some (pts_m2, pts_m1) ->
  exists (c : nat) (p : float * float) (pre post : list (float * float)),
    find_crossing interface_x 0 (map snd ray) = Some c /\
    ray = pre ++ pts_m2 ++ [p] ++ pts_m1 ++ post /\
    length (pre ++ pts_m2) = c /\
    15 <= Z.of_nat (length pts_m2) <= margin /\
    15 <= Z.of_nat (length pts_m1) <= margin /\
    (length pts_m2 < Z.to_nat margin -> pre = [])%nat /\
    (length pts_m1 < Z.to_nat margin -> post = [])%nat /\
    (31 <= length ray)%nat.
Proof.
  unfold measure_angles_windows. intros Hm.
  pose proof (find_crossing_spec interface_x (map snd ray) 0) as Hspec.
  destruct (find_crossing interface_x 0 (map snd ray)) as [c|]; [|discriminate].
  destruct Hspec as (_ & (a & b & Ha & Hb & _) & _).
  rewrite Nat.sub_0_r in *. rewrite list_lookup_fmap in Ha, Hb.
  destruct (ray !! c) as [p|] eqn:Hp; [|discriminate].
  destruct (ray !! S c) as [q|] eqn:Hq; [|discriminate].
  pose proof (lookup_lt_Some _ _ _ Hq) as Hlen.
  cbv zeta in Hm.
  destruct ((length (py_slice (Z.max 0 (Z.of_nat c - margin)) (Z.of_nat c) ray)
             <? 15)%nat
            || (length (py_slice (Z.of_nat c + 1)
                          (Z.min (Z.of_nat (length ray)) (Z.of_nat c + 1 + margin))
                          ray) <? 15)%nat) eqn:Hshort; [discriminate|].
  apply orb_false_iff in Hshort. destruct Hshort as [H2 H1].
  apply Nat.ltb_ge in H2, H1.
  injection Hm as Hm2 Hm1.
  pose proof (py_slice_length (Z.max 0 (Z.of_nat c - margin)) (Z.of_nat c) ray
                ltac:(lia) ltac:(lia)) as L2.
  assert (Hmargin : 15 <= margin).
  { destruct (Z.le_gt_cases 15 margin) as [Hm|Hm]; [exact Hm|].
    rewrite Hm2 in *. lia. }
  pose proof (py_slice_length (Z.of_nat c + 1)
                (Z.min (Z.of_nat (length ray)) (Z.of_nat c + 1 + margin)) ray
                ltac:(lia) ltac:(lia)) as L1.
  rewrite Hm2 in L2, H2. rewrite Hm1 in L1, H1.
  rewrite py_slice_inside in Hm2 by lia.
  rewrite py_slice_inside in Hm1 by lia.
  set (lo := Z.to_nat (Z.max 0 (Z.of_nat c - margin))) in *.
  set (k1 := Z.to_nat (Z.min (Z.of_nat (length ray)) (Z.of_nat c + 1 + margin)
                       - (Z.of_nat c + 1))) in *.
  exists c, p, (take lo ray), (drop (S c + k1) ray).
  split; [reflexivity|].
  assert (Hm2' : pts_m2 = take (c - lo) (drop lo ray)).
  { rewrite <- Hm2. f_equal. unfold lo. lia. }
  assert (Hm1' : pts_m1 = take k1 (drop (S c) ray)).
  { rewrite <- Hm1. f_equal. f_equal. lia. }
  assert (Hlo : (lo <= c)%nat) by (unfold lo; lia).
  split.
  { rewrite Hm2', Hm1'.
    rewrite <- (take_drop lo ray) at 1. f_equal.
    rewrite <- (take_drop (c - lo) (drop lo ray)) at 1. f_equal.
    rewrite drop_drop. replace (lo + (c - lo))%nat with c by lia.
    rewrite (drop_S _ _ _ Hp). simpl. f_equal.
    rewrite <- (take_drop k1 (drop (S c) ray)) at 1. f_equal.
    rewrite drop_drop. reflexivity. }
  split.
  { rewrite length_app, length_take, Hm2', length_take, length_drop. lia. }
  split; [lia|]. split; [lia|].
  split.
  { intros Hfew. assert (lo = 0%nat) as -> by (unfold lo; lia). reflexivity. }
  split.
  { intros Hfew. apply drop_ge. unfold k1. lia. }
  lia.
Qed.

(** A path of 40 points along the row [y = 0], one column per point. *)
Definition straight_path (first count : Z) : list (float * float) :=
  map (fun z : Z => (0%float, Z2float z)) (seqZ first count).

Lemma measure_windows_around_crossing_witness :
  exists (c : nat) (p : float * float) (pre post : list (float * float)),
    find_crossing 20.5 0 (map snd (straight_path 0 40)) = Some c /\
    straight_path 0 40
      = pre ++ straight_path 5 15 ++ [p] ++ straight_path 21 15 ++ post /\
    length (pre ++ straight_path 5 15) = c /\
    15 <= Z.of_nat (length (straight_path 5 15)) <= 15 /\
    15 <= Z.of_nat (length (straight_path 21 15)) <= 15 /\
    (length (straight_path 5 15) < Z.to_nat 15 -> pre = [])%nat /\
    (length (straight_path 21 15) < Z.to_nat 15 -> post = [])%nat /\
    (31 <= length (straight_path 0 40))%nat.
Proof.
  apply (measure_windows_around_crossing (straight_path 0 40) 20.5 15
           (straight_path 5 15) (straight_path 21 15)).
  vm_compute. reflexivity.
Defined.

End MeasureAngles.
